(** * flake: run a command in parallel lanes until one invocation fails

    A shallow embedding of [flake.go] (package main of cespare/flake) and a
    verification of its behaviour: outcome classification, output capture,
    scratch directories, the child's environment, sequence ids, the worker
    loop, the coordinator loop and the exit status.

    The Go runtime and the standard-library calls the program makes
    (bytes.Buffer, slices.Clone, path/filepath, os.Mkdir, os.MkdirTemp,
    os.RemoveAll, os.Environ, os/exec, sync/atomic, strconv, fmt verbs)
    are not part of the repository; module [Go] holds the model of each
    one the program relies on. *)

From Stdlib Require Import ZArith String Ascii List Lia.
From Stdlib Require Import Strings.Byte.
From stdpp Require Import base option list strings gmap pretty.

Local Open Scope string_scope.
Local Open Scope list_scope.
Local Open Scope Z_scope.

(* ------------------------------------------------------------------ *)
(** ** The Go runtime and library calls used by the program *)
(* ------------------------------------------------------------------ *)

Module Go.

(** int64 with its wrap-around: the value of the two's complement word. *)
Definition int64_max : Z := 2 ^ 63 - 1.
Definition int64_min : Z := - 2 ^ 63.
Definition wrap64 (z : Z) : Z := (z + 2 ^ 63) mod 2 ^ 64 - 2 ^ 63.

(** [atomic.AddInt64(&x, delta)]: one indivisible read-modify-write; the
    result is the new value, which is also what is stored. *)
Definition AddInt64 (x delta : Z) : Z := wrap64 (x + delta).

(** [a * b] and [a / b] on int64 ([/] truncates toward zero). *)
Definition int64_mul (a b : Z) : Z := wrap64 (a * b).
Definition int64_quo (a b : Z) : Z := wrap64 (Z.quot a b).

(** [strconv.FormatInt(i, 10)] and the verb [%d]. *)
Definition FormatInt (i : Z) : string := pretty i.

(** *** Paths (packages path/filepath and os, on unix)

    A path is compared by its text. [Clean] is the lexical normal form of
    path/filepath: separators are not repeated, [.] elements are dropped,
    an inner [..] takes the element before it away, a [..] at the root is
    dropped, and the empty result is [.]. *)
Definition is_sep (a : ascii) : bool := bool_decide (a = "/"%char).

(** The elements of a path: the text between its separators. *)
Fixpoint path_elements (path : string) : list string :=
  match path with
  | EmptyString => [EmptyString]
  | String a rest =>
      if is_sep a then EmptyString :: path_elements rest
      else match path_elements rest with
           | e :: es => String a e :: es
           | [] => [String a EmptyString]
           end
  end.

Definition rooted (path : string) : bool :=
  match path with String a _ => is_sep a | EmptyString => false end.

(** One element read by [Clean]; [st] is what has been written so far, the
    last element first. [..] backtracks over a real element, and where it
    cannot it is kept in a relative path and dropped in a rooted one. *)
Definition clean_step (r : bool) (st : list string) (e : string) : list string :=
  if decide (e = "" ∨ e = ".") then st
  else if decide (e = "..") then
    match st with
    | top :: below => if decide (top = "..") then e :: st else below
    | [] => if r then [] else [e]
    end
  else e :: st.

Definition Clean (path : string) : string :=
  let st := fold_left (clean_step (rooted path)) (path_elements path) [] in
  let out := (if rooted path then "/" else "") +:+ String.concat "/" (reverse st) in
  if decide (out = "") then "." else out.

(** [filepath.Join(dir, elem)]: the elements from the first non-empty one
    on, joined by the separator, in Clean form; the empty path when both are
    empty. *)
Definition filepath_Join (dir elem : string) : string :=
  if decide (dir ≠ "") then Clean (dir +:+ "/" +:+ elem)
  else if decide (elem ≠ "") then Clean elem
  else "".

(** [path[:i+1]] for the index [i] of the last separator of [path]. *)
Fixpoint dir_part (path : string) : string :=
  match path with
  | EmptyString => EmptyString
  | String a rest =>
      let d := dir_part rest in
      if decide (d = "") then (if is_sep a then "/" else "") else String a d
  end.

(** [filepath.Dir(path)]: all but the last element, in Clean form. *)
Definition filepath_Dir (path : string) : string := Clean (dir_part path).

Fixpoint last_is_sep (s : string) : bool :=
  match s with
  | EmptyString => false
  | String a EmptyString => is_sep a
  | String _ rest => last_is_sep rest
  end.

(** [joinPath(dir, name)] of package os: a separator is added unless [dir]
    ends with one. *)
Definition joinPath (dir name : string) : string :=
  if last_is_sep dir then dir +:+ name else dir +:+ "/" +:+ name.

Fixpoint ends_sep_dot (s : string) : bool :=
  match s with
  | EmptyString => false
  | String a rest =>
      match rest with
      | EmptyString => false
      | String b EmptyString => is_sep a && bool_decide (b = "."%char)
      | _ => ends_sep_dot rest
      end
  end.

(** [endsWithDot(path)] of package os: the last element is [.]. *)
Definition endsWithDot (path : string) : bool :=
  bool_decide (path = ".") || ends_sep_dot path.

(** A Go string with a NUL byte is no C string: the system calls on paths
    refuse it with EINVAL. *)
Fixpoint has_nul (s : string) : bool :=
  match s with
  | EmptyString => false
  | String a rest => bool_decide (a = Ascii.zero) || has_nul rest
  end.

(** *** Memory: backing arrays and slices

    The heap is the list of backing arrays allocated so far; an address is
    an index in it and an allocation appends. A slice is a window
    [ptr[0:len]] with capacity [cap] on one backing array; the address of a
    slice of capacity 0 is never dereferenced. *)
Abbreviation byte := Byte.byte.
Abbreviation heap := (list (list Byte.byte)).

Record slice : Type := Slice { s_arr : nat; s_len : nat; s_cap : nat }.

Definition nil_slice : slice := Slice 0 0 0.

Definition slice_read (h : heap) (s : slice) : list byte :=
  take (s_len s) (default [] (h !! s_arr s)).

(** [copy(arr[pos:], p)] where it fits. *)
Definition store_at (arr : list byte) (pos : nat) (p : list byte) : list byte :=
  take pos arr ++ p ++ drop (pos + length p) arr.

(** [slices.Clone(s)] is [append(s[:0:0], s...)]: an empty slice gives the
    zero-capacity window on the same array back, a non-empty one is copied
    into a fresh array. *)
Definition slices_Clone (h : heap) (s : slice) : heap * slice :=
  if decide (s_len s = 0)%nat then (h, Slice (s_arr s) 0 0)
  else (h ++ [slice_read h s], Slice (length h) (s_len s) (s_len s)).

(** *** bytes.Buffer

    The program only appends to the buffer and resets it, so the read
    offset [off] stays 0 and [buf] is the whole state. *)
Record Buffer : Type := mkBuffer { buf : slice }.

Definition zero_Buffer : Buffer := mkBuffer nil_slice.

(** [b.Reset()]: [b.buf = b.buf[:0]], the backing array is kept. *)
Definition Buffer_Reset (b : Buffer) : Buffer :=
  mkBuffer (Slice (s_arr (buf b)) 0 (s_cap (buf b))).

(** [b.Bytes()]: [b.buf[b.off:]], a window on the buffer's own array. *)
Definition Buffer_Bytes (b : Buffer) : slice := buf b.

(** The capacity [grow] allocates when [n] more bytes do not fit. *)
Definition grow_cap (s : slice) (n : nat) : nat :=
  if decide (s_cap s = 0 ∧ n ≤ 64)%nat then 64%nat
  else Nat.max (2 * s_cap s) (s_len s + n).

(** Appending a chunk [p]: in place when the capacity allows
    ([tryGrowByReslice]), else into a fresh, larger array ([grow]). *)
Definition Buffer_Write (h : heap) (b : Buffer) (p : list byte) : heap * Buffer :=
  let s := buf b in
  if decide (length p ≤ s_cap s - s_len s)%nat then
    (alter (λ arr, store_at arr (s_len s) p) (s_arr s) h,
     mkBuffer (Slice (s_arr s) (s_len s + length p) (s_cap s)))
  else
    let c := grow_cap s (length p) in
    (h ++ [slice_read h s ++ p ++ replicate (c - (s_len s + length p)) x00],
     mkBuffer (Slice (length h) (s_len s + length p) c)).

Fixpoint Buffer_WriteAll (h : heap) (b : Buffer) (chunks : list (list byte))
  : heap * Buffer :=
  match chunks with
  | [] => (h, b)
  | p :: rest => let '(h1, b1) := Buffer_Write h b p in Buffer_WriteAll h1 b1 rest
  end.

(** *** The world outside the process: memory, file system, environment

    The file system is the set of the paths that exist, each under its
    Clean name (no symbolic links, one name per file); a relative name is
    relative to the working directory. Files and directories are not told
    apart: what that difference decides is the environment's to decide. *)
Record world : Type := World {
  w_heap : heap;
  w_fs : gset string;          (* the paths that exist *)
  w_environ : list string      (* os.Environ() of this process *)
}.

Definition set_heap (σ : world) (h : heap) : world :=
  World h (w_fs σ) (w_environ σ).
Definition set_fs (σ : world) (f : gset string) : world :=
  World (w_heap σ) f (w_environ σ).

(** The root, the working directory and the directories above it are
    always there. *)
Definition always_there (p : string) : Prop :=
  p = "/" ∨ p = "." ∨ Forall (λ e, e = "..") (path_elements p).

Global Instance always_there_dec p : Decision (always_there p).
Proof. unfold always_there. apply _. Defined.

(** The path names something that exists ([os.Stat] finds it). *)
Definition path_exists (σ : world) (name : string) : Prop :=
  name ≠ "" ∧ has_nul name = false ∧
  (Clean name ∈ w_fs σ ∨ always_there (Clean name)).

Global Instance path_exists_dec σ name : Decision (path_exists σ name).
Proof. unfold path_exists. apply _. Defined.

(** How [mkdir] on a name ends. [fault] is a cause of the environment's
    choosing (permissions, a parent that is a file, a full disk); without
    one the name must be new and the directory it is to be made in must
    exist. *)
Inductive mkdir_result : Type :=
  | MkOk
  | MkExist
  | MkNotExist
  | MkInvalid
  | MkFault (cause : string).

Definition mkdir_check (name : string) (fault : option string) (σ : world)
  : mkdir_result :=
  if has_nul name then MkInvalid
  else if decide (name = "") then MkNotExist
  else match fault with
       | Some cause => MkFault cause
       | None =>
           if decide (path_exists σ name) then MkExist
           else if decide (path_exists σ (filepath_Dir (Clean name))) then MkOk
           else MkNotExist
       end.

(** [os.Mkdir(dir, perm)]: the world with the directory, or the message of
    the error. *)
Definition os_Mkdir (dir : string) (fault : option string) (σ : world)
  : world + string :=
  match mkdir_check dir fault σ with
  | MkOk => inl (set_fs σ ({[ Clean dir ]} ∪ w_fs σ))
  | MkExist => inr ("mkdir " +:+ dir +:+ ": file exists")
  | MkNotExist => inr ("mkdir " +:+ dir +:+ ": no such file or directory")
  | MkInvalid => inr ("mkdir " +:+ dir +:+ ": invalid argument")
  | MkFault cause => inr cause
  end.

(** [p] is [dir] or lies below it, for Clean names. *)
Definition under (dir p : string) : Prop :=
  p = dir ∨
  String.prefix (if decide (dir = "/") then dir else dir +:+ "/") p = true.

Global Instance under_dec dir p : Decision (under dir p).
Proof. unfold under. apply _. Defined.

(** What the environment decides about an [os.RemoveAll] that fails: the
    cause it reports and the paths it cannot remove. *)
Record stuck : Type := mkstuck {
  rm_cause : string;
  rm_left : list string
}.

(** [p] stays: a path that cannot be removed is [p] or lies below it. *)
Definition stays (dir : string) (left : list string) (fs : gset string)
    (p : string) : Prop :=
  Exists (λ k, k ∈ fs ∧ under dir k ∧ under p k) left.

Global Instance stays_dec dir left fs p : Decision (stays dir left fs p).
Proof. unfold stays. apply _. Defined.

(** [os.RemoveAll(path)]: the path and everything below it are gone, and
    the result is nil; or the removal fails ([fault]), the paths that cannot
    be removed stay with the directories that lead to them, and the result
    is the cause. The empty path is nil at once, and a path that ends in
    [.] is refused. *)
Definition os_RemoveAll (path : string) (fault : option stuck) (σ : world)
  : world * option string :=
  if decide (path = "") then (σ, None)
  else if endsWithDot path then
    (σ, Some ("RemoveAll " +:+ path +:+ ": invalid argument"))
  else if has_nul path then
    (σ, Some ("unlinkat " +:+ path +:+ ": invalid argument"))
  else
    match fault with
    | None =>
        (set_fs σ (filter (λ p, ¬ under (Clean path) p) (w_fs σ)), None)
    | Some f =>
        (set_fs σ (filter (λ p, ¬ under (Clean path) p ∨
                                stays (Clean path) (rm_left f) (w_fs σ) p)
                          (w_fs σ)),
         Some (rm_cause f))
    end.

(** *** Environment lists

    An environment is a list of [KEY=value] strings; the value of a key is
    the one of the last entry with that key. *)
Fixpoint strip_prefix (p s : string) : option string :=
  match p, s with
  | EmptyString, _ => Some s
  | String a p', String b s' => if decide (a = b) then strip_prefix p' s' else None
  | String _ _, EmptyString => None
  end.

Fixpoint lookup_env (key : string) (env : list string) : option string :=
  match env with
  | [] => None
  | kv :: rest =>
      match lookup_env key rest with
      | Some v => Some v
      | None => strip_prefix (key +:+ "=") kv
      end
  end.

(** [os.Getenv(key)] *)
Definition os_Getenv (key : string) (σ : world) : string :=
  default "" (lookup_env key (w_environ σ)).

(** [os.TempDir()] *)
Definition os_TempDir (σ : world) : string :=
  let dir := os_Getenv "TMPDIR" σ in
  if decide (dir = "") then "/tmp" else dir.

Fixpoint has_sep (s : string) : bool :=
  match s with
  | EmptyString => false
  | String a rest => is_sep a || has_sep rest
  end.

Fixpoint split_last_star (s : string) : option (string * string) :=
  match s with
  | EmptyString => None
  | String a rest =>
      match split_last_star rest with
      | Some (p, q) => Some (String a p, q)
      | None => if decide (a = "*"%char) then Some (EmptyString, rest) else None
      end
  end.

(** [prefixAndSuffix(pattern)] of package os: the pattern is split at its
    last [*]; a pattern with a separator is an error. *)
Definition prefixAndSuffix (pattern : string) : option (string * string) :=
  if has_sep pattern then None
  else Some (default (pattern, "") (split_last_star pattern)).

(** [nextRandom()]: a uint32 in decimal; [r] is the number drawn. *)
Definition nextRandom (r : N) : string := pretty (r mod 2 ^ 32)%N.

(** The loop of [os.MkdirTemp]: a name that exists is tried again with the
    next number drawn, [tries] times at most; [try] counts the numbers drawn
    so far. *)
Fixpoint MkdirTemp_loop (tries try : nat) (dir prefix suffix : string)
    (rnd : nat → N) (fault : option string) (σ : world)
  : (world * string) + string :=
  match tries with
  | O => inr ("mkdirtemp " +:+ dir +:+ "/" +:+ prefix +:+ "*" +:+ suffix +:+
              ": file already exists")
  | S tries' =>
      let name := prefix +:+ nextRandom (rnd try) +:+ suffix in
      let made := match os_Mkdir name fault σ with
                  | inl σ' => inl (σ', name)
                  | inr cause => inr cause
                  end in
      match mkdir_check name fault σ with
      | MkExist => MkdirTemp_loop tries' (S try) dir prefix suffix rnd fault σ
      | MkNotExist =>
          if decide (path_exists σ dir) then made
          else inr ("stat " +:+ dir +:+ ": no such file or directory")
      | _ => made
      end
  end.

(** [os.MkdirTemp(dir, pattern)]: a new directory in [dir] (in the default
    directory for temporary files when [dir] is empty) whose name is the
    pattern with a random number in the place of its last [*], or at its end;
    [rnd] gives the numbers drawn. *)
Definition os_MkdirTemp (dir pattern : string) (rnd : nat → N)
    (fault : option string) (σ : world) : (world * string) + string :=
  let dir := if decide (dir = "") then os_TempDir σ else dir in
  match prefixAndSuffix pattern with
  | None => inr ("mkdirtemp " +:+ pattern +:+ ": pattern contains path separator")
  | Some (prefix, suffix) =>
      MkdirTemp_loop (Z.to_nat 10000) 0 dir (joinPath dir prefix) suffix rnd fault σ
  end.

(** [strings.Index(s, "=")] *)
Fixpoint index_eq (s : string) : option nat :=
  match s with
  | EmptyString => None
  | String a rest =>
      if decide (a = "="%char) then Some 0%nat else S <$> index_eq rest
  end.

(** The key of an entry as os/exec reads it: the text before the first
    [=], where a [=] at the very start belongs to the key; [None] for an
    entry without [=]. *)
Definition env_key (kv : string) : option string :=
  match index_eq kv with
  | None => None
  | Some 0%nat =>
      match kv with
      | String _ rest =>
          match index_eq rest with
          | Some j => Some (substring 0 (j + 1) kv)
          | None => Some ""
          end
      | EmptyString => None
      end
  | Some i => Some (substring 0 i kv)
  end.

(** The loop of [dedupEnv] of os/exec: from the last entry to the first,
    an entry with a NUL byte or with a key seen already is dropped, as is an
    empty entry; [saw] holds the keys seen. The result is in the order of
    the loop, the last entry first. *)
Fixpoint dedup_back (env : list string) (saw : list string) : list string :=
  match env with
  | [] => []
  | kv :: rest =>
      if has_nul kv then dedup_back rest saw
      else match env_key kv with
           | None => if decide (kv = "") then dedup_back rest saw
                     else kv :: dedup_back rest saw
           | Some k => if decide (k ∈ saw) then dedup_back rest saw
                       else kv :: dedup_back rest (k :: saw)
           end
  end.

(** [dedupEnv(env)]: of the entries with one key the last is kept, in the
    order of [env]. *)
Definition dedupEnv (env : list string) : list string :=
  reverse (dedup_back (reverse env) []).

(** *** syscall.WaitStatus, as os.ProcessState.Sys() gives it *)
Inductive WaitStatus : Type :=
  | Exited (code : Z)
  | Killed (sig : Z).

Definition Signaled (st : WaitStatus) : bool :=
  match st with Killed _ => true | Exited _ => false end.
Definition Signal (st : WaitStatus) : Z :=
  match st with Killed sg => sg | Exited _ => -1 end.
Definition ExitStatus (st : WaitStatus) : Z :=
  match st with Exited c => c | Killed _ => -1 end.

(** [syscall.Signal.String()]: the table of package syscall on Linux. *)
Definition signals : list string :=
  [ ""; "hangup"; "interrupt"; "quit"; "illegal instruction";
    "trace/breakpoint trap"; "aborted"; "bus error";
    "floating point exception"; "killed"; "user defined signal 1";
    "segmentation fault"; "user defined signal 2"; "broken pipe";
    "alarm clock"; "terminated"; "stack fault"; "child exited"; "continued";
    "stopped (signal)"; "stopped"; "stopped (tty input)";
    "stopped (tty output)"; "urgent I/O condition";
    "CPU time limit exceeded"; "file size limit exceeded";
    "virtual timer expired"; "profiling timer expired"; "window changed";
    "I/O possible"; "power failure"; "bad system call" ].

Definition Signal_String (sg : Z) : string :=
  let unknown := "signal " +:+ FormatInt sg in
  if decide (0 ≤ sg) then
    match signals !! Z.to_nat sg with
    | Some name => if decide (name = "") then unknown else name
    | None => unknown
    end
  else unknown.

(** [strconv.Quote], which the verb [%q] applies to a string: the text in
    double quotes. The text is read rune by rune as UTF-8; a byte that does
    not start a valid encoding is written [\xhh]; the quote and the backslash
    are escaped; a printable rune is kept; the other runes are written as
    their escapes. [IsPrint] is that of package strconv up to U+00FF, where
    it is a comparison; above, it consults the Unicode tables of the package,
    and the runes there are taken as printable. *)
Definition dquote : ascii := ascii_of_nat 34.

Definition code (a : ascii) : Z := Z.of_nat (nat_of_ascii a).

Definition hex_digit (n : Z) : ascii :=
  default "0"%char (list_ascii_of_string "0123456789abcdef" !! Z.to_nat (n mod 16)).

Fixpoint hex (digits : nat) (n : Z) : string :=
  match digits with
  | O => ""
  | S d => hex d (n / 16) +:+ String (hex_digit n) ""
  end.

Definition RuneError : Z := 65533.

Definition between (lo hi : Z) (a : ascii) : bool :=
  bool_decide (lo ≤ code a ≤ hi).

(** [utf8.DecodeRuneInString] on [String a0 rest]: the rune and the number
    of bytes of its encoding, or [(RuneError, 1)]. *)
Definition DecodeRune (a0 : ascii) (rest : string) : Z * nat :=
  let b0 := code a0 in
  if decide (b0 < 128) then (b0, 1%nat)
  else if decide (194 ≤ b0 ≤ 223) then
    match rest with
    | String a1 _ =>
        if between 128 191 a1 then ((b0 - 192) * 64 + (code a1 - 128), 2%nat)
        else (RuneError, 1%nat)
    | _ => (RuneError, 1%nat)
    end
  else if decide (224 ≤ b0 ≤ 239) then
    let lo := if decide (b0 = 224) then 160 else 128 in
    let hi := if decide (b0 = 237) then 159 else 191 in
    match rest with
    | String a1 (String a2 _) =>
        if between lo hi a1 && between 128 191 a2 then
          (((b0 - 224) * 64 + (code a1 - 128)) * 64 + (code a2 - 128), 3%nat)
        else (RuneError, 1%nat)
    | _ => (RuneError, 1%nat)
    end
  else if decide (240 ≤ b0 ≤ 244) then
    let lo := if decide (b0 = 240) then 144 else 128 in
    let hi := if decide (b0 = 244) then 143 else 191 in
    match rest with
    | String a1 (String a2 (String a3 _)) =>
        if between lo hi a1 && between 128 191 a2 && between 128 191 a3 then
          ((((b0 - 240) * 64 + (code a1 - 128)) * 64 + (code a2 - 128)) * 64
           + (code a3 - 128), 4%nat)
        else (RuneError, 1%nat)
    | _ => (RuneError, 1%nat)
    end
  else (RuneError, 1%nat).

Definition IsPrint (r : Z) : bool :=
  if decide (r ≤ 255) then
    bool_decide (32 ≤ r ≤ 126) || (bool_decide (161 ≤ r ≤ 255) && bool_decide (r ≠ 173))
  else true.

(** [appendEscapedRune] with the double quote as the quote; [enc] is the
    encoding of [r]. *)
Definition escape_rune (r : Z) (enc : string) : string :=
  if decide (r = 34 ∨ r = 92) then String "\" enc
  else if IsPrint r then enc
  else if decide (r = 7) then "\a"
  else if decide (r = 8) then "\b"
  else if decide (r = 12) then "\f"
  else if decide (r = 10) then "\n"
  else if decide (r = 13) then "\r"
  else if decide (r = 9) then "\t"
  else if decide (r = 11) then "\v"
  else if decide (r < 32 ∨ r = 127) then "\x" +:+ hex 2 r
  else if decide (r < 65536) then "\u" +:+ hex 4 r
  else "\U" +:+ hex 8 r.

(** The loop of [appendQuotedWith]; [skip] is the number of bytes still to
    pass over, those of the rune read last. *)
Fixpoint escape (skip : nat) (s : string) : string :=
  match s with
  | EmptyString => ""
  | String a rest =>
      match skip with
      | S k => escape k rest
      | O =>
          let '(r, width) := DecodeRune a rest in
          (if decide (width = 1%nat ∧ r = RuneError) then "\x" +:+ hex 2 (code a)
           else escape_rune r (String a (substring 0 (width - 1) rest)))
          +:+ escape (width - 1) rest
      end
  end.

Definition Quote (s : string) : string :=
  String dquote (escape 0 s +:+ String dquote "").

(** *** The [error] interface

    The dynamic types an error value has in this program: os/exec's
    [*exec.ExitError] with its process state, the program's own [*runError],
    and every other error (from os.Mkdir, from starting the process), which
    the program only prints, kept as its message. [None] is [nil]. *)
Inductive error : Type :=
  | ExitError (state : WaitStatus)
  | runError (state : WaitStatus) (output : slice)
  | plainError (msg : string).

(** *** os/exec

    What the environment decides about one child process: it cannot be
    started ([StartFails], with the cause: no such program, a fork that
    fails, a context that is done already, an environment entry with a NUL
    byte), or it runs, writes [chunks] to its standard output and standard
    error (both are the same pipe here, so the chunks arrive in one order),
    changes the file system, and ends with a wait status; a child killed on
    cancellation ends with [Killed 9]. *)
Record changes : Type := mkchanges {
  creates : list string;       (* the paths the child makes *)
  removes : list string        (* the paths the child removes *)
}.

Definition no_changes : changes := mkchanges [] [].

Definition apply_changes (f : changes) (fs : gset string) : gset string :=
  (list_to_set (creates f) ∪ fs) ∖ list_to_set (removes f).

Inductive behaviour : Type :=
  | StartFails (cause : string)
  | Runs (chunks : list (list byte)) (files : changes) (st : WaitStatus).

(** [exec.Cmd]: the fields the program sets. [Stdout] and [Stderr] both
    point to the worker's buffer. *)
Record Cmd : Type := mkCmd {
  Args : list string;
  Env : option (list string);
  Stdout : Buffer
}.

(** [cmd.Environ()]: the environment the command would run in, which is
    also the one [Start] gives the child: [Env], or with [Env] unset this
    process's environment, with duplicate keys removed. *)
Definition Cmd_Environ (c : Cmd) (σ : world) : list string :=
  dedupEnv (default (w_environ σ) (Env c)).

(** [cmd.Run()]: [nil] when the child ran and exited with status 0, an
    [*ExitError] when it ran and ended otherwise, and the cause when it
    could not be started. The child's output is appended to the buffer. *)
Definition Cmd_Run (c : Cmd) (b : behaviour) (σ : world)
  : world * Buffer * option error :=
  match b with
  | StartFails cause => (σ, Stdout c, Some (plainError cause))
  | Runs chunks files st =>
      let '(h, out) := Buffer_WriteAll (w_heap σ) (Stdout c) chunks in
      let σ' := World h (apply_changes files (w_fs σ)) (w_environ σ) in
      (σ', out, if decide (ExitStatus st = 0) then None else Some (ExitError st))
  end.

End Go.

Export Go.

(* ------------------------------------------------------------------ *)
(** ** flake.go: the worker *)
(* ------------------------------------------------------------------ *)

Record worker : Type := mkworker {
  cmd : list string;
  tmpdir : string;       (* use if nonempty *)
  outBuf : Buffer
}.

(** [(re *runError) Error()] *)
Definition Error (state : WaitStatus) : string :=
  if Signaled state then "got signal " +:+ Quote (Signal_String (Signal state))
  else "status " +:+ FormatInt (ExitStatus state).

(** What an invocation does that the outside can see, in order. *)
Inductive event : Type :=
  | EvMkdir (dir : string) (ok : bool)
  | EvRun (argv : list string) (env : list string)
  | EvRemoveAll (dir : string).

(** What the environment decides about one invocation. *)
Record oracle : Type := mkoracle {
  mkdir_fault : option string;
  child : behaviour;
  rm_fault : option stuck
}.

(** [commandContext(ctx, w.cmd[0], w.cmd[1:]...)] with the two assignments
    of [cmd.Stdout] and [cmd.Stderr]. *)
Definition commandContext (argv : list string) (b : Buffer) : Cmd :=
  mkCmd argv None b.

(** The part of [(w *worker) run] from [cmd.Run()] on. *)
Definition run_cmd (w : worker) (c : Cmd) (o : oracle) (σ : world)
  : world * worker * option error * list event :=
  let '(σ1, b1, err) := Cmd_Run c (child o) σ in
  let w1 := mkworker (cmd w) (tmpdir w) b1 in
  let ev := [EvRun (Args c) (Cmd_Environ c σ)] in
  match err with
  | Some (ExitError state) =>
      let '(h2, output) := slices_Clone (w_heap σ1) (Buffer_Bytes b1) in
      (set_heap σ1 h2, w1, Some (runError state output), ev)
  | _ => (σ1, w1, err, ev)
  end.

(** [(w *worker) run(ctx, id)]. The deferred [os.RemoveAll] runs when the
    function returns, whatever it returns; its own result is dropped. *)
Definition run (w : worker) (id : Z) (o : oracle) (σ : world)
  : world * worker * option error * list event :=
  let c := commandContext (cmd w) (Buffer_Reset (outBuf w)) in
  if decide (tmpdir w ≠ "") then
    let dir := filepath_Join (tmpdir w) (FormatInt id) in
    match os_Mkdir dir (mkdir_fault o) σ with
    | inr cause =>
        (σ, mkworker (cmd w) (tmpdir w) (Stdout c), Some (plainError cause),
         [EvMkdir dir false])
    | inl σ1 =>
        let c' := mkCmd (Args c)
                    (Some (Cmd_Environ c σ1 ++ ["FLAKEDIR=" +:+ dir])) (Stdout c) in
        let '(σ2, w2, err, evs) := run_cmd w c' o σ1 in
        ((os_RemoveAll dir (rm_fault o) σ2).1, w2, err,
         EvMkdir dir true :: evs ++ [EvRemoveAll dir])
    end
  else run_cmd w c o σ.

(* ------------------------------------------------------------------ *)
(** ** flake.go: main, its goroutines and what it prints *)
(* ------------------------------------------------------------------ *)

(** The parsed command line: [-p], [-tmpdir] and [flag.Args()]. *)
Record config : Type := mkconfig {
  parallelism : Z;
  tmpdir_flag : string;
  args : list string
}.

(** Where a worker goroutine stands in its loop. *)
Inductive wpc : Type :=
  | WTop                          (* at the first select *)
  | WClaim                        (* before atomic.AddInt64 *)
  | WRun (id : Z)                 (* in w.run(ctx, id) *)
  | WSend (err : option error)    (* at the second select *)
  | WDone.                        (* returned; wg.Done() ran *)

(** Where main stands. *)
Inductive cpc : Type :=
  | CLoop                         (* in the select of sigLoop *)
  | CBreak                        (* left sigLoop, before cancel() *)
  | CWait                         (* in wg.Wait() *)
  | CReport                       (* after wg.Wait() *)
  | CExit (code : Z).             (* the process has exited *)

Record state : Type := mkstate {
  ctx_done : bool;                (* ctx.Done() is closed *)
  id : Z;                         (* var id int64 *)
  workers : list (wpc * worker);  (* one entry per goroutine *)
  n : Z;                          (* var n int64 *)
  err : option error;             (* var err error *)
  coord : cpc;
  root : string;                  (* the run's directory, or empty *)
  σ : world
}.

(** What the environment decides when main reports and leaves: the time
    the report reads, and how the deferred removal of the run's directory
    goes. *)
Record finish : Type := mkfinish {
  elapsed : Z;
  cleanup : option stuck
}.

(** One step of one goroutine, or of main. What the environment decides
    (how the child behaves, the elapsed time a print reads) is in the label. *)
Inductive label : Type :=
  | LCheck (i : nat)              (* worker i: first select *)
  | LClaim (i : nat)              (* worker i: atomic.AddInt64(&id, 1) *)
  | LRun (i : nat) (o : oracle)   (* worker i: w.run returns *)
  | LSend (i : nat)               (* worker i sends, main receives *)
  | LAbandon (i : nat)            (* worker i: second select, ctx.Done() *)
  | LTick (elapsed : Z)           (* main: ticker case *)
  | LSignal                       (* main: SIGINT or SIGTERM arrived *)
  | LCancel                       (* main: cancel() *)
  | LJoin                         (* main: wg.Wait() returns *)
  | LReport (f : finish).         (* main: report and leave *)

Definition actor (l : label) : option nat :=
  match l with
  | LCheck i | LClaim i | LRun i _ | LSend i | LAbandon i => Some i
  | _ => None
  end.

Definition pc_of (s : state) (i : nat) : option wpc := fst <$> workers s !! i.

Definition set_worker (s : state) (i : nat) (pc : wpc) (w : worker) : state :=
  mkstate (ctx_done s) (id s) (<[i := (pc, w)]> (workers s)) (n s) (err s)
          (coord s) (root s) (σ s).

Definition set_coord (s : state) (c : cpc) : state :=
  mkstate (ctx_done s) (id s) (workers s) (n s) (err s) c (root s) (σ s).

Definition all_done (s : state) : bool :=
  forallb (λ pw, match fst pw with WDone => true | _ => false end) (workers s).

Definition exec (s : state) (l : label) : option state :=
  match l with
  | LCheck i =>
      '(pc, w) ← workers s !! i;
      match pc with
      | WTop => Some (set_worker s i (if ctx_done s then WDone else WClaim) w)
      | _ => None
      end
  | LClaim i =>
      '(pc, w) ← workers s !! i;
      match pc with
      | WClaim =>
          let id' := AddInt64 (id s) 1 in
          Some (mkstate (ctx_done s) id' (<[i := (WRun id', w)]> (workers s))
                        (n s) (err s) (coord s) (root s) (σ s))
      | _ => None
      end
  | LRun i o =>
      '(pc, w) ← workers s !! i;
      match pc with
      | WRun id0 =>
          let '(σ', w', e, _) := run w id0 o (σ s) in
          Some (mkstate (ctx_done s) (id s) (<[i := (WSend e, w')]> (workers s))
                        (n s) (err s) (coord s) (root s) σ')
      | _ => None
      end
  | LSend i =>
      '(pc, w) ← workers s !! i;
      match pc, coord s with
      | WSend e, CLoop =>
          let ws := <[i := (match e with Some _ => WDone | None => WTop end, w)]>
                      (workers s) in
          Some (match e with
                | Some _ => mkstate (ctx_done s) (id s) ws (n s) e CBreak
                                    (root s) (σ s)
                | None => mkstate (ctx_done s) (id s) ws (wrap64 (n s + 1)) e CLoop
                                  (root s) (σ s)
                end)
      | _, _ => None
      end
  | LAbandon i =>
      '(pc, w) ← workers s !! i;
      match pc with
      | WSend _ => if ctx_done s then Some (set_worker s i WDone w) else None
      | _ => None
      end
  | LTick _ =>
      match coord s with CLoop => Some s | _ => None end
  | LSignal =>
      match coord s with CLoop => Some (set_coord s CBreak) | _ => None end
  | LCancel =>
      match coord s with
      | CBreak => Some (mkstate true (id s) (workers s) (n s) (err s) CWait
                                (root s) (σ s))
      | _ => None
      end
  | LJoin =>
      match coord s with
      | CWait => if all_done s then Some (set_coord s CReport) else None
      | _ => None
      end
  | LReport f =>
      match coord s with
      | CReport =>
          (* both branches print and return from main: the status is 0;
             the deferred os.RemoveAll of the run's directory runs on the way
             out, and its result is dropped *)
          let code := match err s with None => 0 | Some _ => 0 end in
          let σ' := if decide (root s ≠ "")
                    then (os_RemoveAll (root s) (cleanup f) (σ s)).1
                    else σ s in
          Some (mkstate (ctx_done s) (id s) (workers s) (n s) (err s)
                        (CExit code) (root s) σ')
      | _ => None
      end
  end.

Fixpoint exec_trace (s : state) (tr : list label) : option state :=
  match tr with
  | [] => Some s
  | l :: rest => s' ← exec s l; exec_trace s' rest
  end.

(** The state when the goroutines have been started. *)
Definition init_state (c : config) (dir : string) (σ0 : world) : state :=
  mkstate false 0
          (replicate (Z.to_nat (parallelism c)) (WTop, mkworker (args c) dir zero_Buffer))
          0 None CLoop dir σ0.

(** What the environment decides before the goroutines start. *)
Record startup : Type := mkstartup {
  rnd : nat → N;               (* the random numbers os.MkdirTemp draws *)
  temp_fault : option string
}.

(** [main] up to the start of the goroutines: an exit status
    ([log.Fatalln] leaves with 1, the usage path with 2) or the state in
    which the goroutines start. *)
Definition main_start (c : config) (su : startup) (σ0 : world) : Z + state :=
  if decide (parallelism c < 1) then inl 1
  else if decide (length (args c) < 1)%nat then inl 2
  else if decide (tmpdir_flag c ≠ "") then
    match os_MkdirTemp (tmpdir_flag c) "flake-" (rnd su) (temp_fault su) σ0 with
    | inr _ => inl 1
    | inl (σ1, dir) => inr (init_state c dir σ1)
    end
  else inr (init_state c "" σ0).

(** The exit status of a whole run of [main], when the run ends. *)
Definition main_exit (c : config) (su : startup) (σ0 : world) (tr : list label)
  : option Z :=
  match main_start c su σ0 with
  | inl code => Some code
  | inr s0 =>
      s ← exec_trace s0 tr;
      match coord s with CExit code => Some code | _ => None end
  end.

(** The sequence ids claimed along a trace, in the order of claiming. *)
Fixpoint claimed (s : state) (tr : list label) : list Z :=
  match tr with
  | [] => []
  | l :: rest =>
      match exec s l with
      | Some s' =>
          match l with
          | LClaim _ => id s' :: claimed s' rest
          | _ => claimed s' rest
          end
      | None => []
      end
  end.

(** The scratch directory of the invocation with sequence id [i]. *)
Definition scratch_dir (dir : string) (i : Z) : string :=
  filepath_Join dir (FormatInt i).

Section Printing.
(** [time.Duration.String], of package time. *)
Variable Duration_String : Z → string.

(** The closure [avg] of [main]; [elapsed] is [time.Since(start)]. *)
Definition avg (parallelism elapsed n : Z) : string :=
  if decide (n = 0) then ""
  else " (avg = " +:+
       Duration_String (int64_quo (int64_mul parallelism elapsed) n) +:+ ")".

(** The line a tick prints. *)
Definition tick_line (stdoutIsTTY : bool) (parallelism elapsed n : Z) : string :=
  if stdoutIsTTY then
    String (ascii_of_nat 13)
           (FormatInt n +:+ " iterations" +:+ avg parallelism elapsed n +:+ "...")
  else
    FormatInt n +:+ " iterations" +:+ avg parallelism elapsed n +:+ "..." +:+
    String (ascii_of_nat 10) "".

(** [err.Error()] *)
Definition error_message (e : error) : string :=
  match e with
  | runError st _ => Error st
  | ExitError st =>
      if Signaled st then "signal: " +:+ Signal_String (Signal st)
      else "exit status " +:+ FormatInt (ExitStatus st)
  | plainError msg => msg
  end.

(** The log lines of the report, one string per [log.Printf]. *)
Definition report (s : state) (c : config) (elapsed : Z) : list string :=
  match err s with
  | None =>
      ["Quit after " +:+ FormatInt (n s) +:+ " iteration(s)" +:+
       avg (parallelism c) elapsed (n s)]
  | Some e =>
      ("Failed after " +:+ FormatInt (n s) +:+ " successful iteration(s):") ::
      match e with
      | runError st output =>
          ["Command failed: " +:+ Error st +:+ ":" +:+ String (ascii_of_nat 10) "" +:+
           string_of_list_byte (slice_read (w_heap (σ s)) output)]
      | _ =>
          ["Error running [" +:+ String.concat " " (map Quote (args c)) +:+ "]: " +:+
           error_message e]
      end
  end.
End Printing.

(* ------------------------------------------------------------------ *)
(** ** Predicates of the statements below *)
(* ------------------------------------------------------------------ *)

(** A text of the characters of a decimal number and nothing else. *)
Definition numeric (a : ascii) : bool :=
  bool_decide (a ∈ list_ascii_of_string "-0123456789").

Fixpoint only (P : ascii → bool) (s : string) : bool :=
  match s with
  | EmptyString => true
  | String a rest => P a && only P rest
  end.

(** A path element that [Clean] keeps as it is: a name without separator
    that is neither empty nor [.] nor [..]. *)
Definition ordinary (e : string) : Prop :=
  has_sep e = false ∧ e ≠ "" ∧ e ≠ "." ∧ e ≠ "..".

(** An environment that os/exec passes on as it is: no entry is empty or
    holds a NUL byte, and no key comes twice. *)
Definition tidy (env : list string) : Prop :=
  Forall (λ kv, has_nul kv = false ∧ kv ≠ "") env ∧ NoDup (omap env_key env).

(** The entry has none of the keys [saw]. *)
Definition unseen (saw : list string) (kv : string) : Prop :=
  Forall (λ k, env_key kv ≠ Some k) saw.

Global Instance unseen_dec saw kv : Decision (unseen saw kv).
Proof. unfold unseen. apply _. Defined.

(** A buffer is well formed in a heap: its length is within its capacity,
    and unless the capacity is 0 its array is allocated with that size. *)
Definition buf_ok (h : heap) (b : Buffer) : Prop :=
  (s_len (buf b) ≤ s_cap (buf b))%nat ∧
  (s_cap (buf b) = 0%nat ∨ length <$> h !! s_arr (buf b) = Some (s_cap (buf b))).

(** A slice is empty or lies in an allocated array. *)
Definition live (h : heap) (s : slice) : Prop :=
  s_len s = 0%nat ∨ (s_arr s < length h)%nat.

(** A slice shares no byte with a buffer: nothing written through the
    buffer can show through the slice. *)
Definition apart (s : slice) (b : Buffer) : Prop :=
  s_len s = 0%nat ∨ s_cap (buf b) = 0%nat ∨ s_arr s ≠ s_arr (buf b).

(** The bytes a child wrote to its standard output and standard error. *)
Definition written (b : behaviour) : list byte :=
  match b with
  | Runs chunks _ _ => concat chunks
  | StartFails _ => []
  end.

(** The file system a child leaves, from the one it was started in. *)
Definition child_fs (b : behaviour) (fs : gset string) : gset string :=
  match b with
  | Runs _ files _ => apply_changes files fs
  | StartFails _ => fs
  end.

(** Invocations of one worker, one after the other. *)
Fixpoint runs (w : worker) (σ0 : world) (ios : list (Z * oracle)) : world * worker :=
  match ios with
  | [] => (σ0, w)
  | (i, o) :: rest => let '(σ1, w1, _, _) := run w i o σ0 in runs w1 σ1 rest
  end.

(** The step of [run] that creates the scratch directory, when one is
    configured. *)
Definition mkdir_step (w : worker) (i : Z) (o : oracle) (σ0 : world) : world + string :=
  if decide (tmpdir w ≠ "") then
    os_Mkdir (scratch_dir (tmpdir w) i) (mkdir_fault o) σ0
  else inl σ0.

(** [cancel()] has been called. *)
Definition cancelled (c : cpc) : bool :=
  match c with CWait | CReport | CExit _ => true | CLoop | CBreak => false end.

(** The context is done exactly from [cancel()] on, and [err] is nil while
    main is in its loop. *)
Definition coord_inv (s : state) : Prop :=
  ctx_done s = cancelled (coord s) ∧ (coord s = CLoop → err s = None).


(** The ids of the invocations in flight are positive, at most the counter,
    and differ from worker to worker. *)
Definition ids_inv (s : state) : Prop :=
  (∀ i a, pc_of s i = Some (WRun a) → 1 ≤ a ≤ id s) ∧
  (∀ i j a b, i ≠ j → pc_of s i = Some (WRun a) → pc_of s j = Some (WRun b) → a ≠ b).

(** Every worker runs the command of the command line under the run's
    directory. *)
Definition workers_cfg (c : config) (s : state) : Prop :=
  ∀ i pc w, workers s !! i = Some (pc, w) → cmd w = args c ∧ tmpdir w = root s.

(* ------------------------------------------------------------------ *)
(** ** Sample runs *)
(* ------------------------------------------------------------------ *)

Module Sample.

Definition bytes (s : string) : list byte := list_byte_of_string s.

Definition bare : world := World [] ∅ [].

(** A process environment that already has FLAKEDIR, as inside an
    invocation of an outer flake run with [-tmpdir]; the run's directory
    [/tmp/flake-1] exists. *)
Definition nested : world :=
  World [] {[ "/tmp"; "/tmp/flake-1" ]} ["PATH=/bin"; "FLAKEDIR=/outer/flake-7/3"].

Definition exits (code : Z) : oracle :=
  mkoracle None (Runs [] no_changes (Exited code)) None.
Definition says (text : string) (code : Z) : oracle :=
  mkoracle None (Runs [bytes text] no_changes (Exited code)) None.
Definition killed : oracle := mkoracle None (Runs [] no_changes (Killed 9)) None.

(** A child that makes a directory with a file in its scratch directory
    and takes the write permission of the directory away; the removal of
    the scratch directory then fails on the file. *)
Definition locks_up : oracle :=
  mkoracle None
           (Runs [] (mkchanges ["/tmp/flake-1/4/d"; "/tmp/flake-1/4/d/f"] [])
                 (Exited 0))
           (Some (mkstuck "unlinkat /tmp/flake-1/4/d/f: permission denied"
                          ["/tmp/flake-1/4/d/f"])).

(** The report at a time, with a removal that succeeds. *)
Definition at_time (e : Z) : finish := mkfinish e None.

Definition plain (argv : list string) : worker := mkworker argv "" zero_Buffer.
Definition scratchy (argv : list string) : worker :=
  mkworker argv "/tmp/flake-1" zero_Buffer.

Definition one_lane : config := mkconfig 1 "" ["/bin/false"].
Definition two_lanes : config := mkconfig 2 "" ["./flaky.sh"].
Definition first : startup := mkstartup (λ _, 1%N) None.

(** One lane, the command fails at once. *)
Definition failing_run : list label :=
  [LCheck 0; LClaim 0; LRun 0 (exits 1); LSend 0; LCancel; LJoin;
   LReport (at_time 5)].


(** One lane, one success, then an interrupt during the second invocation. *)
Definition interrupted_run : list label :=
  [LCheck 0; LClaim 0; LRun 0 (exits 0); LSend 0; LCheck 0; LClaim 0; LSignal;
   LCancel; LRun 0 killed; LAbandon 0; LJoin; LReport (at_time 7)].

(** Two lanes: both claim, lane 0 fails first, main cancels while lane 1
    holds the outcome of a success. *)
Definition racing_run : list label :=
  [LCheck 0; LClaim 0; LCheck 1; LClaim 1; LRun 0 (exits 1); LRun 1 (exits 0);
   LSend 0; LCancel].

Definition after_race : state :=
  mkstate true 2
          [(WDone, plain ["./flaky.sh"]); (WSend None, plain ["./flaky.sh"])]
          0 (Some (runError (Exited 1) (Slice 0 0 0))) CWait "" bare.

(** Two lanes, both with an invocation in flight. *)
Definition both_claim : list label := [LCheck 0; LCheck 1; LClaim 1; LClaim 0].

Definition both_in_flight : state :=
  mkstate false 2
          [(WRun 2, plain ["./flaky.sh"]); (WRun 1, plain ["./flaky.sh"])]
          0 None CLoop "" bare.



End Sample.

(* ------------------------------------------------------------------ *)
(** ** Further notions about a whole run *)
(* ------------------------------------------------------------------ *)

(** The outcomes main received along a trace, in the order of receiving. *)
Fixpoint delivered (s : state) (tr : list label) : list (option error) :=
  match tr with
  | [] => []
  | l :: rest =>
      match exec s l with
      | Some s' =>
          match l with
          | LSend i =>
              match pc_of s i with
              | Some (WSend e) => e :: delivered s' rest
              | _ => delivered s' rest
              end
          | _ => delivered s' rest
          end
      | None => []
      end
  end.

(** The number of steps of a trace that satisfy [f]. *)
Fixpoint tally (f : label → bool) (tr : list label) : nat :=
  match tr with
  | [] => 0
  | l :: rest => (if f l then 1 else 0) + tally f rest
  end.

Definition is_claim (i : nat) (l : label) : bool :=
  match l with LClaim j => bool_decide (j = i) | _ => false end.
Definition is_run (i : nat) (l : label) : bool :=
  match l with LRun j _ => bool_decide (j = i) | _ => false end.
Definition is_publish (i : nat) (l : label) : bool :=
  match l with LSend j | LAbandon j => bool_decide (j = i) | _ => false end.

(** The steps a worker has left at most once the context is done. *)
Definition rank (pc : wpc) : nat :=
  match pc with
  | WClaim => 3
  | WRun _ => 2
  | WSend _ | WTop => 1
  | WDone => 0
  end.

(** The claims and the invocations a worker has left at most once the
    context is done. *)
Definition claims_left (pc : wpc) : nat :=
  match pc with WClaim => 1 | _ => 0 end.
Definition runs_left (pc : wpc) : nat :=
  match pc with WClaim | WRun _ => 1 | _ => 0 end.

Definition is_step (i : nat) (l : label) : bool := bool_decide (actor l = Some i).

(** 1 when the worker is inside [run], and 1 when it holds an outcome. *)
Definition in_run (pc : wpc) : nat := match pc with WRun _ => 1 | _ => 0 end.
Definition holding (pc : wpc) : nat := match pc with WSend _ => 1 | _ => 0 end.

(** The worker holds a claimed id: it is in [run] or has an outcome to
    publish. *)
Definition holds_id (pc : wpc) : bool :=
  match pc with WRun _ | WSend _ => true | _ => false end.

Fixpoint count_holding (ws : list (wpc * worker)) : Z :=
  match ws with
  | [] => 0
  | pw :: rest => (if holds_id pw.1 then 1 else 0) + count_holding rest
  end.

(** Every worker has returned. *)
Definition joined (s : state) : Prop :=
  ∀ i pc w, workers s !! i = Some (pc, w) → pc = WDone.

(** A step that ends an invocation ends one whose child exited with 0. *)
Definition child_succeeds (l : label) : Prop :=
  match l with
  | LRun _ o => ∃ chunks files, child o = Runs chunks files (Exited 0)
  | _ => True
  end.

(** No failure has been seen: [err] is nil and no worker holds an error. *)
Definition quiet (s : state) : Prop :=
  err s = None ∧ ∀ i e w, workers s !! i = Some (WSend e, w) → e = None.

(** [wg.Wait()] has returned. *)
Definition after_join (s : state) : Prop :=
  coord s = CReport ∨ ∃ k, coord s = CExit k.

(** The buffers of the workers are well formed and no two of them share a
    backing array. *)
Definition mem_inv (s : state) : Prop :=
  (∀ i pc w, workers s !! i = Some (pc, w) → buf_ok (w_heap (σ s)) (outBuf w)) ∧
  (∀ i j pi wi pj wj,
     i ≠ j → workers s !! i = Some (pi, wi) → workers s !! j = Some (pj, wj) →
     s_cap (buf (outBuf wi)) = 0%nat ∨ s_cap (buf (outBuf wj)) = 0%nat ∨
     s_arr (buf (outBuf wi)) ≠ s_arr (buf (outBuf wj))).

(** The buffer [b'] uses the array of [b], or one allocated after [h]. *)
Definition same_or_fresh (h : heap) (b b' : Buffer) : Prop :=
  (s_arr (buf b') = s_arr (buf b) ∧ s_cap (buf b') = s_cap (buf b)) ∨
  (length h ≤ s_arr (buf b'))%nat.

(** A slice that no worker's buffer can write through. *)
Definition detached (s : state) (out : slice) : Prop :=
  live (w_heap (σ s)) out ∧
  ∀ i pc w, workers s !! i = Some (pc, w) → apart out (outBuf w).

(** A schedule that ends worker [i] once the context is done, by where the
    worker stands; [o] is what the environment decides if it has to finish
    an invocation. *)
Definition wind_down (i : nat) (pc : wpc) (o : oracle) : list label :=
  match pc with
  | WTop => [LCheck i]
  | WClaim => [LClaim i; LRun i o; LAbandon i]
  | WRun _ => [LRun i o; LAbandon i]
  | WSend _ => [LAbandon i]
  | WDone => []
  end.

Fixpoint wind_down_all (i : nat) (ws : list (wpc * worker)) (o : oracle)
  : list label :=
  match ws with
  | [] => []
  | pw :: rest => wind_down i pw.1 o ++ wind_down_all (S i) rest o
  end.

(** A schedule from any state of main to the exit. *)
Definition shut_down (s : state) (o : oracle) : list label :=
  match coord s with
  | CLoop => [LSignal; LCancel] ++ wind_down_all 0 (workers s) o
              ++ [LJoin; LReport (mkfinish 0 None)]
  | CBreak => [LCancel] ++ wind_down_all 0 (workers s) o
              ++ [LJoin; LReport (mkfinish 0 None)]
  | CWait => wind_down_all 0 (workers s) o ++ [LJoin; LReport (mkfinish 0 None)]
  | CReport => [LReport (mkfinish 0 None)]
  | CExit _ => []
  end.

Module Scenario.

(** A process environment with a directory for temporary files, before
    the run's directory is made in it and after. *)
Definition fresh_tmp : world := World [] {[ "/tmp" ]} [].
Definition with_tmp : world := World [] {[ "/tmp"; "/tmp/flake-1" ]} [].

Definition scratch_lanes : config := mkconfig 2 "/tmp" ["./flaky.sh"].

(** Two lanes: lane 0 succeeds once and then fails with output, lane 1 is
    killed on cancellation; main reports. *)
Definition full_run : list label :=
  [LCheck 0; LClaim 0; LCheck 1; LClaim 1; LRun 0 (Sample.says "ok" 0); LSend 0;
   LCheck 0; LClaim 0; LRun 0 (Sample.says "crash" 3); LTick 1000; LSend 0;
   LCancel; LRun 1 Sample.killed; LAbandon 1; LJoin; LReport (Sample.at_time 2000)].

Definition crash_prefix : list label :=
  [LCheck 0; LClaim 0; LCheck 1; LClaim 1; LRun 0 (Sample.says "ok" 0); LSend 0;
   LCheck 0; LClaim 0].

Definition crash_rest : list label :=
  [LTick 1000; LSend 0; LCancel; LRun 1 Sample.killed; LAbandon 1; LJoin;
   LReport (Sample.at_time 2000)].

Definition before_crash : state :=
  Eval vm_compute in
    default (init_state scratch_lanes "/tmp/flake-1" with_tmp)
            (exec_trace (init_state scratch_lanes "/tmp/flake-1" with_tmp)
                        crash_prefix).

Definition after_crash : state :=
  Eval vm_compute in
    default before_crash (exec before_crash (LRun 0 (Sample.says "crash" 3))).

Definition full_run_end : state :=
  Eval vm_compute in
    default (init_state scratch_lanes "/tmp/flake-1" with_tmp)
            (exec_trace (init_state scratch_lanes "/tmp/flake-1" with_tmp) full_run).

(** One lane: a success, then the interrupt comes when the worker has
    passed the check of the cancellation signal; the worker claims an id and
    runs the command once more, and the child is killed. *)
Definition late_prefix : list label :=
  [LCheck 0; LClaim 0; LRun 0 (Sample.exits 0); LSend 0; LCheck 0; LSignal;
   LCancel].

Definition late_rest : list label :=
  [LClaim 0; LRun 0 Sample.killed; LAbandon 0].

Definition just_cancelled : state :=
  Eval vm_compute in
    default (init_state Sample.one_lane "" Sample.bare)
            (exec_trace (init_state Sample.one_lane "" Sample.bare) late_prefix).

Definition wound_down : state :=
  Eval vm_compute in default just_cancelled (exec_trace just_cancelled late_rest).

(** One lane, two successes, then an interrupt between two invocations. *)
Definition calm_run : list label :=
  [LCheck 0; LClaim 0; LRun 0 (Sample.exits 0); LSend 0; LCheck 0; LClaim 0;
   LRun 0 (Sample.says "fine" 0); LSend 0; LSignal; LCancel; LCheck 0; LJoin;
   LReport (Sample.at_time 9)].

Definition calm_run_end : state :=
  Eval vm_compute in
    default (init_state Sample.one_lane "" Sample.bare)
            (exec_trace (init_state Sample.one_lane "" Sample.bare) calm_run).

End Scenario.

(* ------------------------------------------------------------------ *)
(** ** flake_other.go: commandContext and the process group *)
(* ------------------------------------------------------------------ *)

Module Unix.

(** A process, by its id and the id of its process group. *)
Record process : Type := mkprocess { pid : Z; pgid : Z }.

(** [unix.Kill(target, SIGKILL)] sent by [self]; SIGKILL cannot be caught,
    so the processes addressed are gone. A positive target is one process,
    0 the group of the sender, -1 every process but init and the sender, and
    a target below -1 the group [-target]. *)
Definition Kill (self : process) (target : Z) (t : list process) : list process :=
  if decide (0 < target) then filter (λ p, pid p ≠ target) t
  else if decide (target = 0) then filter (λ p, pgid p ≠ pgid self) t
  else if decide (target = -1) then filter (λ p, pid p = 1 ∨ pid p = pid self) t
  else filter (λ p, pgid p ≠ - target) t.

(** [syscall.SysProcAttr]: the field the program sets. *)
Record SysProcAttr : Type := mkSysProcAttr { Setpgid : bool }.

(** [exec.Cmd]: the fields [commandContext] sets. [Cancel] is called with
    the child's pid ([cmd.Process.Pid]) when the context is done. *)
Record Cmd : Type := mkCmd {
  SysProcAttr_of : option SysProcAttr;
  Cancel : process → Z → list process → list process
}.

(** [exec.CommandContext]: no attributes, and [Cancel] is
    [cmd.Process.Kill]. *)
Definition CommandContext : Cmd :=
  mkCmd None (λ self child t, Kill self child t).

(** [commandContext] of the build without process groups. *)
Definition commandContext_other : Cmd := CommandContext.

(** [commandContext] of the unix build. *)
Definition commandContext_unix : Cmd :=
  mkCmd (Some (mkSysProcAttr true)) (λ self child t, Kill self (- child) t).

(** Starting the command from [parent]: the child gets the pid [p]; with
    [Setpgid] it leads a new group whose id is its pid, else it is in the
    group of its parent. *)
Definition start (c : Cmd) (parent : process) (p : Z) (t : list process)
  : list process :=
  mkprocess p (match SysProcAttr_of c with
               | Some a => if Setpgid a then p else pgid parent
               | None => pgid parent
               end) :: t.

(** A process forks: the new process is in its parent's group. *)
Definition fork (parent : process) (q : Z) (t : list process) : list process :=
  mkprocess q (pgid parent) :: t.

End Unix.

(* ------------------------------------------------------------------ *)
(** ** Paths *)
(* ------------------------------------------------------------------ *)

Lemma string_app_cons x (a b : string) : String x a +:+ b = String x (a +:+ b).
Proof. reflexivity. Qed.

Lemma string_app_assoc (a b c : string) : (a +:+ b) +:+ c = a +:+ (b +:+ c).
Proof.
  induction a as [|x a IH]; [done|]. by rewrite !string_app_cons, IH.
Qed.

Lemma string_app_nil_r (a : string) : a +:+ "" = a.
Proof. induction a as [|x a IH]; [done|]. by rewrite string_app_cons, IH. Qed.

Lemma string_app_nil_inv (a b : string) : a +:+ b = "" → a = "" ∧ b = "".
Proof. destruct a; [done|]. rewrite string_app_cons. intros [=]. Qed.

Lemma path_elements_nonempty s : path_elements s ≠ [].
Proof. destruct s as [|a s]; simpl; [done|]. by repeat case_match. Qed.

Lemma path_elements_app_sep s t :
  path_elements (s +:+ "/" +:+ t) = path_elements s ++ path_elements t.
Proof.
  induction s as [|a s IH]; [done|].
  rewrite string_app_cons. cbn [path_elements]. rewrite IH.
  destruct (is_sep a); [done|].
  destruct (path_elements s) as [|e es] eqn:E;
    [by apply path_elements_nonempty in E|done].
Qed.

Lemma path_elements_one e : has_sep e = false → path_elements e = [e].
Proof.
  induction e as [|a e IH]; [done|]. cbn [has_sep path_elements].
  intros [Ha He]%orb_false_elim. by rewrite Ha, (IH He).
Qed.

Lemma clean_step_ordinary r st e : ordinary e → clean_step r st e = e :: st.
Proof.
  intros (_ & H1 & H2 & H3). unfold clean_step.
  rewrite decide_False by (by intros [?|?]). by rewrite decide_False.
Qed.

Lemma concat_snoc sp l e :
  String.concat sp (l ++ [e])
  = match l with [] => e | _ => String.concat sp l +:+ sp +:+ e end.
Proof.
  induction l as [|x l IH]; [done|].
  destruct l as [|y l]; [done|].
  cbn [app] in *.
  change (String.concat sp (x :: y :: l ++ [e]))
    with (x +:+ sp +:+ String.concat sp (y :: l ++ [e])).
  change (String.concat sp (x :: y :: l))
    with (x +:+ sp +:+ String.concat sp (y :: l)).
  rewrite IH. by rewrite !string_app_assoc.
Qed.

(** Where an ordinary element is put last, [Clean] leaves it last: the
    result is a text that depends on the directory alone, followed by the
    element. *)
Lemma Clean_snoc path :
  path ≠ "" →
  ∃ P, ∀ e, ordinary e → Clean (path +:+ "/" +:+ e) = P +:+ e.
Proof.
  intros Hne.
  set (r := rooted path).
  set (st := reverse (fold_left (clean_step r) (path_elements path) [])).
  exists ((if r then "/" else "") +:+
          match st with [] => "" | _ => String.concat "/" st +:+ "/" end).
  intros e He. unfold Clean.
  assert (rooted (path +:+ "/" +:+ e) = r) as ->.
  { destruct path; [done|]. done. }
  rewrite path_elements_app_sep, (path_elements_one e) by apply He.
  rewrite fold_left_app. cbn [fold_left]. rewrite (clean_step_ordinary _ _ _ He).
  rewrite reverse_cons. fold st. rewrite concat_snoc.
  assert (∀ x : string, x +:+ e ≠ "") as Hnz.
  { intros x [_ Hx]%string_app_nil_inv. by destruct He as (_ & ? & _). }
  destruct st as [|x st'].
  - rewrite string_app_nil_r. rewrite decide_False by apply Hnz. done.
  - rewrite <- !string_app_assoc. rewrite decide_False by apply Hnz. done.
Qed.

Lemma Clean_ordinary e : ordinary e → Clean e = e.
Proof.
  intros He. unfold Clean.
  assert (rooted e = false) as ->.
  { destruct He as (Hs & _). destruct e as [|a e]; [done|]. simpl in *.
    by apply orb_false_elim in Hs as [-> _]. }
  rewrite (path_elements_one e) by apply He. cbn [fold_left].
  rewrite (clean_step_ordinary _ _ _ He). cbn.
  rewrite decide_False; [done|]. by destruct He as (_ & ? & _).
Qed.

Lemma filepath_Join_last dir :
  ∃ P, ∀ e, ordinary e → filepath_Join dir e = P +:+ e.
Proof.
  unfold filepath_Join. destruct (decide (dir ≠ "")) as [Hd|Hd].
  - destruct (Clean_snoc dir Hd) as [P HP]. exists P. done.
  - exists "". intros e He. rewrite decide_True by (by destruct He as (_ & ? & _)).
    by rewrite Clean_ordinary.
Qed.

Lemma is_sep_pretty_N_char x : numeric (pretty_N_char x) = true.
Proof. unfold pretty_N_char. by repeat case_match. Qed.

Lemma only_numeric_pretty_N_go x : ∀ s,
  only numeric s = true → only numeric (pretty_N_go x s) = true.
Proof.
  induction (N.lt_wf_0 x) as [x _ IH]. intros s Hs.
  destruct (decide (0 < x)%N) as [Hx|Hx].
  - rewrite pretty_N_go_step by done. apply IH.
    + by apply N.div_lt.
    + cbn [only]. by rewrite is_sep_pretty_N_char, Hs.
  - assert (x = 0%N) as -> by lia. by rewrite pretty_N_go_0.
Qed.

Lemma pretty_N_go_nonempty x : ∀ s, s ≠ "" → pretty_N_go x s ≠ "".
Proof.
  induction (N.lt_wf_0 x) as [x _ IH]. intros s Hs.
  destruct (decide (0 < x)%N) as [Hx|Hx].
  - rewrite pretty_N_go_step by done. apply IH; [by apply N.div_lt|done].
  - assert (x = 0%N) as -> by lia. by rewrite pretty_N_go_0.
Qed.

Lemma numeric_pretty_N (x : N) : only numeric (pretty x) = true ∧ pretty x ≠ "".
Proof.
  unfold pretty, pretty_N. case_decide as Hx; [done|]. split.
  - by apply only_numeric_pretty_N_go.
  - destruct (decide (0 < x)%N) as [Hp|Hp]; [|lia].
    rewrite pretty_N_go_step by done. by apply pretty_N_go_nonempty.
Qed.

Lemma numeric_FormatInt (z : Z) :
  only numeric (FormatInt z) = true ∧ FormatInt z ≠ "".
Proof.
  unfold FormatInt. destruct z as [|p|p]; [done| |].
  - apply (numeric_pretty_N (Npos p)).
  - change (pretty (Z.neg p)) with (String "-" (pretty (Npos p))).
    destruct (numeric_pretty_N (Npos p)) as [H1 H2]. split; [|done].
    cbn [only]. by rewrite H1.
Qed.

Lemma numeric_char a : numeric a = true → is_sep a = false ∧ a ≠ "."%char.
Proof.
  intros H. split.
  - apply bool_decide_eq_false. intros ->. by vm_compute in H.
  - intros ->. by vm_compute in H.
Qed.

Lemma numeric_ordinary s : only numeric s = true → s ≠ "" → ordinary s.
Proof.
  intros Hs Hne. split_and!; [|done|..].
  - clear Hne. induction s as [|a s IH]; [done|]. cbn [only has_sep] in *.
    apply andb_prop in Hs as [Ha Hs'].
    rewrite (proj1 (numeric_char _ Ha)). by apply IH.
  - intros ->. by vm_compute in Hs.
  - intros ->. by vm_compute in Hs.
Qed.

Lemma ordinary_FormatInt z : ordinary (FormatInt z).
Proof. destruct (numeric_FormatInt z). by apply numeric_ordinary. Qed.

Lemma ends_sep_dot_numeric d : only numeric d = true → ends_sep_dot d = false.
Proof.
  induction d as [|a d IH]; [done|]. cbn [only]. intros [Ha Hd]%andb_prop.
  cbn [ends_sep_dot]. destruct d as [|b d]; [done|].
  destruct d as [|c d]; [|by apply IH].
  cbn [only] in Hd. apply andb_prop in Hd as [Hb _].
  apply andb_false_intro2. apply bool_decide_eq_false. apply (numeric_char _ Hb).
Qed.

Lemma endsWithDot_numeric P d :
  only numeric d = true → d ≠ "" → endsWithDot (P +:+ d) = false.
Proof.
  intros Hd Hne. unfold endsWithDot. apply orb_false_intro.
  - apply bool_decide_eq_false. intros H.
    destruct P as [|a P]; [change (d = ".") in H; subst d; by vm_compute in Hd|].
    rewrite string_app_cons in H. injection H as _ H.
    by apply string_app_nil_inv in H as [_ ?].
  - induction P as [|a P IH]; [by apply ends_sep_dot_numeric|].
    rewrite string_app_cons. cbn [ends_sep_dot].
    destruct (P +:+ d) as [|b [|c rest]] eqn:E; [done| |done].
    destruct P as [|x P].
    + change (d = String b "") in E. subst d. cbn [only] in Hd.
      apply andb_prop in Hd as [Hb _].
      apply andb_false_intro2. apply bool_decide_eq_false.
      apply (numeric_char _ Hb).
    + rewrite string_app_cons in E. injection E as _ E.
      by apply string_app_nil_inv in E as [_ ?].
Qed.

(* ------------------------------------------------------------------ *)
(** ** Environments without duplicate keys *)
(* ------------------------------------------------------------------ *)

Lemma dedup_back_elem l : ∀ saw kv,
  kv ∈ dedup_back l saw →
  kv ∈ l ∧ has_nul kv = false ∧ kv ≠ "" ∧ unseen saw kv.
Proof.
  induction l as [|x l IH]; intros saw kv H; cbn [dedup_back] in H.
  { by apply elem_of_nil in H. }
  assert (∀ saw', kv ∈ dedup_back l saw' → unseen saw' kv →
                  (∀ k, k ∈ saw → k ∈ saw') →
                  kv ∈ x :: l ∧ has_nul kv = false ∧ kv ≠ "" ∧ unseen saw kv)
    as Hrest.
  { intros saw' Hin _ Hsub. destruct (IH _ _ Hin) as (? & ? & ? & Hu).
    split_and!; [by right|done..|].
    unfold unseen in *. rewrite Forall_forall in Hu |- *. auto. }
  destruct (has_nul x) eqn:Hn.
  { destruct (IH _ _ H) as (? & ? & ? & ?). split_and!; [by right|done..]. }
  destruct (env_key x) as [k|] eqn:Hk.
  - case_decide as Hs.
    + destruct (IH _ _ H) as (? & ? & ? & ?). split_and!; [by right|done..].
    + apply elem_of_cons in H as [->|H].
      * split_and!; [by left|done| |].
        -- intros ->. done.
        -- unfold unseen. rewrite Forall_forall. intros k' Hk'. rewrite Hk.
           intros [= ->]. done.
      * destruct (IH _ _ H) as (? & ? & ? & Hu).
        split_and!; [by right|done..|].
        unfold unseen in *. rewrite Forall_forall in Hu |- *.
        intros k' Hk'. apply Hu. by right.
  - case_decide as He.
    + destruct (IH _ _ H) as (? & ? & ? & ?). split_and!; [by right|done..].
    + apply elem_of_cons in H as [->|H].
      * split_and!; [by left|done..|].
        unfold unseen. rewrite Forall_forall. intros k' _. by rewrite Hk.
      * destruct (IH _ _ H) as (? & ? & ? & ?). split_and!; [by right|done..].
Qed.

Lemma dedup_back_NoDup l : ∀ saw, NoDup (omap env_key (dedup_back l saw)).
Proof.
  induction l as [|x l IH]; intros saw; cbn [dedup_back]; [constructor|].
  destruct (has_nul x); [done|].
  destruct (env_key x) as [k|] eqn:Hk.
  - case_decide; [done|]. cbn [omap list_omap]. rewrite Hk.
    constructor; [|done].
    intros (kv & Hin & Hkv)%list_elem_of_omap.
    destruct (dedup_back_elem _ _ _ Hin) as (_ & _ & _ & Hu).
    unfold unseen in Hu. rewrite Forall_forall in Hu.
    by apply (Hu k); [left|].
  - case_decide; [done|]. cbn [omap list_omap]. by rewrite Hk.
Qed.

Lemma filter_unseen_cons k saw (l : list string) :
  k ∉ omap env_key l →
  filter (unseen (k :: saw)) l = filter (unseen saw) l.
Proof.
  induction l as [|x l IH]; [done|]. cbn [omap list_omap]. intros Hk.
  assert ((k ∉ omap env_key l) ∧ env_key x ≠ Some k) as [Hl Hx].
  { destruct (env_key x) as [k'|]; [|by split].
    apply not_elem_of_cons in Hk as [? ?]. split; [done|congruence]. }
  assert (unseen (k :: saw) x ↔ unseen saw x) as Hiff.
  { unfold unseen. rewrite Forall_cons. tauto. }
  rewrite !filter_cons. rewrite (IH Hl).
  destruct (decide (unseen (k :: saw) x)), (decide (unseen saw x)); tauto.
Qed.

Lemma dedup_back_tidy l : ∀ saw,
  tidy l → dedup_back l saw = filter (unseen saw) l.
Proof.
  induction l as [|x l IH]; intros saw [Hf Hnd]; [done|].
  apply Forall_cons in Hf as [[Hn He] Hf]. cbn [omap list_omap] in Hnd.
  cbn [dedup_back]. rewrite Hn, filter_cons.
  destruct (env_key x) as [k|] eqn:Hk.
  - apply NoDup_cons in Hnd as [Hk' Hnd].
    case_decide as Hs.
    + rewrite decide_False.
      * by apply IH.
      * unfold unseen. rewrite Forall_forall. intros Hu. by apply (Hu k).
    + rewrite decide_True.
      * rewrite IH by done. by rewrite filter_unseen_cons.
      * unfold unseen. rewrite Forall_forall. intros k' Hk'' H.
        rewrite Hk in H. by simplify_eq.
  - rewrite (decide_False (P := x = "")) by done. rewrite decide_True.
    + by rewrite IH.
    + unfold unseen. rewrite Forall_forall. intros k' _. by rewrite Hk.
Qed.

Lemma omap_reverse {A B} (f : A → option B) l :
  omap f (reverse l) = reverse (omap f l).
Proof.
  induction l as [|x l IH]; [done|].
  rewrite reverse_cons, omap_app, IH. cbn [omap list_omap].
  destruct (f x); [by rewrite reverse_cons|by rewrite app_nil_r].
Qed.

Lemma tidy_reverse env : tidy (reverse env) ↔ tidy env.
Proof.
  unfold tidy. rewrite Forall_reverse, omap_reverse.
  by rewrite (reverse_Permutation (omap env_key env)).
Qed.

Lemma filter_unseen_nil (l : list string) : filter (unseen []) l = l.
Proof.
  induction l as [|x l IH]; [done|]. rewrite filter_cons, IH.
  rewrite decide_True; [done|]. constructor.
Qed.

Lemma dedupEnv_tidy env : tidy (dedupEnv env).
Proof.
  unfold dedupEnv. apply tidy_reverse. split.
  - rewrite Forall_forall. intros kv Hin.
    by destruct (dedup_back_elem _ _ _ Hin) as (_ & ? & ? & _).
  - apply dedup_back_NoDup.
Qed.

Lemma dedupEnv_sub env kv : kv ∈ dedupEnv env → kv ∈ env.
Proof.
  unfold dedupEnv. rewrite elem_of_reverse. intros Hin.
  destruct (dedup_back_elem _ _ _ Hin) as (H & _).
  by rewrite elem_of_reverse in H.
Qed.

Lemma dedupEnv_id env : tidy env → dedupEnv env = env.
Proof.
  intros Ht. unfold dedupEnv.
  rewrite dedup_back_tidy by (by apply tidy_reverse).
  by rewrite filter_unseen_nil, reverse_involutive.
Qed.

(** A new entry put last takes the place of the entry with its key. *)
Lemma dedupEnv_snoc env kv k :
  tidy env → has_nul kv = false → env_key kv = Some k →
  dedupEnv (env ++ [kv]) = filter (λ x, env_key x ≠ Some k) env ++ [kv].
Proof.
  intros Ht Hn Hk. unfold dedupEnv. rewrite reverse_snoc.
  cbn [dedup_back]. rewrite Hn, Hk. rewrite decide_False by (by intros ?%elem_of_nil).
  rewrite dedup_back_tidy by (by apply tidy_reverse).
  rewrite reverse_cons, filter_reverse, reverse_involutive. f_equal.
  apply list_filter_iff. intros x. unfold unseen. by rewrite Forall_singleton.
Qed.

Lemma filter_key_others k (l : list string) :
  filter (λ kv, env_key kv = Some k) (filter (λ kv, env_key kv ≠ Some k) l) = [].
Proof.
  induction l as [|x l IH]; [done|]. rewrite filter_cons.
  case_decide; [|done]. by rewrite filter_cons, decide_False.
Qed.

Lemma env_key_FLAKEDIR dir : env_key ("FLAKEDIR=" +:+ dir) = Some "FLAKEDIR".
Proof. reflexivity. Qed.

Lemma has_nul_FLAKEDIR dir : has_nul ("FLAKEDIR=" +:+ dir) = has_nul dir.
Proof. reflexivity. Qed.

(* ------------------------------------------------------------------ *)
(** ** Memory: what a write through a buffer can change *)
(* ------------------------------------------------------------------ *)

Lemma slice_read_empty h s : s_len s = 0%nat → slice_read h s = [].
Proof. unfold slice_read. intros ->. reflexivity. Qed.

Lemma store_at_length arr pos p :
  (pos + length p ≤ length arr)%nat → length (store_at arr pos p) = length arr.
Proof.
  intros H. unfold store_at.
  rewrite !length_app, length_take, length_drop. lia.
Qed.

Lemma store_at_take arr pos p :
  (pos + length p ≤ length arr)%nat →
  take (pos + length p) (store_at arr pos p) = take pos arr ++ p.
Proof.
  intros H. unfold store_at.
  rewrite app_assoc.
  rewrite take_app_length'; [done|].
  rewrite length_app, length_take. lia.
Qed.

Lemma store_at_nil arr pos : store_at arr pos [] = arr.
Proof.
  unfold store_at. simpl. rewrite Nat.add_0_r. apply take_drop.
Qed.

Lemma Buffer_Write_spec h b p h' b' :
  buf_ok h b → Buffer_Write h b p = (h', b') →
  buf_ok h' b' ∧
  slice_read h' (buf b') = slice_read h (buf b) ++ p ∧
  (length h ≤ length h')%nat ∧
  (∀ s, live h s → apart s b → slice_read h' s = slice_read h s ∧ apart s b').
Proof.
  destruct b as [[a l c]].
  unfold buf_ok, Buffer_Write, apart, live, slice_read.
  cbn [buf s_arr s_len s_cap].
  intros [Hle Hc] Hw.
  destruct (decide _) as [Hfit|Hfit]; simplify_eq; cbn [buf s_arr s_len s_cap].
  - destruct Hc as [Hc|Hc].
    + assert (length p = 0%nat) as Hp by lia.
      apply nil_length_inv in Hp. subst p.
      assert (l = 0%nat) as -> by lia.
      assert (alter (λ arr : list byte, store_at arr 0 []) a h = h) as ->.
      { apply list_alter_id. intros arr. apply store_at_nil. }
      split_and!; [simpl; lia|by left|done|done|].
      intros s _ Hs. done.
    + destruct (h !! a) as [arr|] eqn:E; simpl in Hc; simplify_eq.
      rewrite list_lookup_alter_eq, E, length_alter.
      cbn [fmap option_fmap option_map default from_option]. unfold Datatypes.id.
      split_and!; [lia| |apply store_at_take; lia|done|].
      * right. rewrite store_at_length by lia. done.
      * intros s _ Hs. split; [|done].
        destruct Hs as [Hs|[Hs|Hs]]; [by rewrite Hs| |].
        -- assert (length p = 0%nat) as Hp by lia.
           apply nil_length_inv in Hp. subst p.
           rewrite list_alter_id; [done|]. intros; apply store_at_nil.
        -- rewrite list_lookup_alter_ne by done. done.
  - assert (l + length p ≤ grow_cap (Slice a l c) (length p))%nat as Hg.
    { unfold grow_cap. cbn [s_cap s_len]. case_decide; lia. }
    assert (length (take l (default [] (h !! a))) = l) as Hrd.
    { rewrite length_take.
      destruct Hc as [Hc|Hc]; [lia|].
      destruct (h !! a) as [arr|] eqn:E; simpl in Hc; simplify_eq.
      simpl. lia. }
    set (arr' := take l (default [] (h !! a)) ++ p ++
                 replicate (grow_cap (Slice a l c) (length p) - (l + length p)) x00).
    assert ((h ++ [arr']) !! length h = Some arr') as Hnew.
    { rewrite lookup_app_r by lia. by rewrite Nat.sub_diag. }
    assert (length arr' = grow_cap (Slice a l c) (length p)) as Hlen.
    { unfold arr'. rewrite !length_app, length_replicate, Hrd. lia. }
    rewrite Hnew, length_app.
    change (default [] (Some arr')) with arr'.
    change (length <$> Some arr') with (Some (length arr')).
    split_and!; [lia|right; by rewrite Hlen| |simpl; lia|].
    * unfold arr'. rewrite app_assoc. rewrite take_app_length'; [done|].
      rewrite length_app, Hrd. done.
    * intros s Hl _. split.
      -- destruct Hl as [Hl|Hl]; [by rewrite Hl|].
         rewrite lookup_app_l by done. done.
      -- destruct Hl as [Hl|Hl]; [by left|]. right; right. lia.
Qed.

Lemma live_mono h h' s : (length h ≤ length h')%nat → live h s → live h' s.
Proof. unfold live. intros ? [?|?]; [by left|right; lia]. Qed.

Lemma Buffer_WriteAll_spec chunks : ∀ h b h' b',
  buf_ok h b → Buffer_WriteAll h b chunks = (h', b') →
  buf_ok h' b' ∧
  slice_read h' (buf b') = slice_read h (buf b) ++ concat chunks ∧
  (length h ≤ length h')%nat ∧
  (∀ s, live h s → apart s b → slice_read h' s = slice_read h s ∧ apart s b').
Proof.
  induction chunks as [|p rest IH]; intros h b h' b' Hok Hw; simpl in Hw.
  - simplify_eq. simpl. rewrite app_nil_r. done.
  - destruct (Buffer_Write h b p) as [h1 b1] eqn:E1.
    destruct (Buffer_Write_spec _ _ _ _ _ Hok E1) as (Hok1 & Hrd1 & Hlen1 & Hfr1).
    destruct (IH _ _ _ _ Hok1 Hw) as (Hok2 & Hrd2 & Hlen2 & Hfr2).
    split_and!; [apply Hok2..| | |].
    + rewrite Hrd2, Hrd1. simpl. by rewrite app_assoc.
    + lia.
    + intros s Hl Ha. destruct (Hfr1 s Hl Ha) as [Hr1 Ha1].
      destruct (Hfr2 s (live_mono _ _ _ Hlen1 Hl) Ha1) as [Hr2 Ha2].
      split; [congruence|done].
Qed.

Lemma slices_Clone_spec h b h' out :
  buf_ok h b → slices_Clone h (Buffer_Bytes b) = (h', out) →
  buf_ok h' b ∧
  slice_read h' out = slice_read h (buf b) ∧
  live h' out ∧ apart out b ∧
  (length h ≤ length h')%nat ∧
  (∀ s, live h s → slice_read h' s = slice_read h s).
Proof.
  destruct b as [[a l c]].
  unfold buf_ok, slices_Clone, Buffer_Bytes, live, apart, slice_read.
  cbn [buf s_arr s_len s_cap].
  intros [Hle Hc] Hcl. case_decide; simplify_eq; cbn [s_arr s_len s_cap].
  - split_and!; try done; by left.
  - assert (a < length h)%nat as Ha.
    { destruct Hc as [Hc|Hc]; [lia|].
      destruct (h !! a) eqn:E; simpl in Hc; simplify_eq.
      by eapply lookup_lt_Some. }
    set (arr' := take l (default [] (h !! a))).
    assert ((h ++ [arr']) !! length h = Some arr') as Hnew.
    { rewrite lookup_app_r by lia. by rewrite Nat.sub_diag. }
    rewrite Hnew, length_app. rewrite (lookup_app_l h) by done.
    change (default [] (Some arr')) with arr'.
    split_and!; [done|done| |right; simpl; lia|right; right; lia|lia|].
    + unfold arr'. rewrite take_take. f_equal. lia.
    + intros s [Hs|Hs]; [by rewrite Hs|].
      by rewrite lookup_app_l.
Qed.

Lemma run_cmd_mem w c o σ0 σ' w' e evs :
  buf_ok (w_heap σ0) (Stdout c) → run_cmd w c o σ0 = (σ', w', e, evs) →
  buf_ok (w_heap σ') (outBuf w') ∧
  (length (w_heap σ0) ≤ length (w_heap σ'))%nat ∧
  (∀ s, live (w_heap σ0) s → apart s (Stdout c) →
        slice_read (w_heap σ') s = slice_read (w_heap σ0) s ∧ apart s (outBuf w')) ∧
  (∀ st out, e = Some (runError st out) →
        slice_read (w_heap σ') out
        = slice_read (w_heap σ0) (buf (Stdout c)) ++ written (child o) ∧
        live (w_heap σ') out ∧ apart out (outBuf w')).
Proof.
  intros Hok Hrun. unfold run_cmd, Cmd_Run in Hrun.
  destruct (child o) as [cause|chunks files st] eqn:Ech.
  - simplify_eq. cbn [outBuf]. split_and!; try done.
  - destruct (Buffer_WriteAll (w_heap σ0) (Stdout c) chunks) as [h1 b1] eqn:Ew.
    destruct (Buffer_WriteAll_spec _ _ _ _ _ Hok Ew) as (Hok1 & Hrd1 & Hlen1 & Hfr1).
    case_decide.
    + simplify_eq. cbn [outBuf w_heap]. split_and!; try done.
    + cbn [w_heap] in Hrun.
      destruct (slices_Clone h1 (Buffer_Bytes b1)) as [h2 out] eqn:Ecl.
      destruct (slices_Clone_spec _ _ _ _ Hok1 Ecl)
        as (Hok2 & Hrd2 & Hlive2 & Hap2 & Hlen2 & Hfr2).
      simplify_eq. cbn [outBuf w_heap set_heap].
      split_and!; [done|lia| |].
      * intros s Hl Ha. destruct (Hfr1 s Hl Ha) as [Hr Ha'].
        split; [|done]. rewrite Hfr2; [done|]. by eapply live_mono.
      * intros st0 out0 [= <- <-]. simpl. split_and!; [congruence|done..].
Qed.

Lemma Buffer_Reset_spec h b :
  buf_ok h b →
  buf_ok h (Buffer_Reset b) ∧ slice_read h (buf (Buffer_Reset b)) = [] ∧
  (∀ s, apart s b → apart s (Buffer_Reset b)).
Proof.
  destruct b as [[a l c]]. unfold buf_ok, Buffer_Reset, apart, slice_read.
  cbn [buf s_arr s_len s_cap]. intros [Hle Hc].
  split_and!; [lia|done|done|done].
Qed.

Lemma os_Mkdir_inl dir fault σ0 σ1 :
  os_Mkdir dir fault σ0 = inl σ1 →
  σ1 = set_fs σ0 ({[ Clean dir ]} ∪ w_fs σ0) ∧
  mkdir_check dir fault σ0 = MkOk.
Proof.
  unfold os_Mkdir. destruct (mkdir_check dir fault σ0); try done.
  by intros [= <-].
Qed.

Lemma mkdir_check_ok dir fault σ0 :
  mkdir_check dir fault σ0 = MkOk →
  has_nul dir = false ∧ dir ≠ "" ∧ fault = None ∧
  ¬ path_exists σ0 dir ∧ path_exists σ0 (filepath_Dir (Clean dir)).
Proof.
  unfold mkdir_check. destruct (has_nul dir); [done|].
  case_decide; [done|]. destruct fault; [done|].
  case_decide; [done|]. case_decide; done.
Qed.

Lemma os_Mkdir_heap dir fault σ0 σ1 :
  os_Mkdir dir fault σ0 = inl σ1 → w_heap σ1 = w_heap σ0.
Proof. intros H. by apply os_Mkdir_inl in H as [-> _]. Qed.

Lemma os_Mkdir_environ dir fault σ0 σ1 :
  os_Mkdir dir fault σ0 = inl σ1 → w_environ σ1 = w_environ σ0.
Proof. intros H. by apply os_Mkdir_inl in H as [-> _]. Qed.

Lemma os_RemoveAll_heap path f σ0 :
  w_heap (os_RemoveAll path f σ0).1 = w_heap σ0.
Proof. unfold os_RemoveAll. by repeat case_match. Qed.

Lemma os_RemoveAll_environ path f σ0 :
  w_environ (os_RemoveAll path f σ0).1 = w_environ σ0.
Proof. unfold os_RemoveAll. by repeat case_match. Qed.

Lemma run_mem w i o σ0 σ' w' e evs :
  buf_ok (w_heap σ0) (outBuf w) → run w i o σ0 = (σ', w', e, evs) →
  buf_ok (w_heap σ') (outBuf w') ∧
  (length (w_heap σ0) ≤ length (w_heap σ'))%nat ∧
  (∀ s, live (w_heap σ0) s → apart s (outBuf w) →
        slice_read (w_heap σ') s = slice_read (w_heap σ0) s ∧ apart s (outBuf w')) ∧
  (∀ st out, e = Some (runError st out) →
        slice_read (w_heap σ') out = written (child o) ∧
        live (w_heap σ') out ∧ apart out (outBuf w')).
Proof.
  intros Hok Hrun.
  destruct (Buffer_Reset_spec _ _ Hok) as (Hok0 & Hrd0 & Hap0).
  unfold run in Hrun. case_decide.
  - destruct (os_Mkdir _ _ _) as [σ1|cause] eqn:Emk.
    + apply os_Mkdir_heap in Emk.
      destruct (run_cmd _ _ _ _) as [[[σ2 w2] e2] evs2] eqn:Erc.
      simplify_eq. rewrite os_RemoveAll_heap.
      apply run_cmd_mem in Erc; cbn [Stdout commandContext] in *; [|by rewrite Emk].
      rewrite Emk in Erc. rewrite Hrd0 in Erc.
      destruct Erc as (? & ? & Hfr & Hout). split_and!; [done..| |done].
      intros s Hl Ha. apply Hfr; auto.
    + simplify_eq. cbn [outBuf commandContext Stdout].
      split_and!; [done|done| |done]. intros s _ Ha. auto.
  - apply run_cmd_mem in Hrun; cbn [Stdout commandContext] in *; [|done].
    rewrite Hrd0 in Hrun.
    destruct Hrun as (? & ? & Hfr & Hout). split_and!; [done..| |done].
    intros s Hl Ha. apply Hfr; auto.
Qed.

Lemma runs_mem ios : ∀ w σ0 s,
  buf_ok (w_heap σ0) (outBuf w) → live (w_heap σ0) s → apart s (outBuf w) →
  slice_read (w_heap (runs w σ0 ios).1) s = slice_read (w_heap σ0) s.
Proof.
  induction ios as [|[i o] rest IH]; intros w σ0 s Hok Hl Ha; [done|].
  simpl. destruct (run w i o σ0) as [[[σ1 w1] e1] ev1] eqn:E.
  destruct (run_mem _ _ _ _ _ _ _ _ Hok E) as (Hok1 & Hlen & Hfr & _).
  destruct (Hfr s Hl Ha) as [Hr Ha1].
  rewrite IH; [done|done| |done]. by eapply live_mono.
Qed.

(* ------------------------------------------------------------------ *)
(** ** The goroutines: frame and invariants of a step *)
(* ------------------------------------------------------------------ *)

Ltac exec_inv H :=
  unfold exec, set_worker, set_coord in H;
  repeat match type of H with
  | context [workers ?s !! ?i] =>
      destruct (workers s !! i) as [[? ?]|] eqn:?; simpl in H
  | context [match ?x with _ => _ end] => destruct x eqn:?; simpl in H
  end; simplify_eq.

Lemma pc_of_insert_eq s i pc w pw :
  workers s !! i = Some pw → (fst <$> <[i := (pc, w)]> (workers s) !! i) = Some pc.
Proof.
  intros H. rewrite list_lookup_insert_eq; [done|]. by eapply lookup_lt_Some.
Qed.

Lemma exec_pc_other s l s' i :
  exec s l = Some s' → actor l ≠ Some i → pc_of s' i = pc_of s i.
Proof.
  intros H Ha. unfold pc_of.
  destruct l; simpl in Ha; exec_inv H; cbn [workers]; try done;
    rewrite list_lookup_insert_ne; congruence.
Qed.

Lemma exec_id s l s' :
  exec s l = Some s' →
  id s' = match l with LClaim _ => AddInt64 (id s) 1 | _ => id s end.
Proof. intros H. destruct l; exec_inv H; done. Qed.

Lemma exec_coord_inv s l s' : coord_inv s → exec s l = Some s' → coord_inv s'.
Proof.
  unfold coord_inv. intros [H1 H2] H.
  destruct l; exec_inv H; cbn [ctx_done coord err cancelled] in *; try done;
    repeat match goal with
    | E : coord _ = _ |- _ => rewrite E in *
    end; cbn [cancelled] in *; auto; try done.
Qed.

Lemma exec_trace_coord_inv tr : ∀ s s',
  coord_inv s → exec_trace s tr = Some s' → coord_inv s'.
Proof.
  induction tr as [|l tr IH]; intros s s' Hi H; simpl in H; simplify_eq; [done|].
  destruct (exec s l) as [s1|] eqn:E; simpl in H; [|done].
  eapply IH; [|done]. by eapply exec_coord_inv.
Qed.

Lemma init_coord_inv c dir σ0 : coord_inv (init_state c dir σ0).
Proof. by split. Qed.





Lemma exec_abandon s i e :
  coord_inv s → ctx_done s = true → pc_of s i = Some (WSend e) →
  (∃ s', exec s (LAbandon i) = Some s' ∧ pc_of s' i = Some WDone ∧
         coord s' = coord s ∧ n s' = n s ∧ err s' = err s) ∧
  (∀ l s', actor l = Some i → exec s l = Some s' → l = LAbandon i).
Proof.
  unfold pc_of. intros [Hc _] Hd Hpc.
  destruct (workers s !! i) as [[pc w]|] eqn:E; simpl in Hpc; simplify_eq.
  split.
  - exists (set_worker s i WDone w). unfold exec. rewrite E. simpl. rewrite Hd.
    split_and!; try done. unfold set_worker. cbn [workers].
    by erewrite pc_of_insert_eq.
  - intros l s' Ha H. rewrite Hd in Hc.
    destruct l; simpl in Ha; simplify_eq; exec_inv H; try done.
Qed.

(* ------------------------------------------------------------------ *)
(** ** Sequence ids *)
(* ------------------------------------------------------------------ *)

Lemma wrap64_small z : int64_min ≤ z ≤ int64_max → wrap64 z = z.
Proof.
  unfold wrap64, int64_min, int64_max. intros H.
  rewrite Z.mod_small; lia.
Qed.

Lemma exec_WRun s l s' k a :
  exec s l = Some s' → pc_of s' k = Some (WRun a) →
  pc_of s k = Some (WRun a) ∨
  (l = LClaim k ∧ pc_of s k = Some WClaim ∧ a = AddInt64 (id s) 1 ∧ id s' = a).
Proof.
  intros H Hpc.
  destruct (decide (actor l = Some k)) as [Ha|Ha].
  - unfold pc_of in *.
    destruct l; simpl in Ha; simplify_eq; exec_inv H; cbn [workers id] in Hpc;
      erewrite pc_of_insert_eq in Hpc by done; simplify_eq.
    right. done.
  - left. by rewrite <- (exec_pc_other _ _ _ _ H Ha).
Qed.

Lemma exec_ids_inv s l s' :
  ids_inv s → 0 ≤ id s →
  (∀ i, l = LClaim i → id s + 1 ≤ int64_max) →
  exec s l = Some s' → ids_inv s' ∧ id s ≤ id s'.
Proof.
  intros [Hr Hd] H0 Hb H.
  assert (id s ≤ id s' ∧ (∀ i, l = LClaim i → id s' = id s + 1)) as [Hle Hnew].
  { rewrite (exec_id _ _ _ H). destruct l; try (split; [lia|done]).
    unfold AddInt64. rewrite wrap64_small.
    - split; [lia|done].
    - specialize (Hb _ eq_refl). unfold int64_min. lia. }
  split; [|done]. split.
  - intros i a Hpc. destruct (exec_WRun _ _ _ _ _ H Hpc) as [Ho|(-> & _ & _ & Hn)].
    + specialize (Hr _ _ Ho). lia.
    + rewrite (Hnew _ eq_refl) in *. lia.
  - intros i j a b Hij Hi Hj.
    destruct (exec_WRun _ _ _ _ _ H Hi) as [Hoi|(-> & _ & _ & Hni)];
      destruct (exec_WRun _ _ _ _ _ H Hj) as [Hoj|(Hl & _ & _ & Hnj)].
    + by eapply Hd.
    + subst l. specialize (Hr _ _ Hoi). rewrite (Hnew _ eq_refl) in *. lia.
    + specialize (Hr _ _ Hoj). rewrite (Hnew _ eq_refl) in *. lia.
    + congruence.
Qed.

Lemma claimed_cons s l tr s1 :
  exec s l = Some s1 →
  claimed s (l :: tr) =
  match l with LClaim _ => id s1 :: claimed s1 tr | _ => claimed s1 tr end.
Proof. intros H. simpl. by rewrite H. Qed.

Lemma claimed_spec tr : ∀ s s',
  exec_trace s tr = Some s' → ids_inv s → 0 ≤ id s →
  id s + Z.of_nat (length (claimed s tr)) ≤ int64_max →
  claimed s tr = seqZ (id s + 1) (Z.of_nat (length (claimed s tr))) ∧
  id s' = id s + Z.of_nat (length (claimed s tr)) ∧ ids_inv s'.
Proof.
  induction tr as [|l tr IH]; intros s s' H Hinv H0 Hb; simpl in H; simplify_eq.
  { simpl. split_and!; [done|lia|done]. }
  destruct (exec s l) as [s1|] eqn:E; simpl in H; [|done].
  rewrite (claimed_cons _ _ _ _ E) in *.
  assert (∀ i, l = LClaim i → id s + 1 ≤ int64_max) as Hb1.
  { intros i ->. simpl in Hb. lia. }
  destruct (exec_ids_inv _ _ _ Hinv H0 Hb1 E) as [Hinv1 Hle].
  pose proof (exec_id _ _ _ E) as Hid.
  destruct l; try (rewrite <- Hid in H0, Hb |- *; by apply IH).
  assert (id s1 = id s + 1) as Hid1.
  { rewrite Hid. unfold AddInt64. apply wrap64_small.
    specialize (Hb1 _ eq_refl). unfold int64_min. lia. }
  simpl in Hb. destruct (IH _ _ H Hinv1) as (Hc & Hs' & Hi'); [lia|lia|].
  split_and!; [|simpl; lia|done].
  cbn [length]. rewrite seqZ_cons by lia. rewrite Hid1 at 1. f_equal.
  rewrite Hc at 1. f_equal; lia.
Qed.

Lemma init_ids_inv c dir σ0 : ids_inv (init_state c dir σ0).
Proof.
  assert (∀ i a, pc_of (init_state c dir σ0) i ≠ Some (WRun a)) as Hno.
  { intros i a. unfold pc_of, init_state. cbn [workers].
    destruct (replicate _ _ !! i) as [pw|] eqn:E; [|done].
    apply lookup_replicate in E as [-> _]. done. }
  split; intros; by edestruct Hno.
Qed.


Lemma run_worker_cfg w i o σ0 :
  cmd (run w i o σ0).1.1.2 = cmd w ∧ tmpdir (run w i o σ0).1.1.2 = tmpdir w.
Proof.
  unfold run, run_cmd. repeat case_match; simplify_eq; done.
Qed.

Lemma exec_workers_cfg c s l s' :
  workers_cfg c s → exec s l = Some s' → workers_cfg c s' ∧ root s' = root s.
Proof.
  intros Hc H.
  assert (root s' = root s) as Hr by (destruct l; exec_inv H; done).
  split; [|done]. intros k pc w Hk. rewrite Hr.
  destruct (decide (actor l = Some k)) as [Ha|Ha].
  - destruct l; simpl in Ha; simplify_eq; exec_inv H; cbn [workers] in Hk;
      (rewrite list_lookup_insert_eq in Hk by (by eapply lookup_lt_Some));
      simplify_eq; try (by eapply Hc).
    match goal with
    | E : run ?w ?a ?o ?σ0 = _ |- _ =>
        pose proof (run_worker_cfg w a o σ0) as Hw; rewrite E in Hw; simpl in Hw
    end.
    destruct Hw as [-> ->]. by eapply Hc.
  - destruct l; simpl in Ha; exec_inv H; cbn [workers] in Hk;
      try (rewrite list_lookup_insert_ne in Hk by congruence); by eapply Hc.
Qed.

(* ------------------------------------------------------------------ *)
(** ** One invocation: events, file system, environment *)
(* ------------------------------------------------------------------ *)

Lemma strip_prefix_app p s : strip_prefix p (p +:+ s) = Some s.
Proof.
  induction p as [|a p IH]; simpl; [done|]. by rewrite decide_True.
Qed.

Lemma lookup_env_last key v env :
  lookup_env key (env ++ [key +:+ "=" +:+ v]) = Some v.
Proof.
  assert (strip_prefix (key +:+ "=") (key +:+ "=" +:+ v) = Some v) as Hlast.
  { induction key as [|a key IH]; simpl; [done|]. by rewrite decide_True. }
  induction env as [|kv env IH]; simpl.
  - done.
  - by rewrite IH.
Qed.

Lemma run_cmd_events w c o σ0 :
  (run_cmd w c o σ0).2 = [EvRun (Args c) (Cmd_Environ c σ0)].
Proof. unfold run_cmd. repeat case_match; simplify_eq; done. Qed.

Lemma run_cmd_error w c o σ0 :
  (run_cmd w c o σ0).1.2 =
  match child o with
  | StartFails cause => Some (plainError cause)
  | Runs _ _ st =>
      if decide (ExitStatus st = 0) then None
      else Some (runError st (slices_Clone (w_heap (Cmd_Run c (child o) σ0).1.1)
                                           (Buffer_Bytes (Cmd_Run c (child o) σ0).1.2)).2)
  end.
Proof.
  unfold run_cmd, Cmd_Run. destruct (child o) as [cause|chunks files st]; [done|].
  destruct (Buffer_WriteAll _ _ _) as [h1 b1]. case_decide; [done|].
  cbn [w_heap fst snd]. by destruct (slices_Clone _ _).
Qed.

Lemma run_cmd_fs w c o σ0 :
  w_fs (run_cmd w c o σ0).1.1.1 = child_fs (child o) (w_fs σ0).
Proof.
  unfold run_cmd, Cmd_Run, child_fs.
  destruct (child o) as [cause|chunks files st]; [done|].
  destruct (Buffer_WriteAll _ _ _) as [h1 b1].
  case_decide; cbn [fst w_fs]; [done|].
  by destruct (slices_Clone _ _).
Qed.

Lemma os_RemoveAll_sub path f σ0 p :
  p ∈ w_fs (os_RemoveAll path f σ0).1 → p ∈ w_fs σ0.
Proof.
  unfold os_RemoveAll. repeat case_match; cbn [fst set_fs w_fs]; try done.
  all: rewrite elem_of_filter; tauto.
Qed.

(** A removal touches nothing outside the directory it is given. *)
Lemma os_RemoveAll_frame path f σ0 p :
  ¬ under (Clean path) p →
  p ∈ w_fs (os_RemoveAll path f σ0).1 ↔ p ∈ w_fs σ0.
Proof.
  intros Hu. unfold os_RemoveAll.
  repeat case_match; cbn [fst set_fs w_fs]; try done.
  all: rewrite elem_of_filter; tauto.
Qed.

(** A removal that does not fail leaves nothing of the directory. *)
Lemma os_RemoveAll_gone path σ0 p :
  path ≠ "" → endsWithDot path = false → has_nul path = false →
  under (Clean path) p → p ∉ w_fs (os_RemoveAll path None σ0).1.
Proof.
  intros Hne Hdot Hnul Hu. unfold os_RemoveAll.
  rewrite decide_False by done. rewrite Hdot, Hnul. cbn [fst set_fs w_fs].
  rewrite elem_of_filter. tauto.
Qed.

(** After a removal that fails, what is left of the directory is what
    could not be removed, with the directories that lead to it. *)
Lemma os_RemoveAll_left path f σ0 p :
  path ≠ "" → endsWithDot path = false → has_nul path = false →
  under (Clean path) p →
  p ∈ w_fs (os_RemoveAll path (Some f) σ0).1 ↔
  p ∈ w_fs σ0 ∧ stays (Clean path) (rm_left f) (w_fs σ0) p.
Proof.
  intros Hne Hdot Hnul Hu. unfold os_RemoveAll.
  rewrite decide_False by done. rewrite Hdot, Hnul. cbn [fst set_fs w_fs].
  rewrite elem_of_filter. tauto.
Qed.

(** The name of a scratch directory: a text that depends on the root
    alone, followed by the sequence id. It is not empty, does not end in a
    [.] element, and differs from the name for any other id. *)
Lemma scratch_dir_shape dir i :
  scratch_dir dir i ≠ "" ∧ endsWithDot (scratch_dir dir i) = false ∧
  ∃ P, ∀ j, scratch_dir dir j = P +:+ FormatInt j.
Proof.
  unfold scratch_dir. destruct (filepath_Join_last dir) as [P HP].
  destruct (numeric_FormatInt i) as [Hnum Hne].
  rewrite (HP _ (ordinary_FormatInt i)). split_and!.
  - intros [_ ?]%string_app_nil_inv. done.
  - by apply endsWithDot_numeric.
  - exists P. intros j. apply HP, ordinary_FormatInt.
Qed.

(** [run] with a scratch directory, step by step. *)
Lemma run_scratch w i o σ0 :
  tmpdir w ≠ "" →
  let dir := scratch_dir (tmpdir w) i in
  match os_Mkdir dir (mkdir_fault o) σ0 with
  | inl σ1 =>
      let c := mkCmd (cmd w)
                     (Some (dedupEnv (w_environ σ0) ++ ["FLAKEDIR=" +:+ dir]))
                     (Buffer_Reset (outBuf w)) in
      let r := run_cmd w c o σ1 in
      run w i o σ0 =
      ((os_RemoveAll dir (rm_fault o) r.1.1.1).1, r.1.1.2, r.1.2,
       EvMkdir dir true :: r.2 ++ [EvRemoveAll dir])
  | inr cause =>
      run w i o σ0 =
      (σ0, mkworker (cmd w) (tmpdir w) (Buffer_Reset (outBuf w)),
       Some (plainError cause), [EvMkdir dir false])
  end.
Proof.
  intros Ht. cbn zeta. unfold run, scratch_dir. rewrite decide_True by done.
  destruct (os_Mkdir _ _ _) as [σ1|cause] eqn:Emk; [|done].
  apply os_Mkdir_environ in Emk.
  change (Cmd_Environ (commandContext (cmd w) (Buffer_Reset (outBuf w))) σ1)
    with (dedupEnv (w_environ σ1)).
  cbn [commandContext Args Stdout].
  rewrite Emk. by destruct (run_cmd _ _ _ _) as [[[? ?] ?] ?].
Qed.

Lemma run_plain w i o σ0 :
  tmpdir w = "" →
  run w i o σ0 = run_cmd w (mkCmd (cmd w) None (Buffer_Reset (outBuf w))) o σ0.
Proof. intros Ht. unfold run. by rewrite decide_False by (by intros []). Qed.

(* ------------------------------------------------------------------ *)
(** ** The outcome of an invocation *)
(* ------------------------------------------------------------------ *)

Lemma run_error w i o σ0 :
  match mkdir_step w i o σ0 with
  | inr cause => (run w i o σ0).1.2 = Some (plainError cause)
  | inl _ =>
      match child o with
      | StartFails cause => (run w i o σ0).1.2 = Some (plainError cause)
      | Runs _ _ st =>
          if decide (ExitStatus st = 0) then (run w i o σ0).1.2 = None
          else ∃ out, (run w i o σ0).1.2 = Some (runError st out)
      end
  end.
Proof.
  unfold mkdir_step. case_decide as Ht.
  - pose proof (run_scratch w i o σ0 Ht) as Hr. cbn zeta in Hr.
    destruct (os_Mkdir _ _ _) as [σ1|cause]; rewrite Hr; [|done].
    cbn [fst snd]. rewrite run_cmd_error.
    destruct (child o) as [cause|chunks files st]; [done|].
    case_decide; [done|by eexists].
  - assert (tmpdir w = "") as Ht' by (by destruct (decide (tmpdir w = ""))).
    rewrite (run_plain _ _ _ _ Ht'), run_cmd_error.
    destruct (child o) as [cause|chunks files st]; [done|].
    case_decide; [done|by eexists].
Qed.

(** C2, as amended. The error [run] returns classifies the invocation: a
    child that exits with code 0 gives nil; one that exits with another
    code gives a *runError whose message is "status <code>"; one ended by a
    signal gives a *runError whose message is "got signal " followed by the
    signal's name as a double-quoted Go string (the verb %q); a child that
    could not be started, or a scratch directory that could not be created,
    gives the cause itself, an error value that has no output field. *)
Theorem outcome_classification (w : worker) (i : Z) (o : oracle) (σ0 : world) :
  match mkdir_step w i o σ0 with
  | inr cause => (run w i o σ0).1.2 = Some (plainError cause)
  | inl _ =>
      match child o with
      | StartFails cause => (run w i o σ0).1.2 = Some (plainError cause)
      | Runs _ _ (Exited code) =>
          if decide (code = 0) then (run w i o σ0).1.2 = None
          else ∃ out, (run w i o σ0).1.2 = Some (runError (Exited code) out) ∧
                      Error (Exited code) = "status " +:+ FormatInt code
      | Runs _ _ (Killed sg) =>
          ∃ out, (run w i o σ0).1.2 = Some (runError (Killed sg) out) ∧
                 Error (Killed sg) = "got signal " +:+ Quote (Signal_String sg)
      end
  end.
Proof.
  pose proof (run_error w i o σ0) as H.
  destruct (mkdir_step w i o σ0) as [σ1|cause]; [|done].
  destruct (child o) as [cause|chunks files [code|sg]]; [done|..].
  - cbn [ExitStatus] in H. case_decide; [done|].
    destruct H as [out H]. exists out. by split.
  - cbn [ExitStatus] in H. rewrite decide_False in H by done.
    destruct H as [out H]. exists out. by split.
Qed.

(** C2, as stated, fails: for a child killed by SIGKILL the message is
    [got signal "killed"], with the quotes of %q, not "got signal killed". *)
Lemma signal_name_is_quoted :
  (run (Sample.plain ["/bin/sleep"; "9"]) 1 Sample.killed Sample.bare).1.2
  = Some (runError (Killed 9) (Slice 0 0 0)) ∧
  Signal_String 9 = "killed" ∧
  Error (Killed 9) = "got signal " +:+ String dquote ("killed" +:+ String dquote "") ∧
  Error (Killed 9) ≠ "got signal killed".
Proof. split_and!; [by vm_compute|done|done|by vm_compute]. Qed.

(* ------------------------------------------------------------------ *)
(** ** The scratch directory *)
(* ------------------------------------------------------------------ *)

(** C4, as amended. With a scratch root configured, [run] first creates
    the directory named by the sequence id under the root. If that succeeds
    the directory is new and exists in the world in which the command is
    run, [cmd.Run] is called once, and the deferred [os.RemoveAll] of the
    directory comes last, whatever the child did (success, failure, killed
    on cancellation, not startable); what [run] returns is what the command
    gave, the result of the removal is dropped. When the removal does not
    fail, neither the directory nor anything below it exists afterwards;
    when it fails, what is left of the directory is what could not be
    removed. If the creation fails, [run] returns the cause, the world is
    unchanged and [cmd.Run] is not called. *)
Theorem scratch_directory_lifecycle (w : worker) (i : Z) (o : oracle) (σ0 : world) :
  tmpdir w ≠ "" →
  let dir := filepath_Join (tmpdir w) (FormatInt i) in
  match os_Mkdir dir (mkdir_fault o) σ0 with
  | inl σ1 =>
      ¬ path_exists σ0 dir ∧ path_exists σ1 dir ∧
      (∃ c, Args c = cmd w ∧
            (run w i o σ0).1.2 = (run_cmd w c o σ1).1.2 ∧
            (run w i o σ0).1.1.1
            = (os_RemoveAll dir (rm_fault o) (run_cmd w c o σ1).1.1.1).1) ∧
      (∃ env, (run w i o σ0).2 =
              [EvMkdir dir true; EvRun (cmd w) env; EvRemoveAll dir]) ∧
      (rm_fault o = None →
       ∀ p, under (Clean dir) p → p ∉ w_fs (run w i o σ0).1.1.1) ∧
      (∀ f p, rm_fault o = Some f → under (Clean dir) p →
         p ∈ w_fs (run w i o σ0).1.1.1 ↔
         p ∈ child_fs (child o) (w_fs σ1) ∧
         stays (Clean dir) (rm_left f) (child_fs (child o) (w_fs σ1)) p)
  | inr cause =>
      (run w i o σ0).1.2 = Some (plainError cause) ∧
      (run w i o σ0).2 = [EvMkdir dir false] ∧
      (run w i o σ0).1.1.1 = σ0
  end.
Proof.
  intros Ht dir. pose proof (run_scratch w i o σ0 Ht) as Hr. cbn zeta in Hr.
  fold dir in Hr. change (scratch_dir (tmpdir w) i) with dir in Hr.
  destruct (os_Mkdir dir (mkdir_fault o) σ0) as [σ1|cause] eqn:Emk.
  - rewrite Hr. cbn [fst snd].
    apply os_Mkdir_inl in Emk as [-> Hck].
    apply mkdir_check_ok in Hck as (Hnul & Hne & _ & Hnew & _).
    destruct (scratch_dir_shape (tmpdir w) i) as (_ & Hdot & _).
    change (scratch_dir (tmpdir w) i) with dir in Hdot.
    split_and!.
    + done.
    + split_and!; [done..|]. left. cbn [set_fs w_fs].
      apply elem_of_union. left. by apply elem_of_singleton.
    + eexists. split_and!; [|reflexivity|reflexivity]. done.
    + rewrite run_cmd_events. by eexists.
    + intros -> p Hp. by apply os_RemoveAll_gone.
    + intros f p -> Hp. rewrite os_RemoveAll_left by done.
      by rewrite run_cmd_fs.
  - rewrite Hr. done.
Qed.

Lemma scratch_directory_lifecycle_witness :
  tmpdir (Sample.scratchy ["/bin/false"]) ≠ "" ∧
  (run (Sample.scratchy ["/bin/false"]) 4 (Sample.exits 1) Sample.nested).2
  = [EvMkdir "/tmp/flake-1/4" true;
     EvRun ["/bin/false"] ["PATH=/bin"; "FLAKEDIR=/tmp/flake-1/4"];
     EvRemoveAll "/tmp/flake-1/4"] ∧
  "/tmp/flake-1/4" ∉ w_fs (run (Sample.scratchy ["/bin/false"]) 4
                               (Sample.exits 1) Sample.nested).1.1.1.
Proof.
  split; [done|]. split; [by vm_compute|].
  pose proof (scratch_directory_lifecycle (Sample.scratchy ["/bin/false"]) 4
                (Sample.exits 1) Sample.nested ltac:(done)) as H.
  cbn zeta in H.
  assert (os_Mkdir (filepath_Join (tmpdir (Sample.scratchy ["/bin/false"]))
                                  (FormatInt 4))
                   (mkdir_fault (Sample.exits 1)) Sample.nested
          = inl (set_fs Sample.nested
                        ({[ "/tmp/flake-1/4" ]} ∪ w_fs Sample.nested))) as E
    by (vm_compute; reflexivity).
  rewrite E in H. destruct H as (_ & _ & _ & _ & H & _).
  apply (H eq_refl). left. vm_compute. reflexivity.
Defined.

(** C4, as stated, fails: the directory is not removed on every exit path.
    Here the child makes a directory with a file in its scratch directory
    and leaves it so that the file cannot be removed; the command succeeds,
    [run] returns nil and drops the error of the removal, and the scratch
    directory is still there. *)
Lemma scratch_directory_survives_a_failed_removal :
  (run (Sample.scratchy ["./flaky.sh"]) 4 Sample.locks_up Sample.nested).1.2 = None ∧
  (run (Sample.scratchy ["./flaky.sh"]) 4 Sample.locks_up Sample.nested).2
  = [EvMkdir "/tmp/flake-1/4" true;
     EvRun ["./flaky.sh"] ["PATH=/bin"; "FLAKEDIR=/tmp/flake-1/4"];
     EvRemoveAll "/tmp/flake-1/4"] ∧
  "/tmp/flake-1/4" ∈ w_fs (run (Sample.scratchy ["./flaky.sh"]) 4 Sample.locks_up
                               Sample.nested).1.1.1 ∧
  (os_RemoveAll "/tmp/flake-1/4" (rm_fault Sample.locks_up)
     (World [] {[ "/tmp"; "/tmp/flake-1"; "/tmp/flake-1/4"; "/tmp/flake-1/4/d";
                  "/tmp/flake-1/4/d/f" ]} [])).2
  = Some "unlinkat /tmp/flake-1/4/d/f: permission denied".
Proof. split_and!; by vm_compute. Qed.

(* ------------------------------------------------------------------ *)
(** ** The child's environment *)
(* ------------------------------------------------------------------ *)

(** C8, as amended. With a scratch root configured (and the directory
    created) the command is run with FLAKEDIR set to the path of the
    scratch directory: its environment is the environment of this process
    without any entry for FLAKEDIR, followed by the one entry
    FLAKEDIR=<scratch directory>. With no scratch root, flake neither adds
    nor removes a variable: the command is run with the environment of this
    process as os/exec passes it on, which is that environment itself when
    no key comes twice in it; every entry of the child is an entry of this
    process, so FLAKEDIR is absent unless it is set here, and then the
    child has it too. *)
Theorem child_environment (w : worker) (i : Z) (o : oracle) (σ0 : world) :
  let dir := filepath_Join (tmpdir w) (FormatInt i) in
  (tmpdir w ≠ "" →
   match os_Mkdir dir (mkdir_fault o) σ0 with
   | inl _ =>
       ∃ env,
         (run w i o σ0).2 = [EvMkdir dir true; EvRun (cmd w) env; EvRemoveAll dir] ∧
         env = filter (λ kv, env_key kv ≠ Some "FLAKEDIR") (dedupEnv (w_environ σ0))
               ++ ["FLAKEDIR=" +:+ dir] ∧
         lookup_env "FLAKEDIR" env = Some dir ∧
         filter (λ kv, env_key kv = Some "FLAKEDIR") env = ["FLAKEDIR=" +:+ dir]
   | inr _ => (run w i o σ0).2 = [EvMkdir dir false]
   end) ∧
  (tmpdir w = "" →
   (run w i o σ0).2 = [EvRun (cmd w) (dedupEnv (w_environ σ0))] ∧
   (∀ kv, kv ∈ dedupEnv (w_environ σ0) → kv ∈ w_environ σ0) ∧
   (tidy (w_environ σ0) → dedupEnv (w_environ σ0) = w_environ σ0)).
Proof.
  intros dir. split.
  - intros Ht. pose proof (run_scratch w i o σ0 Ht) as Hr. cbn zeta in Hr.
    change (scratch_dir (tmpdir w) i) with dir in Hr.
    destruct (os_Mkdir dir (mkdir_fault o) σ0) as [σ1|cause] eqn:Emk.
    + rewrite Hr. cbn [fst snd]. rewrite run_cmd_events.
      apply os_Mkdir_inl in Emk as [-> Hck].
      apply mkdir_check_ok in Hck as (Hnul & _).
      unfold Cmd_Environ. cbn [Env Args default from_option set_fs w_environ].
      unfold Datatypes.id.
      eexists. split; [reflexivity|].
      rewrite (dedupEnv_snoc _ _ "FLAKEDIR" (dedupEnv_tidy _)) by done.
      split_and!.
      * done.
      * apply (lookup_env_last "FLAKEDIR").
      * rewrite filter_app, filter_key_others.
        by rewrite filter_cons, decide_True by done.
    + by rewrite Hr.
  - intros Ht. rewrite (run_plain _ _ _ _ Ht), run_cmd_events.
    split_and!; [done|apply dedupEnv_sub|apply dedupEnv_id].
Qed.

Lemma child_environment_witness :
  (tmpdir (Sample.scratchy ["/bin/true"]) ≠ "" ∧
   tmpdir (Sample.plain ["/bin/true"]) = "") ∧
  (∃ env,
     (run (Sample.scratchy ["/bin/true"]) 1 (Sample.exits 0) Sample.nested).2
     = [EvMkdir "/tmp/flake-1/1" true; EvRun ["/bin/true"] env;
        EvRemoveAll "/tmp/flake-1/1"] ∧
     env = ["PATH=/bin"; "FLAKEDIR=/tmp/flake-1/1"]) ∧
  (run (Sample.plain ["/bin/true"]) 1 (Sample.exits 0) Sample.nested).2
  = [EvRun ["/bin/true"] ["PATH=/bin"; "FLAKEDIR=/outer/flake-7/3"]].
Proof.
  assert (tmpdir (Sample.scratchy ["/bin/true"]) ≠ "") as H1 by done.
  assert (tmpdir (Sample.plain ["/bin/true"]) = "") as H2 by reflexivity.
  split; [by split|]. split.
  - pose proof (proj1 (child_environment (Sample.scratchy ["/bin/true"]) 1
                         (Sample.exits 0) Sample.nested) H1) as H.
    assert (os_Mkdir (filepath_Join (tmpdir (Sample.scratchy ["/bin/true"]))
                                    (FormatInt 1))
                     (mkdir_fault (Sample.exits 0)) Sample.nested
            = inl (set_fs Sample.nested
                          ({[ "/tmp/flake-1/1" ]} ∪ w_fs Sample.nested))) as E
      by (vm_compute; reflexivity).
    rewrite E in H. destruct H as (env & Hev & Henv & _).
    exists env. split; [exact Hev|]. rewrite Henv. vm_compute. reflexivity.
  - exact (proj1 (proj2 (child_environment (Sample.plain ["/bin/true"]) 1
                           (Sample.exits 0) Sample.nested) H2)).
Defined.

(** C8, as stated, fails: with no scratch root configured, a child of a
    process that has FLAKEDIR in its environment has it too. *)
Lemma inherited_FLAKEDIR_is_passed_on :
  tmpdir (Sample.plain ["/bin/true"]) = "" ∧
  (run (Sample.plain ["/bin/true"]) 1 (Sample.exits 0) Sample.nested).2
  = [EvRun ["/bin/true"] ["PATH=/bin"; "FLAKEDIR=/outer/flake-7/3"]] ∧
  lookup_env "FLAKEDIR" ["PATH=/bin"; "FLAKEDIR=/outer/flake-7/3"]
  = Some "/outer/flake-7/3".
Proof. split_and!; by vm_compute. Qed.

(* ------------------------------------------------------------------ *)
(** ** The average *)
(* ------------------------------------------------------------------ *)

Lemma quot_in_range a b :
  0 ≤ a ≤ int64_max → b ≠ 0 → int64_min ≤ Z.quot a b ≤ int64_max.
Proof.
  unfold int64_min, int64_max. intros Ha Hb.
  assert (0 ≤ Z.quot a (Z.abs b) ≤ a) as Hq.
  { split; [apply Z.quot_pos; lia|].
    apply Z.quot_le_upper_bound; [lia|]. nia. }
  destruct (Z.abs_spec b) as [[? Hab]|[? Hab]]; rewrite Hab in Hq.
  - lia.
  - rewrite Z.quot_opp_r in Hq by lia. lia.
Qed.

(** C9. When [n] is 0 the closure [avg] gives the empty text, so no
    average is printed. Otherwise it prints the duration
    parallelism × elapsed / n, computed on int64 durations with the product
    first and a division that truncates; as long as the product is a value
    of int64 that is the integer quotient of parallelism × elapsed by n. *)
Theorem average_latency (Duration_String : Z → string) (p elapsed n : Z) :
  avg Duration_String p elapsed 0 = "" ∧
  (n ≠ 0 →
   avg Duration_String p elapsed n
   = " (avg = " +:+ Duration_String (int64_quo (int64_mul p elapsed) n) +:+ ")") ∧
  (n ≠ 0 → 0 ≤ p * elapsed ≤ int64_max →
   avg Duration_String p elapsed n
   = " (avg = " +:+ Duration_String (Z.quot (p * elapsed) n) +:+ ")" ∧
   (0 < n →
    n * Z.quot (p * elapsed) n ≤ p * elapsed < n * (Z.quot (p * elapsed) n + 1))).
Proof.
  split_and!; [done| |].
  - intros Hn. unfold avg. by rewrite decide_False by done.
  - intros Hn Hr. split.
    + unfold avg, int64_quo, int64_mul. rewrite decide_False by done.
      rewrite (wrap64_small (p * elapsed)) by (unfold int64_min; lia).
      rewrite wrap64_small by (by apply quot_in_range). done.
    + intros Hpos. rewrite Z.quot_div_nonneg by lia.
      pose proof (Z.mul_div_le (p * elapsed) n Hpos).
      pose proof (Z.mul_succ_div_gt (p * elapsed) n Hpos). lia.
Qed.

Lemma average_latency_witness :
  (3 ≠ 0 ∧ 0 ≤ 4 * 1000000000 ≤ int64_max) ∧
  avg FormatInt 4 1000000000 3 = " (avg = 1333333333)".
Proof.
  split; [split; [done|by vm_compute]|].
  apply (proj2 (proj2 (average_latency FormatInt 4 1000000000 3)));
    [done|by vm_compute].
Defined.

(* ------------------------------------------------------------------ *)
(** ** Captured output *)
(* ------------------------------------------------------------------ *)

(** The model tells a window on the buffer from a copy: a slice taken with
    [Bytes()] after one invocation shows the bytes of the next. *)
Example bytes_without_clone_are_overwritten :
  let w := Sample.plain ["./flaky.sh"] in
  let '(σ1, w1, _, _) := run w 1 (Sample.says "hello" 0) Sample.bare in
  let alias := Buffer_Bytes (outBuf w1) in
  let '(σ2, _, _, _) := run w1 2 (Sample.says "crash" 3) σ1 in
  slice_read (w_heap σ1) alias = Sample.bytes "hello" ∧
  slice_read (w_heap σ2) alias = Sample.bytes "crash".
Proof. by vm_compute. Qed.

Lemma buf_ok_allocated h b :
  buf_ok h b → s_cap (buf b) ≠ 0%nat → (s_arr (buf b) < length h)%nat.
Proof.
  intros [_ [?|Hc]] Hne; [done|].
  destruct (h !! s_arr (buf b)) eqn:E; [|done]. by eapply lookup_lt_Some.
Qed.

Lemma buf_ok_live h b : buf_ok h b → live h (buf b).
Proof.
  intros Hok. destruct (decide (s_cap (buf b) = 0%nat)) as [Hz|Hnz].
  - left. destruct Hok as [Hle _]. lia.
  - right. by apply buf_ok_allocated.
Qed.

Lemma run_cmd_buffer w c o σ0 :
  buf_ok (w_heap σ0) (Stdout c) →
  slice_read (w_heap (run_cmd w c o σ0).1.1.1) (buf (outBuf (run_cmd w c o σ0).1.1.2))
  = slice_read (w_heap σ0) (buf (Stdout c)) ++ written (child o).
Proof.
  intros Hok. unfold run_cmd, Cmd_Run.
  destruct (child o) as [cause|chunks files st]; simpl.
  { by rewrite app_nil_r. }
  destruct (Buffer_WriteAll (w_heap σ0) (Stdout c) chunks) as [h1 b1] eqn:Ew.
  destruct (Buffer_WriteAll_spec _ _ _ _ _ Hok Ew) as (Hok1 & Hrd1 & _ & _).
  case_decide; [done|]. cbn [w_heap].
  destruct (slices_Clone h1 (Buffer_Bytes b1)) as [h2 out] eqn:Ecl.
  destruct (slices_Clone_spec _ _ _ _ Hok1 Ecl) as (_ & _ & _ & _ & _ & Hfr).
  cbn [fst snd outBuf set_heap w_heap]. rewrite Hfr; [done|].
  by apply buf_ok_live.
Qed.

Lemma run_buffer w i o σ0 :
  buf_ok (w_heap σ0) (outBuf w) →
  slice_read (w_heap (run w i o σ0).1.1.1) (buf (outBuf (run w i o σ0).1.1.2))
  = match mkdir_step w i o σ0 with
    | inl _ => written (child o)
    | inr _ => []
    end.
Proof.
  intros Hok.
  destruct (Buffer_Reset_spec _ _ Hok) as (Hok0 & Hrd0 & _).
  unfold mkdir_step. case_decide as Hd.
  - pose proof (run_scratch w i o σ0 Hd) as Hr. cbn zeta in Hr.
    destruct (os_Mkdir _ _ _) as [σ1|cause] eqn:Emk; rewrite Hr.
    + cbn [fst snd]. rewrite os_RemoveAll_heap.
      apply os_Mkdir_heap in Emk.
      rewrite run_cmd_buffer by (cbn [Stdout]; by rewrite Emk).
      cbn [Stdout]. by rewrite Emk, Hrd0.
    + done.
  - assert (tmpdir w = "") as Ht' by (by destruct (decide (tmpdir w = ""))).
    rewrite (run_plain _ _ _ _ Ht').
    rewrite run_cmd_buffer by done. cbn [Stdout]. by rewrite Hrd0.
Qed.

(** C3. For two consecutive invocations of one worker, whatever the first
    one was and wrote: when the child of the second runs and fails (it
    exits with a status other than 0 or is ended by a signal), the second
    returns a *runError for that wait status whose [output] reads as exactly
    the bytes the second child wrote, and so does the worker's buffer (it
    was reset first, so nothing of the first invocation is in it); the
    [output] slice shares no byte with the buffer (it is the clone); and
    after any further invocations of the same worker it still reads as the
    same bytes. (When the scratch directory of the second cannot be made
    there is no child and no *runError, but the cause.) *)
Theorem failure_output_isolated (w : worker) (σ0 : world)
    (i1 i2 : Z) (o1 o2 : oracle) (later : list (Z * oracle))
    (chunks : list (list byte)) (files : changes) (st : WaitStatus) :
  buf_ok (w_heap σ0) (outBuf w) →
  child o2 = Runs chunks files st → ExitStatus st ≠ 0 →
  let r1 := run w i1 o1 σ0 in
  let r2 := run r1.1.1.2 i2 o2 r1.1.1.1 in
  match mkdir_step r1.1.1.2 i2 o2 r1.1.1.1 with
  | inl _ =>
      ∃ output,
        r2.1.2 = Some (runError st output) ∧
        slice_read (w_heap r2.1.1.1) output = concat chunks ∧
        slice_read (w_heap r2.1.1.1) (buf (outBuf r2.1.1.2)) = concat chunks ∧
        apart output (outBuf r2.1.1.2) ∧
        slice_read (w_heap (runs r2.1.1.2 r2.1.1.1 later).1) output = concat chunks
  | inr cause => r2.1.2 = Some (plainError cause)
  end.
Proof.
  intros Hok Hch Hst r1 r2. subst r1 r2.
  destruct (run w i1 o1 σ0) as [[[σ1 w1] e1] ev1] eqn:E1. cbn [fst snd].
  destruct (run_mem _ _ _ _ _ _ _ _ Hok E1) as (Hok1 & _ & _ & _).
  pose proof (run_error w1 i2 o2 σ1) as Hre.
  pose proof (run_buffer w1 i2 o2 σ1 Hok1) as Hbuf.
  destruct (run w1 i2 o2 σ1) as [[[σ2 w2] e2] ev2] eqn:E2. cbn [fst snd] in *.
  destruct (run_mem _ _ _ _ _ _ _ _ Hok1 E2) as (Hok2 & _ & _ & Hout).
  destruct (mkdir_step w1 i2 o2 σ1) as [σ|cause]; [|done].
  rewrite Hch in Hre, Hbuf. rewrite decide_False in Hre by done.
  destruct Hre as [output ->].
  destruct (Hout st output eq_refl) as (Hrd & Hlive & Hap).
  rewrite Hch in Hrd. cbn [written] in Hrd, Hbuf.
  exists output. split_and!; [done..|]. by rewrite runs_mem.
Qed.

Lemma failure_output_isolated_witness :
  (buf_ok (w_heap Sample.bare) (outBuf (Sample.plain ["./flaky.sh"])) ∧
   child (Sample.says "crash" 3)
   = Runs [Sample.bytes "crash"] no_changes (Exited 3) ∧
   ExitStatus (Exited 3) ≠ 0) ∧
  let r1 := run (Sample.plain ["./flaky.sh"]) 1 (Sample.says "hello" 0)
                Sample.bare in
  let r2 := run r1.1.1.2 2 (Sample.says "crash" 3) r1.1.1.1 in
  r2.1.2 = Some (runError (Exited 3) (Slice 1 5 5)) ∧
  slice_read (w_heap r2.1.1.1) (Slice 1 5 5) = Sample.bytes "crash" ∧
  slice_read (w_heap (runs r2.1.1.2 r2.1.1.1 [(3, Sample.says "again" 0)]).1)
             (Slice 1 5 5)
  = Sample.bytes "crash".
Proof.
  assert (buf_ok (w_heap Sample.bare) (outBuf (Sample.plain ["./flaky.sh"])))
    as Hok by (split; [done|by left]).
  assert (ExitStatus (Exited 3) ≠ 0) as Hst by done.
  split; [by split_and!|]. intros r1 r2.
  pose proof (failure_output_isolated (Sample.plain ["./flaky.sh"]) Sample.bare
                1 2 (Sample.says "hello" 0) (Sample.says "crash" 3)
                [(3, Sample.says "again" 0)] [Sample.bytes "crash"] no_changes
                (Exited 3) Hok eq_refl Hst) as H.
  cbn zeta in H. fold r1 in H. fold r2 in H.
  assert (mkdir_step r1.1.1.2 2 (Sample.says "crash" 3) r1.1.1.1 = inl r1.1.1.1)
    as E by reflexivity.
  rewrite E in H. destruct H as (output & He & Hrd & _ & _ & Hlater).
  assert (r2.1.2 = Some (runError (Exited 3) (Slice 1 5 5))) as He'
    by (vm_compute; reflexivity).
  rewrite He' in He. injection He as <-.
  split_and!; [exact He'|exact Hrd|exact Hlater].
Defined.

(* ------------------------------------------------------------------ *)
(** ** The worker loop *)
(* ------------------------------------------------------------------ *)




(** C6. In a state a run can reach, once the context is done a worker that
    stands at the publication of an outcome can take the cancellation
    branch: that step ends the worker and leaves main's variables as they
    were, so the outcome is dropped. Main reads the channel no more by then,
    so this is the only step the worker can take. *)
Theorem publish_respects_cancellation (c : config) (dir : string) (σ0 : world)
    (tr : list label) (s : state) (i : nat) (e : option error) :
  exec_trace (init_state c dir σ0) tr = Some s →
  ctx_done s = true → pc_of s i = Some (WSend e) →
  (∃ s', exec s (LAbandon i) = Some s' ∧ pc_of s' i = Some WDone ∧
         coord s' = coord s ∧ n s' = n s ∧ err s' = err s) ∧
  (∀ l s', actor l = Some i → exec s l = Some s' → l = LAbandon i).
Proof.
  intros Htr Hd Hpc. apply (exec_abandon s i e); [|done..].
  eapply exec_trace_coord_inv; [|done]. apply init_coord_inv.
Qed.

Lemma publish_respects_cancellation_witness :
  (exec_trace (init_state Sample.two_lanes "" Sample.bare) Sample.racing_run
   = Some Sample.after_race ∧
   ctx_done Sample.after_race = true ∧
   pc_of Sample.after_race 1 = Some (WSend None)) ∧
  ∀ l s', actor l = Some 1%nat → exec Sample.after_race l = Some s' →
          l = LAbandon 1.
Proof.
  assert (exec_trace (init_state Sample.two_lanes "" Sample.bare)
                     Sample.racing_run = Some Sample.after_race)
    as E by (vm_compute; reflexivity).
  split; [by split_and!|].
  exact (proj2 (publish_respects_cancellation Sample.two_lanes "" Sample.bare
                  Sample.racing_run Sample.after_race 1 None E eq_refl eq_refl)).
Defined.

(* ------------------------------------------------------------------ *)
(** ** Sequence ids along a run *)
(* ------------------------------------------------------------------ *)

Lemma init_workers_cfg c dir σ0 : workers_cfg c (init_state c dir σ0).
Proof.
  intros i pc w H. unfold init_state in H. cbn [workers] in H.
  apply lookup_replicate in H as [[= -> ->] _]. done.
Qed.

Lemma exec_trace_workers_cfg c tr : ∀ s s',
  workers_cfg c s → exec_trace s tr = Some s' →
  workers_cfg c s' ∧ root s' = root s.
Proof.
  induction tr as [|l tr IH]; intros s s' Hc H; simpl in H; simplify_eq; [done|].
  destruct (exec s l) as [s1|] eqn:E; simpl in H; [|done].
  destruct (exec_workers_cfg _ _ _ _ Hc E) as [Hc1 Hr1].
  destruct (IH _ _ Hc1 H) as [Hc' Hr']. split; [done|congruence].
Qed.

Lemma init_claimed c dir σ0 tr s :
  exec_trace (init_state c dir σ0) tr = Some s →
  Z.of_nat (length (claimed (init_state c dir σ0) tr)) ≤ int64_max →
  claimed (init_state c dir σ0) tr
  = seqZ 1 (Z.of_nat (length (claimed (init_state c dir σ0) tr))) ∧
  id s = Z.of_nat (length (claimed (init_state c dir σ0) tr)) ∧ ids_inv s.
Proof.
  intros Htr Hb.
  destruct (claimed_spec tr _ _ Htr (init_ids_inv c dir σ0)) as (Hc & Hid & Hinv);
    [done|by simpl|].
  done.
Qed.



(** C10. The counter starts at 0 and every claim returns the value before
    it plus one, so in a run that claims no more ids than int64 has positive
    values the ids claimed are 1, 2, ..., k in the order of claiming, across
    all workers, and the counter holds k. *)
Theorem sequence_ids_contiguous (c : config) (dir : string) (σ0 : world)
    (tr : list label) (s : state) :
  exec_trace (init_state c dir σ0) tr = Some s →
  Z.of_nat (length (claimed (init_state c dir σ0) tr)) ≤ int64_max →
  id (init_state c dir σ0) = 0 ∧
  claimed (init_state c dir σ0) tr
  = seqZ 1 (Z.of_nat (length (claimed (init_state c dir σ0) tr))) ∧
  (∀ k a, claimed (init_state c dir σ0) tr !! k = Some a → a = Z.of_nat k + 1) ∧
  id s = Z.of_nat (length (claimed (init_state c dir σ0) tr)) ∧
  (∀ i s', id s < int64_max → exec s (LClaim i) = Some s' →
           id s' = id s + 1 ∧ pc_of s' i = Some (WRun (id s + 1))).
Proof.
  intros Htr Hb.
  destruct (init_claimed _ _ _ _ _ Htr Hb) as (Hc & Hid & _).
  split_and!; [done|done| |done|].
  - intros k a Hk. rewrite Hc in Hk. apply lookup_seqZ in Hk as [-> _]. lia.
  - intros i s' Hlt H.
    assert (AddInt64 (id s) 1 = id s + 1) as Hadd.
    { unfold AddInt64. apply wrap64_small. unfold int64_min, int64_max in *. lia. }
    pose proof (exec_id _ _ _ H) as Hid'. cbn in Hid'. rewrite Hadd in Hid'.
    split; [done|]. unfold pc_of. exec_inv H. cbn [workers].
    erewrite pc_of_insert_eq by done. by rewrite Hadd.
Qed.

Lemma sequence_ids_contiguous_witness :
  (exec_trace (init_state Sample.two_lanes "" Sample.bare) Sample.both_claim
   = Some Sample.both_in_flight ∧
   Z.of_nat (length (claimed (init_state Sample.two_lanes "" Sample.bare)
                             Sample.both_claim)) ≤ int64_max) ∧
  claimed (init_state Sample.two_lanes "" Sample.bare) Sample.both_claim = [1; 2].
Proof.
  assert (exec_trace (init_state Sample.two_lanes "" Sample.bare)
                     Sample.both_claim = Some Sample.both_in_flight)
    as E by (vm_compute; reflexivity).
  assert (Z.of_nat (length (claimed (init_state Sample.two_lanes "" Sample.bare)
                                    Sample.both_claim)) ≤ int64_max)
    as Hb by (by vm_compute).
  split; [by split|].
  destruct (sequence_ids_contiguous Sample.two_lanes "" Sample.bare
              Sample.both_claim Sample.both_in_flight E Hb) as (_ & H & _).
  rewrite H. vm_compute. reflexivity.
Defined.

(* ------------------------------------------------------------------ *)
(** ** The exit status *)
(* ------------------------------------------------------------------ *)

Lemma exec_exit_zero s l s' :
  (∀ k, coord s = CExit k → k = 0) → exec s l = Some s' →
  ∀ k, coord s' = CExit k → k = 0.
Proof.
  intros Hs H k Hk.
  destruct l; exec_inv H; cbn [coord] in Hk; simplify_eq;
    try (by apply Hs); try done; congruence.
Qed.

Lemma exec_trace_exit tr : ∀ s s' code,
  (∀ k, coord s = CExit k → k = 0) →
  exec_trace s tr = Some s' → coord s' = CExit code → code = 0.
Proof.
  induction tr as [|l tr IH]; intros s s' code Hs H Hc; simpl in H; simplify_eq.
  { by apply Hs. }
  destruct (exec s l) as [s1|] eqn:E; simpl in H; [|done].
  eapply (IH s1); [|done..]. by eapply exec_exit_zero.
Qed.

Lemma init_exit c dir σ0 tr s code :
  exec_trace (init_state c dir σ0) tr = Some s → coord s = CExit code → code = 0.
Proof.
  intros H Hc. eapply exec_trace_exit; [|exact H|exact Hc].
  intros k Hk. discriminate Hk.
Qed.




(** The other ways out: an interrupt with no failure, no command, a
    parallelism below 1, and a temporary directory that cannot be made. *)
Example exit_status_of_other_runs :
  main_exit Sample.one_lane Sample.first Sample.bare Sample.interrupted_run
  = Some 0 ∧
  err <$> exec_trace (init_state Sample.one_lane "" Sample.bare)
                     Sample.interrupted_run = Some None ∧
  main_exit (mkconfig 4 "" []) Sample.first Sample.bare [] = Some 2 ∧
  main_exit (mkconfig 0 "" []) Sample.first Sample.bare [] = Some 1 ∧
  main_exit (mkconfig 4 "/nowhere" ["/bin/true"]) Sample.first Sample.bare []
  = Some 1.
Proof. split_and!; vm_compute; reflexivity. Qed.

(* ------------------------------------------------------------------ *)
(** ** Runs, one step at a time *)
(* ------------------------------------------------------------------ *)

Lemma exec_trace_app tr1 : ∀ s tr2,
  exec_trace s (tr1 ++ tr2) = s1 ← exec_trace s tr1; exec_trace s1 tr2.
Proof.
  induction tr1 as [|l tr1 IH]; intros s tr2; simpl; [done|].
  destruct (exec s l) as [s1|]; simpl; [apply IH|done].
Qed.

Lemma exec_trace_snoc s tr l s' :
  exec_trace s (tr ++ [l]) = Some s' ↔
  ∃ s1, exec_trace s tr = Some s1 ∧ exec s1 l = Some s'.
Proof.
  rewrite exec_trace_app. split.
  - destruct (exec_trace s tr) as [s1|]; simpl; [|done].
    destruct (exec s1 l) as [s2|] eqn:E; simpl; [|done].
    intros [= <-]. by exists s1.
  - intros (s1 & -> & E). simpl. by rewrite E.
Qed.

(** Induction on the runs from a state, by their last step. *)
Lemma run_ind (s0 : state) (P : list label → state → Prop) :
  P [] s0 →
  (∀ tr s l s', exec_trace s0 tr = Some s → P tr s → exec s l = Some s' →
                P (tr ++ [l]) s') →
  ∀ tr s, exec_trace s0 tr = Some s → P tr s.
Proof.
  intros Hinit Hstep tr. induction tr as [|l tr IH] using rev_ind; intros s H.
  - simpl in H. by simplify_eq.
  - apply exec_trace_snoc in H as (s1 & H1 & E). eauto.
Qed.

Lemma claimed_app tr1 : ∀ s s1 tr2,
  exec_trace s tr1 = Some s1 →
  claimed s (tr1 ++ tr2) = claimed s tr1 ++ claimed s1 tr2.
Proof.
  induction tr1 as [|l tr1 IH]; intros s s1 tr2 H; simpl in H.
  { by simplify_eq. }
  destruct (exec s l) as [s'|] eqn:E; simpl in H; [|done].
  cbn [app]. rewrite !(claimed_cons _ _ _ _ E), (IH _ _ _ H).
  by destruct l.
Qed.

Lemma delivered_app tr1 : ∀ s s1 tr2,
  exec_trace s tr1 = Some s1 →
  delivered s (tr1 ++ tr2) = delivered s tr1 ++ delivered s1 tr2.
Proof.
  induction tr1 as [|l tr1 IH]; intros s s1 tr2 H; simpl in H.
  { by simplify_eq. }
  destruct (exec s l) as [s'|] eqn:E; simpl in H; [|done].
  cbn [app delivered]. rewrite E, (IH _ _ _ H).
  destruct l; try done. by repeat case_match.
Qed.

Lemma tally_app f tr1 tr2 : tally f (tr1 ++ tr2) = (tally f tr1 + tally f tr2)%nat.
Proof. induction tr1 as [|l tr1 IH]; simpl; [done|]. rewrite IH. lia. Qed.

Lemma exec_length s l s' :
  exec s l = Some s' → length (workers s') = length (workers s).
Proof.
  intros H. destruct l; exec_inv H; cbn [workers]; by rewrite ?length_insert.
Qed.

Lemma exec_root s l s' : exec s l = Some s' → root s' = root s.
Proof. intros H. destruct l; exec_inv H; done. Qed.

(** What a step of worker [i] does to the worker's entry: the cases. *)
Lemma exec_worker_cases s l s' i :
  exec s l = Some s' → actor l = Some i →
  ∃ pc w pc' w',
    workers s !! i = Some (pc, w) ∧
    workers s' = <[i := (pc', w')]> (workers s) ∧
    ((l = LCheck i ∧ pc = WTop ∧ pc' = (if ctx_done s then WDone else WClaim)
      ∧ w' = w ∧ σ s' = σ s) ∨
     (l = LClaim i ∧ pc = WClaim ∧ pc' = WRun (id s') ∧ w' = w ∧ σ s' = σ s) ∨
     (∃ a o, l = LRun i o ∧ pc = WRun a ∧
             run w a o (σ s) = (σ s', w', match pc' with WSend e => e | _ => None end,
                                (run w a o (σ s)).2) ∧
             ∃ e, pc' = WSend e) ∨
     (∃ e, l = LSend i ∧ pc = WSend e ∧ coord s = CLoop ∧
           pc' = match e with Some _ => WDone | None => WTop end ∧ w' = w
           ∧ σ s' = σ s) ∨
     (∃ e, l = LAbandon i ∧ pc = WSend e ∧ ctx_done s = true ∧ pc' = WDone
           ∧ w' = w ∧ σ s' = σ s)).
Proof.
  intros H Ha.
  destruct l; simpl in Ha; simplify_eq; exec_inv H; cbn [workers σ id];
    do 4 eexists; (split; [done|]); (split; [done|]).
  - left. done.
  - left. done.
  - right; left. done.
  - right; right; left. do 2 eexists. split_and!; try done.
    + match goal with E : run _ _ _ _ = _ |- _ => rewrite E end. done.
    + by eexists.
  - right; right; right; left. eexists. done.
  - right; right; right; left. eexists. done.
  - right; right; right; right. eexists. done.
Qed.

Lemma exec_main_workers s l s' :
  exec s l = Some s' → actor l = None →
  workers s' = workers s ∧ id s' = id s ∧
  (σ s' = σ s ∨ ∃ e, l = LReport e).
Proof.
  intros H Ha. destruct l; simpl in Ha; simplify_eq; exec_inv H;
    cbn [workers id σ]; split_and!; try done; (by left) || (right; by eexists).
Qed.

(* ------------------------------------------------------------------ *)
(** ** The pool, the join and the end of a run *)
(* ------------------------------------------------------------------ *)

Lemma all_done_joined s : all_done s = true ↔ joined s.
Proof.
  unfold all_done, joined. rewrite forallb_forall. split.
  - intros H i pc w Hi.
    assert (In (pc, w) (workers s)) as Hin.
    { apply list_elem_of_In. by eapply list_elem_of_lookup_2. }
    specialize (H _ Hin). simpl in H. by destruct pc.
  - intros H [pc w] Hin. apply list_elem_of_In, list_elem_of_lookup in Hin as [i Hi].
    by rewrite (H _ _ _ Hi).
Qed.

Lemma joined_no_worker_step s l i :
  joined s → actor l = Some i → exec s l = None.
Proof.
  intros Hj Ha. destruct (exec s l) as [s'|] eqn:E; [|done].
  destruct (exec_worker_cases _ _ _ _ E Ha) as (pc & w & pc' & w' & Hw & _ & Hc).
  rewrite (Hj _ _ _ Hw) in Hc.
  destruct Hc as [(_&?&_)|[(_&?&_)|[(a&o&_&?&_)|[(e&_&?&_)|(e&_&?&_)]]]]; done.
Qed.

Lemma exec_after_join s l s' :
  (after_join s → joined s) → exec s l = Some s' → after_join s' → joined s'.
Proof.
  intros Hs H Ha'.
  destruct (actor l) as [i|] eqn:Hact.
  - assert (coord s' = coord s ∨ coord s' = CBreak ∨ coord s' = CLoop) as Hc.
    { destruct l; simpl in Hact; simplify_eq; exec_inv H; cbn [coord]; auto. }
    assert (after_join s) as Ha.
    { unfold after_join in *.
      destruct Hc as [Hc|[Hc|Hc]]; [by rewrite <- Hc| |];
        destruct Ha' as [Ha'|[k Ha']]; congruence. }
    by rewrite (joined_no_worker_step _ _ _ (Hs Ha) Hact) in H.
  - intros i pc w Hi.
    destruct l; simpl in Hact; simplify_eq; exec_inv H; cbn [coord workers] in *;
      try (unfold after_join in Ha'; cbn [coord] in Ha';
           destruct Ha' as [?|[? ?]]; congruence).
    all: try (eapply Hs; [left; done|done]).
    match goal with E : all_done _ = true |- _ => apply all_done_joined in E end.
    eauto.
Qed.

Lemma reach_after_join c dir σ0 tr s :
  exec_trace (init_state c dir σ0) tr = Some s → after_join s → joined s.
Proof.
  revert tr s. apply (run_ind _ (λ _ s, after_join s → joined s)).
  - intros [H|[k H]]; discriminate H.
  - intros tr s l s' _ IH E. by eapply exec_after_join.
Qed.

(** X1. The pool of a run keeps the shape main gave it: as many workers
    as [-p] says, each with the command of the command line and the run's
    directory, from the start to the end of the run. *)
Theorem pool_shape (c : config) (dir : string) (σ0 : world)
    (tr : list label) (s : state) :
  exec_trace (init_state c dir σ0) tr = Some s →
  length (workers s) = Z.to_nat (parallelism c) ∧
  (∀ i, is_Some (pc_of s i) ↔ (i < Z.to_nat (parallelism c))%nat) ∧
  (∀ i pc w, workers s !! i = Some (pc, w) → cmd w = args c ∧ tmpdir w = dir) ∧
  root s = dir.
Proof.
  intros H.
  assert (length (workers s) = Z.to_nat (parallelism c)) as Hlen.
  { revert tr s H.
    apply (run_ind _ (λ _ s, length (workers s) = Z.to_nat (parallelism c))).
    - simpl. by rewrite length_replicate.
    - intros tr s l s' _ IH E. by rewrite (exec_length _ _ _ E). }
  destruct (exec_trace_workers_cfg c tr _ _ (init_workers_cfg c dir σ0) H)
    as [Hcfg Hroot].
  cbn [init_state root] in Hroot.
  split_and!; [done| |by rewrite <- Hroot|done].
  intros i. unfold pc_of. rewrite fmap_is_Some, lookup_lt_is_Some. by rewrite Hlen.
Qed.

Lemma pool_shape_witness :
  exec_trace (init_state Sample.two_lanes "" Sample.bare) Sample.racing_run
  = Some Sample.after_race ∧
  length (workers Sample.after_race) = 2%nat.
Proof.
  assert (exec_trace (init_state Sample.two_lanes "" Sample.bare)
                     Sample.racing_run = Some Sample.after_race)
    as E by (vm_compute; reflexivity).
  split; [exact E|].
  exact (proj1 (pool_shape Sample.two_lanes "" Sample.bare Sample.racing_run
                  Sample.after_race E)).
Defined.

(** X2. Main reports only after every worker has returned: in a state
    after [wg.Wait()] all workers are done, the only step left is the
    report, and after the exit there is no step at all. *)
Theorem report_waits_for_workers (c : config) (dir : string) (σ0 : world)
    (tr : list label) (s : state) :
  exec_trace (init_state c dir σ0) tr = Some s →
  after_join s →
  joined s ∧
  (∀ l s', exec s l = Some s' → coord s = CReport ∧ ∃ e, l = LReport e).
Proof.
  intros H Ha. pose proof (reach_after_join _ _ _ _ _ H Ha) as Hj.
  split; [done|]. intros l s' E.
  destruct (actor l) as [i|] eqn:Hact.
  { by rewrite (joined_no_worker_step _ _ _ Hj Hact) in E. }
  unfold after_join in Ha.
  destruct l; simpl in Hact; simplify_eq; exec_inv E;
    try (destruct Ha as [?|[? ?]]; congruence); split; try done; by eexists.
Qed.

Lemma report_waits_for_workers_witness :
  (exec_trace (init_state Sample.one_lane "" Sample.bare) Sample.failing_run
   = Some (mkstate true 1 [(WDone, Sample.plain ["/bin/false"])] 0
                   (Some (runError (Exited 1) (Slice 0 0 0))) (CExit 0) ""
                   Sample.bare) ∧
   after_join (mkstate true 1 [(WDone, Sample.plain ["/bin/false"])] 0
                       (Some (runError (Exited 1) (Slice 0 0 0))) (CExit 0) ""
                       Sample.bare)) ∧
  joined (mkstate true 1 [(WDone, Sample.plain ["/bin/false"])] 0
                  (Some (runError (Exited 1) (Slice 0 0 0))) (CExit 0) ""
                  Sample.bare).
Proof.
  assert (exec_trace (init_state Sample.one_lane "" Sample.bare)
                     Sample.failing_run
          = Some (mkstate true 1 [(WDone, Sample.plain ["/bin/false"])] 0
                          (Some (runError (Exited 1) (Slice 0 0 0))) (CExit 0) ""
                          Sample.bare))
    as E by (vm_compute; reflexivity).
  assert (after_join (mkstate true 1 [(WDone, Sample.plain ["/bin/false"])] 0
                              (Some (runError (Exited 1) (Slice 0 0 0)))
                              (CExit 0) "" Sample.bare))
    as Ha by (right; by exists 0).
  split; [by split|].
  exact (proj1 (report_waits_for_workers Sample.one_lane "" Sample.bare
                  Sample.failing_run _ E Ha)).
Defined.

(* ------------------------------------------------------------------ *)
(** ** What main receives and counts *)
(* ------------------------------------------------------------------ *)

Lemma delivered_one s l s' :
  exec s l = Some s' →
  delivered s [l] =
  match l with
  | LSend i => match pc_of s i with Some (WSend e) => [e] | _ => [] end
  | _ => []
  end.
Proof.
  intros H. cbn [delivered]. rewrite H. destruct l; try done;
    by repeat case_match.
Qed.

(** What a step does to main's variables [n] and [err]. *)
Lemma exec_main_vars s l s' :
  exec s l = Some s' → coord_inv s →
  match l with
  | LSend i =>
      ∃ e, pc_of s i = Some (WSend e) ∧ err s = None ∧ err s' = e ∧
           n s' = match e with None => wrap64 (n s + 1) | Some _ => n s end
  | _ => n s' = n s ∧ err s' = err s
  end.
Proof.
  intros H [_ Hloop]. unfold pc_of.
  destruct l; exec_inv H; cbn [n err]; try done.
  all: eexists; split_and!; [reflexivity|by apply Hloop|done..].
Qed.

(** X3. Main counts the successes it receives and keeps the first failure:
    what it has received is [n] times nil, followed by [err] if that is not
    nil. So a failure is the last thing main receives, and [n] is the number
    of successes received before it (for fewer than 2^63 of them). *)
Theorem first_failure_wins (c : config) (dir : string) (σ0 : world)
    (tr : list label) (s : state) :
  exec_trace (init_state c dir σ0) tr = Some s →
  Z.of_nat (length (delivered (init_state c dir σ0) tr)) ≤ int64_max →
  0 ≤ n s ∧
  delivered (init_state c dir σ0) tr
  = replicate (Z.to_nat (n s)) None ++
    match err s with Some e => [Some e] | None => [] end.
Proof.
  revert tr s.
  apply (run_ind _ (λ tr s,
    Z.of_nat (length (delivered (init_state c dir σ0) tr)) ≤ int64_max →
    0 ≤ n s ∧
    delivered (init_state c dir σ0) tr
    = replicate (Z.to_nat (n s)) None ++
      match err s with Some e => [Some e] | None => [] end)).
  - intros _. by split.
  - intros tr s l s' Htr IH E Hb.
    rewrite (delivered_app _ _ _ _ Htr), (delivered_one _ _ _ E) in Hb |- *.
    pose proof (exec_trace_coord_inv _ _ _ (init_coord_inv c dir σ0) Htr) as Hinv.
    pose proof (exec_main_vars _ _ _ E Hinv) as Hv.
    destruct l;
      try (destruct Hv as [-> ->]; rewrite app_nil_r in Hb |- *; by apply IH).
    destruct Hv as (e & Hpc & Herr & Herr' & Hn').
    rewrite Hpc in Hb |- *. rewrite length_app in Hb. simpl in Hb.
    destruct IH as [Hn Hd]; [lia|].
    rewrite Herr in Hd. rewrite app_nil_r in Hd. rewrite Hd in Hb |- *.
    rewrite Herr'. rewrite length_replicate in Hb.
    destruct e as [e|].
    + rewrite Hn'. done.
    + rewrite wrap64_small in Hn' by (unfold int64_min; lia).
      rewrite Hn'. split; [lia|]. rewrite app_nil_r.
      replace (Z.to_nat (n s + 1)) with (S (Z.to_nat (n s))) by lia.
      by rewrite replicate_S_end.
Qed.

Lemma first_failure_wins_witness :
  (exec_trace (init_state Scenario.scratch_lanes "/tmp/flake-1" Scenario.with_tmp)
              Scenario.full_run
   = Some Scenario.full_run_end ∧
   Z.of_nat (length (delivered (init_state Scenario.scratch_lanes "/tmp/flake-1"
                                           Scenario.with_tmp)
                               Scenario.full_run)) ≤ int64_max) ∧
  delivered (init_state Scenario.scratch_lanes "/tmp/flake-1" Scenario.with_tmp)
            Scenario.full_run
  = [None; Some (runError (Exited 3) (Slice 1 5 5))].
Proof.
  assert (exec_trace (init_state Scenario.scratch_lanes "/tmp/flake-1"
                                 Scenario.with_tmp) Scenario.full_run
          = Some Scenario.full_run_end) as E by (vm_compute; reflexivity).
  assert (Z.of_nat (length (delivered (init_state Scenario.scratch_lanes
                                         "/tmp/flake-1" Scenario.with_tmp)
                                      Scenario.full_run)) ≤ int64_max)
    as Hb by (by vm_compute).
  split; [by split|].
  rewrite (proj2 (first_failure_wins Scenario.scratch_lanes "/tmp/flake-1"
                    Scenario.with_tmp Scenario.full_run Scenario.full_run_end
                    E Hb)).
  reflexivity.
Defined.

(* ------------------------------------------------------------------ *)
(** ** A command that never fails *)
(* ------------------------------------------------------------------ *)

Lemma run_plain_success w i o σ0 :
  tmpdir w = "" → (∃ chunks files, child o = Runs chunks files (Exited 0)) →
  (run w i o σ0).1.2 = None.
Proof.
  intros Ht (chunks & files & Hc).
  pose proof (run_error w i o σ0) as H. unfold mkdir_step in H.
  rewrite decide_False in H by (by rewrite Ht; intros []).
  rewrite Hc in H. by rewrite decide_True in H.
Qed.

Lemma exec_quiet c s l s' :
  workers_cfg c s → root s = "" → quiet s → child_succeeds l →
  exec s l = Some s' → quiet s' ∧ (coord s = CLoop → l ≠ LSignal → coord s' = CLoop).
Proof.
  intros Hcfg Hroot [Herr Hw] Hl H.
  destruct (actor l) as [i|] eqn:Hact.
  - destruct (exec_worker_cases _ _ _ _ H Hact)
      as (pc & w & pc' & w' & Hi & Hws & Hc).
    assert (∀ e, pc' = WSend e → e = None) as Hnew.
    { intros e ->.
      destruct Hc as [(_&_&Hp&_)|[(_&_&Hp&_)|[(a&o&->&->&Hr&_)|[(e0&_&_&_&Hp&_)|(e0&_&_&_&Hp&_)]]]].
      - by destruct (ctx_done s).
      - done.
      - destruct (Hcfg _ _ _ Hi) as [_ Ht]. rewrite Hroot in Ht.
        pose proof (run_plain_success w a o (σ s) Ht Hl) as Hn.
        rewrite Hr in Hn. done.
      - by destruct e0.
      - done. }
    assert (err s' = None ∧ (coord s = CLoop → coord s' = CLoop)) as [Herr' Hco].
    { destruct l; simpl in Hact; simplify_eq; exec_inv H; cbn [err coord]; try done.
      by specialize (Hw _ _ _ ltac:(done)). }
    split; [|auto]. split; [done|].
    intros j e w0 Hj. rewrite Hws in Hj.
    destruct (decide (i = j)) as [->|Hij].
    + rewrite list_lookup_insert_eq in Hj by (by eapply lookup_lt_Some).
      simplify_eq. by apply Hnew.
    + rewrite list_lookup_insert_ne in Hj by done. by eapply Hw.
  - destruct (exec_main_workers _ _ _ H Hact) as (Hws & _ & _).
    assert (err s' = err s ∧ (coord s = CLoop → l ≠ LSignal → coord s' = CLoop))
      as [Herr' Hco].
    { destruct l; simpl in Hact; simplify_eq; exec_inv H; cbn [err coord];
        split; try done; congruence. }
    split; [|done]. split; [congruence|]. rewrite Hws. done.
Qed.

(** X4. Without scratch directories, as long as every child exits with 0
    no worker ever holds an error and main's [err] stays nil, main receives
    only successes, and main leaves its loop only when a signal arrived: a
    command that never fails is run until the interrupt. *)
Theorem succeeding_command_runs_until_interrupt (c : config) (σ0 : world)
    (tr : list label) (s : state) :
  exec_trace (init_state c "" σ0) tr = Some s →
  Forall child_succeeds tr →
  quiet s ∧
  Forall (λ e, e = None) (delivered (init_state c "" σ0) tr) ∧
  (coord s ≠ CLoop → LSignal ∈ tr).
Proof.
  revert tr s.
  apply (run_ind _ (λ tr s,
    Forall child_succeeds tr →
    quiet s ∧
    Forall (λ e, e = None) (delivered (init_state c "" σ0) tr) ∧
    (coord s ≠ CLoop → LSignal ∈ tr))).
  - intros _. split_and!; [|done|done].
    split; [done|]. intros i e w H. unfold init_state in H. cbn [workers] in H.
    by apply lookup_replicate in H as [[= ] _].
  - intros tr s l s' Htr IH E Hall.
    apply Forall_app in Hall as [Hall Hl]. rewrite Forall_singleton in Hl.
    destruct (IH Hall) as (Hq & Hd & Hsig).
    destruct (exec_trace_workers_cfg c tr _ _ (init_workers_cfg c "" σ0) Htr)
      as [Hcfg Hroot]. cbn [init_state root] in Hroot.
    destruct (exec_quiet _ _ _ _ Hcfg Hroot Hq Hl E) as [Hq' Hloop].
    split_and!; [done| |].
    + rewrite (delivered_app _ _ _ _ Htr), (delivered_one _ _ _ E).
      apply Forall_app. split; [done|].
      destruct l; try by constructor.
      unfold pc_of. destruct (workers s !! i) as [[[] w]|] eqn:Hi; simpl;
        try by constructor.
      constructor; [|done]. by eapply (proj2 Hq).
    + intros Hne. apply elem_of_app.
      assert (coord s = CLoop ∨ coord s ≠ CLoop) as [Hc|Hc]
        by (destruct (coord s); auto; by right).
      * right. apply list_elem_of_singleton.
        destruct l; try (by destruct Hne; apply Hloop); done.
      * left. by apply Hsig.
Qed.

Lemma succeeding_command_runs_until_interrupt_witness :
  (exec_trace (init_state Sample.one_lane "" Sample.bare) Scenario.calm_run
   = Some Scenario.calm_run_end ∧
   Forall child_succeeds Scenario.calm_run) ∧
  LSignal ∈ Scenario.calm_run.
Proof.
  assert (exec_trace (init_state Sample.one_lane "" Sample.bare) Scenario.calm_run
          = Some Scenario.calm_run_end) as E by (vm_compute; reflexivity).
  assert (Forall child_succeeds Scenario.calm_run) as Hall.
  { unfold Scenario.calm_run. repeat constructor; simpl; by do 2 eexists. }
  split; [by split|].
  apply (proj2 (proj2 (succeeding_command_runs_until_interrupt Sample.one_lane
                         Sample.bare Scenario.calm_run Scenario.calm_run_end
                         E Hall))).
  by vm_compute.
Defined.

(* ------------------------------------------------------------------ *)
(** ** The directory of the run *)
(* ------------------------------------------------------------------ *)

Lemma mkdir_check_exist name fault σ0 :
  mkdir_check name fault σ0 = MkExist → path_exists σ0 name.
Proof.
  unfold mkdir_check. destruct (has_nul name); [done|].
  case_decide; [done|]. destruct fault; [done|].
  case_decide; [done|]. by case_decide.
Qed.

(** The loop of [os.MkdirTemp] ends with a directory only at a number
    whose name is new, after numbers whose names all exist. *)
Lemma MkdirTemp_loop_inl tries : ∀ try dir prefix suffix rnd fault σ0 σ1 name,
  MkdirTemp_loop tries try dir prefix suffix rnd fault σ0 = inl (σ1, name) →
  ∃ k, (try ≤ k < try + tries)%nat ∧
       name = prefix +:+ nextRandom (rnd k) +:+ suffix ∧
       os_Mkdir name fault σ0 = inl σ1 ∧
       ∀ j, (try ≤ j < k)%nat →
            path_exists σ0 (prefix +:+ nextRandom (rnd j) +:+ suffix).
Proof.
  induction tries as [|tries IH]; intros try dir prefix suffix rnd fault σ0 σ1 name H;
    cbn [MkdirTemp_loop] in H; [done|].
  set (n := prefix +:+ nextRandom (rnd try) +:+ suffix) in *.
  assert (match os_Mkdir n fault σ0 with
          | inl σ' => inl (σ', n)
          | inr cause => inr cause
          end = inl (σ1, name) →
          ∃ k, (try ≤ k < try + S tries)%nat ∧
               name = prefix +:+ nextRandom (rnd k) +:+ suffix ∧
               os_Mkdir name fault σ0 = inl σ1 ∧
               ∀ j, (try ≤ j < k)%nat →
                    path_exists σ0 (prefix +:+ nextRandom (rnd j) +:+ suffix))
    as Hmade.
  { destruct (os_Mkdir n fault σ0) as [σ'|cause] eqn:E; [|done].
    intros [= <- <-]. exists try.
    split; [lia|]. split; [done|]. split; [done|]. intros j Hj. lia. }
  destruct (mkdir_check n fault σ0) eqn:Hck; try by apply Hmade.
  - destruct (IH _ _ _ _ _ _ _ _ _ H) as (k & Hk & Hname & Hmk & Hbefore).
    exists k. split; [lia|]. split; [done|]. split; [done|].
    intros j Hj. destruct (decide (j = try)) as [->|Hne].
    + by eapply mkdir_check_exist.
    + apply Hbefore. lia.
  - case_decide; [by apply Hmade|done].
Qed.

Lemma numeric_nextRandom r :
  only numeric (nextRandom r) = true ∧ nextRandom r ≠ "".
Proof. apply numeric_pretty_N. Qed.

Lemma exec_report s f s' :
  exec s (LReport f) = Some s' →
  coord s' = CExit 0 ∧
  σ s' = (if decide (root s ≠ "")
          then (os_RemoveAll (root s) (cleanup f) (σ s)).1 else σ s).
Proof.
  unfold exec. destruct (coord s); try done. intros [= <-].
  cbn [coord σ]. by destruct (err s).
Qed.

(** X5. With [-tmpdir] given and the workers started, the directory of the
    run is a new directory in the one given: its name is that directory's,
    a separator unless it ends with one, and [flake-] with a random number;
    the names tried before it all exist. It did not exist before, it exists
    when the workers start, and every worker uses it. When main reports and
    leaves, the exit status is 0, and unless the deferred removal fails
    neither the directory nor anything below it is left. *)
Theorem run_directory_lifecycle (c : config) (su : startup) (σ0 : world)
    (s0 : state) :
  main_start c su σ0 = inr s0 → tmpdir_flag c ≠ "" →
  (∃ k : nat,
     Z.of_nat k < 10000 ∧
     root s0 = joinPath (tmpdir_flag c) "flake-" +:+ nextRandom (rnd su k) ∧
     ∀ j, (j < k)%nat →
          path_exists σ0 (joinPath (tmpdir_flag c) "flake-" +:+ nextRandom (rnd su j))) ∧
  ¬ path_exists σ0 (root s0) ∧ path_exists (σ s0) (root s0) ∧
  (∀ i pc w, workers s0 !! i = Some (pc, w) → tmpdir w = root s0) ∧
  (∀ tr f s, exec_trace s0 (tr ++ [LReport f]) = Some s →
     coord s = CExit 0 ∧
     (cleanup f = None → ∀ p, under (Clean (root s0)) p → p ∉ w_fs (σ s))).
Proof.
  intros Hstart Hflag. unfold main_start in Hstart.
  repeat case_decide; try done.
  destruct (os_MkdirTemp _ _ _ _ _) as [[σ1 dir]|cause] eqn:Emk; [|done].
  simplify_eq. cbn [init_state root σ].
  unfold os_MkdirTemp in Emk. rewrite decide_False in Emk by done.
  change (prefixAndSuffix "flake-") with (Some ("flake-", "")) in Emk.
  cbn iota beta in Emk.
  apply MkdirTemp_loop_inl in Emk as (k & Hk & Hname & Hmk & Hbefore).
  rewrite string_app_nil_r in Hname.
  apply os_Mkdir_inl in Hmk as [-> Hck].
  apply mkdir_check_ok in Hck as (Hnul & Hne & _ & Hnew & _).
  destruct (numeric_nextRandom (rnd su k)) as [Hnum Hnz].
  split_and!.
  - exists k. split_and!; [lia|done|].
    intros j Hj. specialize (Hbefore j ltac:(lia)).
    by rewrite string_app_nil_r in Hbefore.
  - done.
  - split_and!; [done..|]. left. cbn [set_fs w_fs].
    apply elem_of_union. left. by apply elem_of_singleton.
  - intros i pc w Hi. by apply lookup_replicate in Hi as [[= -> ->] _].
  - intros tr f s Htr.
    apply exec_trace_snoc in Htr as (s1 & Htr & E).
    destruct (exec_trace_workers_cfg c tr _ _ (init_workers_cfg c dir _) Htr)
      as [_ Hroot]. cbn [init_state root] in Hroot.
    apply exec_report in E as [Hc Hσ]. split; [done|].
    intros Hf p Hp. rewrite Hσ, Hroot, Hf. rewrite decide_True by done.
    apply os_RemoveAll_gone; [done| |done..].
    rewrite Hname. by apply endsWithDot_numeric.
Qed.

Lemma run_directory_lifecycle_witness :
  (main_start Scenario.scratch_lanes Sample.first Scenario.fresh_tmp
   = inr (init_state Scenario.scratch_lanes "/tmp/flake-1" Scenario.with_tmp) ∧
   tmpdir_flag Scenario.scratch_lanes ≠ "") ∧
  ¬ path_exists Scenario.fresh_tmp "/tmp/flake-1" ∧
  path_exists Scenario.with_tmp "/tmp/flake-1".
Proof.
  assert (tmpdir_flag Scenario.scratch_lanes ≠ "") as Hf by done.
  assert (main_start Scenario.scratch_lanes Sample.first Scenario.fresh_tmp
          = inr (init_state Scenario.scratch_lanes "/tmp/flake-1" Scenario.with_tmp))
    as E by (vm_compute; reflexivity).
  split; [by split|].
  destruct (run_directory_lifecycle Scenario.scratch_lanes Sample.first
              Scenario.fresh_tmp _ E Hf) as (_ & H1 & H2 & _).
  split; [exact H1|exact H2].
Defined.

(* ------------------------------------------------------------------ *)
(** ** Memory across the workers *)
(* ------------------------------------------------------------------ *)

Lemma Buffer_Write_frame h b p h' b' :
  buf_ok h b → Buffer_Write h b p = (h', b') →
  (∀ a, (a < length h)%nat → s_cap (buf b) = 0%nat ∨ a ≠ s_arr (buf b) →
        h' !! a = h !! a) ∧
  same_or_fresh h b b'.
Proof.
  destruct b as [[a0 l c]]. unfold buf_ok, Buffer_Write, same_or_fresh.
  cbn [buf s_arr s_len s_cap]. intros [Hle Hc] Hw.
  destruct (decide _) as [Hfit|Hfit]; simplify_eq; cbn [buf s_arr s_len s_cap].
  - split; [|by left]. intros a Ha [->|Hne].
    + assert (length p = 0%nat) as Hp by lia.
      apply nil_length_inv in Hp. subst p.
      rewrite list_alter_id; [done|]. intros; apply store_at_nil.
    + by rewrite list_lookup_alter_ne.
  - split; [|right; lia]. intros a Ha _. by rewrite lookup_app_l.
Qed.

Lemma Buffer_WriteAll_frame chunks : ∀ h b h' b',
  buf_ok h b → Buffer_WriteAll h b chunks = (h', b') →
  (∀ a, (a < length h)%nat → s_cap (buf b) = 0%nat ∨ a ≠ s_arr (buf b) →
        h' !! a = h !! a) ∧
  same_or_fresh h b b'.
Proof.
  induction chunks as [|p rest IH]; intros h b h' b' Hok Hw; simpl in Hw.
  { simplify_eq. split; [done|by left]. }
  destruct (Buffer_Write h b p) as [h1 b1] eqn:E1.
  destruct (Buffer_Write_spec _ _ _ _ _ Hok E1) as (Hok1 & _ & Hlen1 & _).
  destruct (Buffer_Write_frame _ _ _ _ _ Hok E1) as [Hfr1 Hsf1].
  destruct (IH _ _ _ _ Hok1 Hw) as [Hfr2 Hsf2].
  split.
  - intros a Ha Hown. rewrite Hfr2, Hfr1; [done..|lia|].
    destruct Hsf1 as [[-> ->]|Hf]; [done|]. right. lia.
  - unfold same_or_fresh in *.
    destruct Hsf2 as [[-> ->]|Hf2]; [done|]. right. lia.
Qed.

Lemma slices_Clone_frame h s h' out :
  slices_Clone h s = (h', out) →
  (∀ a, (a < length h)%nat → h' !! a = h !! a) ∧
  (s_len out = 0%nat ∨ s_arr out = length h).
Proof.
  unfold slices_Clone. case_decide; intros [= <- <-]; cbn [s_len s_arr].
  - split; [done|by left].
  - split; [|by right]. intros a Ha. by rewrite lookup_app_l.
Qed.

Lemma run_cmd_frame w c o σ0 σ' w' e evs :
  buf_ok (w_heap σ0) (Stdout c) → run_cmd w c o σ0 = (σ', w', e, evs) →
  (∀ a, (a < length (w_heap σ0))%nat →
        s_cap (buf (Stdout c)) = 0%nat ∨ a ≠ s_arr (buf (Stdout c)) →
        w_heap σ' !! a = w_heap σ0 !! a) ∧
  same_or_fresh (w_heap σ0) (Stdout c) (outBuf w') ∧
  (∀ st out, e = Some (runError st out) →
             s_len out = 0%nat ∨ (length (w_heap σ0) ≤ s_arr out)%nat).
Proof.
  intros Hok Hrun. unfold run_cmd, Cmd_Run in Hrun.
  destruct (child o) as [cause|chunks files st] eqn:Ech.
  - simplify_eq. cbn [outBuf]. split_and!; [done|by left|done].
  - destruct (Buffer_WriteAll (w_heap σ0) (Stdout c) chunks) as [h1 b1] eqn:Ew.
    destruct (Buffer_WriteAll_spec _ _ _ _ _ Hok Ew) as (_ & _ & Hlen1 & _).
    destruct (Buffer_WriteAll_frame _ _ _ _ _ Hok Ew) as [Hfr1 Hsf1].
    case_decide.
    + simplify_eq. cbn [outBuf w_heap]. done.
    + cbn [w_heap] in Hrun.
      destruct (slices_Clone h1 (Buffer_Bytes b1)) as [h2 out] eqn:Ecl.
      destruct (slices_Clone_frame _ _ _ _ Ecl) as [Hfr2 Hout].
      simplify_eq. cbn [outBuf w_heap set_heap]. split_and!; [|done|].
      * intros a Ha Hown. rewrite Hfr2, Hfr1; [done..|lia].
      * intros st0 out0 [= <- <-]. destruct Hout as [?| ->]; [by left|right; lia].
Qed.

Lemma run_frame w i o σ0 σ' w' e evs :
  buf_ok (w_heap σ0) (outBuf w) → run w i o σ0 = (σ', w', e, evs) →
  (∀ a, (a < length (w_heap σ0))%nat →
        s_cap (buf (outBuf w)) = 0%nat ∨ a ≠ s_arr (buf (outBuf w)) →
        w_heap σ' !! a = w_heap σ0 !! a) ∧
  same_or_fresh (w_heap σ0) (outBuf w) (outBuf w') ∧
  (∀ st out, e = Some (runError st out) →
             s_len out = 0%nat ∨ (length (w_heap σ0) ≤ s_arr out)%nat).
Proof.
  intros Hok Hrun.
  destruct (Buffer_Reset_spec _ _ Hok) as (Hok0 & _ & _).
  unfold run in Hrun. case_decide.
  - destruct (os_Mkdir _ _ _) as [σ1|cause] eqn:Emk.
    + apply os_Mkdir_heap in Emk.
      destruct (run_cmd _ _ _ _) as [[[σ2 w2] e2] evs2] eqn:Erc.
      simplify_eq. rewrite os_RemoveAll_heap.
      apply run_cmd_frame in Erc; cbn [Stdout commandContext] in *;
        [|by rewrite Emk].
      rewrite Emk in Erc. done.
    + simplify_eq. cbn [outBuf commandContext Stdout].
      split_and!; [done|by left|done].
  - apply run_cmd_frame in Hrun; cbn [Stdout commandContext] in *; done.
Qed.

Lemma exec_heap_main s l s' :
  exec s l = Some s' → actor l = None → w_heap (σ s') = w_heap (σ s).
Proof.
  intros H Ha. destruct l; simpl in Ha; simplify_eq; exec_inv H; cbn [σ];
    try case_decide; rewrite ?os_RemoveAll_heap; done.
Qed.

(** What a step does to the workers' buffers and to the heap. *)
Lemma exec_mem_cases s l s' :
  exec s l = Some s' →
  (w_heap (σ s') = w_heap (σ s) ∧
   ∀ j, (snd <$> workers s' !! j) = (snd <$> workers s !! j)) ∨
  (∃ i a o pc w e w',
     l = LRun i o ∧ workers s !! i = Some (pc, w) ∧
     workers s' = <[i := (WSend e, w')]> (workers s) ∧
     run w a o (σ s) = (σ s', w', e, (run w a o (σ s)).2)).
Proof.
  intros H. destruct (actor l) as [i|] eqn:Hact.
  - destruct (exec_worker_cases _ _ _ _ H Hact)
      as (pc & w & pc' & w' & Hi & Hws & Hc).
    destruct Hc as [(_ & _ & _ & -> & Hσ)|[(_ & _ & _ & -> & Hσ)|
                    [(a & o & -> & -> & Hr & e & ->)|
                     [(e0 & _ & _ & _ & _ & -> & Hσ)|(e0 & _ & _ & _ & _ & -> & Hσ)]]]].
    3: { right. by exists i, a, o, (WRun a), w, e, w'. }
    all: left; rewrite Hσ; split; [done|]; intros j; rewrite Hws;
      (destruct (decide (i = j)) as [->|Hij];
       [rewrite list_lookup_insert_eq by (by eapply lookup_lt_Some); by rewrite Hi
       |by rewrite list_lookup_insert_ne by done]).
  - left. destruct (exec_main_workers _ _ _ H Hact) as (-> & _ & _).
    split; [by eapply exec_heap_main|done].
Qed.

Lemma buf_ok_frame h h' b :
  buf_ok h b →
  (s_cap (buf b) ≠ 0%nat → h' !! s_arr (buf b) = h !! s_arr (buf b)) →
  buf_ok h' b.
Proof.
  intros [Hle Hc] Hfr. split; [done|].
  destruct Hc as [Hc|Hc]; [by left|].
  destruct (decide (s_cap (buf b) = 0%nat)); [by left|]. right. by rewrite Hfr.
Qed.

Lemma exec_mem_inv s l s' : mem_inv s → exec s l = Some s' → mem_inv s'.
Proof.
  intros [Hok Hdis] H.
  destruct (exec_mem_cases _ _ _ H) as [[Hh Hw]|(i&a&o&pc&w&e&w'&->&Hi&Hws&Hr)].
  - assert (∀ j pc w, workers s' !! j = Some (pc, w) →
                      ∃ pc0, workers s !! j = Some (pc0, w)) as Hback.
    { intros j pc w Hj. specialize (Hw j). rewrite Hj in Hw. simpl in Hw.
      destruct (workers s !! j) as [[pc0 w0]|]; simplify_eq/=. by exists pc0. }
    split.
    + intros j pc w Hj. destruct (Hback _ _ _ Hj) as [pc0 Hj0].
      rewrite Hh. by eapply Hok.
    + intros j k pj wj pk wk Hjk Hj Hk.
      destruct (Hback _ _ _ Hj) as [pj0 Hj0]. destruct (Hback _ _ _ Hk) as [pk0 Hk0].
      by eapply Hdis.
  - pose proof (Hok _ _ _ Hi) as Hoki.
    destruct (run_mem _ _ _ _ _ _ _ _ Hoki Hr) as (Hok' & Hlen & _ & _).
    destruct (run_frame _ _ _ _ _ _ _ _ Hoki Hr) as (Hfr & Hsf & _).
    assert (∀ j pj wj, j ≠ i → workers s !! j = Some (pj, wj) →
              buf_ok (w_heap (σ s')) (outBuf wj) ∧
              (s_cap (buf (outBuf w')) = 0%nat ∨ s_cap (buf (outBuf wj)) = 0%nat ∨
               s_arr (buf (outBuf w')) ≠ s_arr (buf (outBuf wj)))) as Hother.
    { intros j pj wj Hji Hj. pose proof (Hok _ _ _ Hj) as Hokj.
      destruct (decide (s_cap (buf (outBuf wj)) = 0%nat)) as [Hz|Hnz].
      { split; [|auto]. apply (buf_ok_frame (w_heap (σ s))); done. }
      pose proof (buf_ok_allocated _ _ Hokj Hnz) as Hlt.
      destruct (Hdis i j _ _ _ _ ltac:(done) Hi Hj) as [Hci|[?|Hne]]; [|done|].
      - split.
        + apply (buf_ok_frame (w_heap (σ s))); [done|]. intros _. apply Hfr; auto.
        + destruct Hsf as [[-> ->]|Hf]; [auto|]. right; right. lia.
      - split.
        + apply (buf_ok_frame (w_heap (σ s))); [done|]. intros _. apply Hfr; auto.
        + destruct Hsf as [[-> ->]|Hf]; [auto|]. right; right. lia. }
    split.
    + intros j pj wj Hj. rewrite Hws in Hj.
      destruct (decide (i = j)) as [<-|Hij].
      * rewrite list_lookup_insert_eq in Hj by (by eapply lookup_lt_Some).
        by simplify_eq.
      * rewrite list_lookup_insert_ne in Hj by done. by eapply Hother.
    + intros j k pj wj pk wk Hjk Hj Hk. rewrite Hws in Hj, Hk.
      destruct (decide (i = j)) as [<-|Hij]; destruct (decide (i = k)) as [<-|Hik];
        try done.
      * rewrite list_lookup_insert_eq in Hj by (by eapply lookup_lt_Some).
        rewrite list_lookup_insert_ne in Hk by done. simplify_eq.
        by eapply Hother.
      * rewrite list_lookup_insert_eq in Hk by (by eapply lookup_lt_Some).
        rewrite list_lookup_insert_ne in Hj by done. simplify_eq.
        pose proof (Hother _ _ _ (not_eq_sym Hij) Hj) as [_ Ho].
        destruct Ho as [Ho|[Ho|Ho]]; [by right; left|by left|].
        right; right. congruence.
      * rewrite list_lookup_insert_ne in Hj, Hk by done.
        exact (Hdis _ _ _ _ _ _ Hjk Hj Hk).
Qed.

(* ------------------------------------------------------------------ *)
(** ** The output main prints *)
(* ------------------------------------------------------------------ *)

Lemma init_mem_inv c dir σ0 : mem_inv (init_state c dir σ0).
Proof.
  split.
  - intros i pc w H. apply lookup_replicate in H as [[= -> ->] _].
    split; [done|by left].
  - intros i j pi wi pj wj _ Hi _.
    apply lookup_replicate in Hi as [[= -> ->] _]. by left.
Qed.

Lemma exec_trace_mem_inv tr : ∀ s s',
  mem_inv s → exec_trace s tr = Some s' → mem_inv s'.
Proof.
  induction tr as [|l tr IH]; intros s s' Hi H; simpl in H; simplify_eq; [done|].
  destruct (exec s l) as [s1|] eqn:E; simpl in H; [|done].
  eapply IH; [|done]. by eapply exec_mem_inv.
Qed.

Lemma exec_detached s l s' out :
  mem_inv s → detached s out → exec s l = Some s' →
  detached s' out ∧
  slice_read (w_heap (σ s')) out = slice_read (w_heap (σ s)) out.
Proof.
  intros [Hok _] [Hlive Hap] H. unfold detached.
  destruct (exec_mem_cases _ _ _ H) as [[Hh Hw]|(i&a&o&pc&w&e&w'&->&Hi&Hws&Hr)].
  - rewrite Hh. split; [|done]. split; [done|].
    intros j pc w Hj. specialize (Hw j). rewrite Hj in Hw. simpl in Hw.
    destruct (workers s !! j) as [[pc0 w0]|] eqn:Hj0; simplify_eq/=.
    by eapply Hap.
  - pose proof (Hok _ _ _ Hi) as Hoki.
    destruct (run_mem _ _ _ _ _ _ _ _ Hoki Hr) as (_ & Hlen & Hfr & _).
    destruct (Hfr out Hlive (Hap _ _ _ Hi)) as [Hrd Hap'].
    split; [|done]. split; [by eapply live_mono|].
    intros j pj wj Hj. rewrite Hws in Hj.
    destruct (decide (i = j)) as [<-|Hij].
    + rewrite list_lookup_insert_eq in Hj by (by eapply lookup_lt_Some).
      by simplify_eq.
    + rewrite list_lookup_insert_ne in Hj by done. by eapply Hap.
Qed.

Lemma exec_trace_detached tr : ∀ s s' out,
  mem_inv s → detached s out → exec_trace s tr = Some s' →
  slice_read (w_heap (σ s')) out = slice_read (w_heap (σ s)) out.
Proof.
  induction tr as [|l tr IH]; intros s s' out Hi Hd H; simpl in H; simplify_eq;
    [done|].
  destruct (exec s l) as [s1|] eqn:E; simpl in H; [|done].
  destruct (exec_detached _ _ _ _ Hi Hd E) as [Hd1 Hrd1].
  rewrite <- Hrd1. eapply IH; [|done..]. by eapply exec_mem_inv.
Qed.

(** The output of a failure, right after [run] returned it. *)
Lemma exec_run_output s i o s' st out :
  mem_inv s → exec s (LRun i o) = Some s' →
  pc_of s' i = Some (WSend (Some (runError st out))) →
  detached s' out ∧ slice_read (w_heap (σ s')) out = written (child o).
Proof.
  intros [Hok Hdis] H Hpc.
  destruct (exec_worker_cases _ _ _ _ H eq_refl)
    as (pc & w & pc' & w' & Hi & Hws & Hc).
  unfold pc_of in Hpc. rewrite Hws in Hpc.
  rewrite list_lookup_insert_eq in Hpc by (by eapply lookup_lt_Some).
  simpl in Hpc. simplify_eq.
  destruct Hc as [(? & _)|[(? & _)|[(a & o' & Heq & _ & Hr & _)|
                                     [(? & ? & _)|(? & ? & _)]]]]; try done.
  simplify_eq. cbn [snd] in Hr. set (i' := i) in *.
  pose proof (Hok _ _ _ Hi) as Hoki.
  destruct (run_mem _ _ _ _ _ _ _ _ Hoki Hr) as (_ & Hlen & _ & Hout).
  destruct (run_frame _ _ _ _ _ _ _ _ Hoki Hr) as (_ & _ & Hfresh).
  destruct (Hout _ _ eq_refl) as (Hrd & Hlive & Hap).
  split; [|done]. split; [done|].
  intros j pj wj Hj. rewrite Hws in Hj.
  destruct (decide (i' = j)) as [<-|Hij].
  - rewrite list_lookup_insert_eq in Hj by (by eapply lookup_lt_Some).
    by simplify_eq.
  - rewrite list_lookup_insert_ne in Hj by done.
    destruct (Hfresh _ _ eq_refl) as [Hz|Hf]; [by left|].
    destruct (decide (s_cap (buf (outBuf wj)) = 0%nat)) as [?|Hnz];
      [by right; left|].
    pose proof (buf_ok_allocated _ _ (Hok _ _ _ Hj) Hnz). right; right. lia.
Qed.

(** X6. The output main prints is the failing invocation's own: when [run]
    returns a *runError in any state of a run, its [output] reads as the
    bytes that child wrote in every later state, whatever the other workers
    and this one do in between; and when main holds that error at the
    report, the report is the line with the success count followed by
    "Command failed: <description>:", a newline and those bytes. *)
Theorem reported_output_is_the_failing_output (Duration_String : Z → string)
    (c : config) (dir : string) (σ0 : world) (tr : list label) (s : state)
    (i : nat) (o : oracle) (s1 : state) (st : WaitStatus) (out : slice)
    (tr2 : list label) (s2 : state) (elapsed : Z) :
  exec_trace (init_state c dir σ0) tr = Some s →
  exec s (LRun i o) = Some s1 →
  pc_of s1 i = Some (WSend (Some (runError st out))) →
  exec_trace s1 tr2 = Some s2 →
  slice_read (w_heap (σ s2)) out = written (child o) ∧
  (err s2 = Some (runError st out) →
   report Duration_String s2 c elapsed
   = ["Failed after " +:+ FormatInt (n s2) +:+ " successful iteration(s):";
      "Command failed: " +:+ Error st +:+ ":" +:+ String (ascii_of_nat 10) "" +:+
      string_of_list_byte (written (child o))]).
Proof.
  intros Htr E Hpc Htr2.
  pose proof (exec_trace_mem_inv _ _ _ (init_mem_inv c dir σ0) Htr) as Hinv.
  destruct (exec_run_output _ _ _ _ _ _ Hinv E Hpc) as [Hdet Hrd].
  pose proof (exec_mem_inv _ _ _ Hinv E) as Hinv1.
  pose proof (exec_trace_detached _ _ _ _ Hinv1 Hdet Htr2) as Hrd2.
  rewrite Hrd in Hrd2. split; [done|].
  intros Herr. unfold report. rewrite Herr. by rewrite Hrd2.
Qed.

(* ------------------------------------------------------------------ *)
(** ** Shutting down *)
(* ------------------------------------------------------------------ *)

Lemma exec_after_cancel s l s' i pc w :
  coord_inv s → ctx_done s = true → exec s l = Some s' →
  workers s !! i = Some (pc, w) →
  ∃ pc' w',
    workers s' !! i = Some (pc', w') ∧ ctx_done s' = true ∧
    ((if is_step i l then 1 else 0) + rank pc' = rank pc)%nat ∧
    ((if is_claim i l then 1 else 0) + claims_left pc' = claims_left pc)%nat ∧
    ((if is_run i l then 1 else 0) + runs_left pc' = runs_left pc)%nat.
Proof.
  intros [Hc _] Hd E Hi. rewrite Hd in Hc.
  assert (ctx_done s' = true) as Hd'.
  { destruct l; exec_inv E; cbn [ctx_done]; done. }
  destruct (decide (actor l = Some i)) as [Ha|Ha].
  - destruct (exec_worker_cases _ _ _ _ E Ha)
      as (pc0 & w0 & pc' & w' & Hi0 & Hws & Hcases).
    rewrite Hi in Hi0. simplify_eq. exists pc', w'. split.
    { rewrite Hws. by rewrite list_lookup_insert_eq by (by eapply lookup_lt_Some). }
    split; [done|].
    assert (is_step i l = true) as ->
      by (unfold is_step; by rewrite bool_decide_true).
    destruct Hcases as [(-> & -> & -> & _)|[(-> & -> & -> & _)|
                        [(a & o & -> & -> & _ & e & ->)|
                         [(e & _ & _ & Hloop & _)|(e & -> & -> & _ & -> & _)]]]];
      cbn [is_claim is_run rank claims_left runs_left];
      rewrite ?bool_decide_true by done.
    + by rewrite Hd.
    + done.
    + done.
    + rewrite Hloop in Hc. done.
    + done.
  - assert (workers s' !! i = workers s !! i) as Hsame.
    { destruct (actor l) as [j|] eqn:Hact.
      - destruct (exec_worker_cases _ _ _ _ E Hact)
          as (pc0 & w0 & pc1 & w1 & _ & Hws & _).
        rewrite Hws. rewrite list_lookup_insert_ne; [done|]. congruence.
      - by destruct (exec_main_workers _ _ _ E Hact) as (-> & _ & _). }
    exists pc, w. rewrite Hsame. split; [done|]. split; [done|].
    assert (is_step i l = false ∧ is_claim i l = false ∧ is_run i l = false)
      as (-> & -> & ->).
    { unfold is_step. rewrite bool_decide_false by done.
      destruct l; simpl in *; split_and!; try done;
        apply bool_decide_eq_false; congruence. }
    done.
Qed.

(** X7. What a worker still does once [cancel()] has been called: every
    step it takes brings it one closer to its return, and it is at most
    three steps away. Among them is at most one more claim of an id and one
    more invocation, and only for a worker that had passed the check of the
    cancellation signal before the call; a worker at the top of its loop or
    with an outcome in hand starts nothing more. *)
Theorem work_after_cancel_is_bounded (c : config) (dir : string) (σ0 : world)
    (tr : list label) (s : state) (i : nat) (pc : wpc) (w : worker)
    (tr2 : list label) (s2 : state) :
  exec_trace (init_state c dir σ0) tr = Some s →
  ctx_done s = true → workers s !! i = Some (pc, w) →
  exec_trace s tr2 = Some s2 →
  ∃ pc2,
    pc_of s2 i = Some pc2 ∧
    (tally (is_step i) tr2 + rank pc2 = rank pc)%nat ∧
    (tally (is_claim i) tr2 + claims_left pc2 = claims_left pc)%nat ∧
    (tally (is_run i) tr2 + runs_left pc2 = runs_left pc)%nat ∧
    (tally (is_step i) tr2 ≤ 3)%nat ∧
    (tally (is_claim i) tr2 ≤ 1)%nat ∧ (tally (is_run i) tr2 ≤ 1)%nat ∧
    (pc = WTop ∨ (∃ e, pc = WSend e) ∨ pc = WDone →
     tally (is_claim i) tr2 = 0%nat ∧ tally (is_run i) tr2 = 0%nat).
Proof.
  intros Htr Hd Hi Htr2.
  pose proof (exec_trace_coord_inv _ _ _ (init_coord_inv c dir σ0) Htr) as Hinv.
  clear Htr.
  cut (∃ pc2 w2, workers s2 !! i = Some (pc2, w2) ∧
         (tally (is_step i) tr2 + rank pc2 = rank pc)%nat ∧
         (tally (is_claim i) tr2 + claims_left pc2 = claims_left pc)%nat ∧
         (tally (is_run i) tr2 + runs_left pc2 = runs_left pc)%nat).
  { intros (pc2 & w2 & Hi2 & H1 & H2 & H3). exists pc2.
    assert (rank pc ≤ 3 ∧ claims_left pc ≤ 1 ∧ runs_left pc ≤ 1)%nat
      as (? & ? & ?) by (destruct pc; cbn; lia).
    split; [unfold pc_of; by rewrite Hi2|].
    split; [done|]. split; [done|]. split; [done|].
    split; [lia|]. split; [lia|]. split; [lia|].
    intros [->|[[e ->]| ->]]; cbn in H2, H3; lia. }
  revert s pc w Hinv Hd Hi Htr2.
  induction tr2 as [|l tr2 IH]; intros s pc w Hinv Hd Hi Htr2; simpl in Htr2.
  { simplify_eq. by exists pc, w. }
  destruct (exec s l) as [s1|] eqn:E; simpl in Htr2; [|done].
  destruct (exec_after_cancel _ _ _ _ _ _ Hinv Hd E Hi)
    as (pc1 & w1 & Hi1 & Hd1 & H1 & H2 & H3).
  destruct (IH _ _ _ (exec_coord_inv _ _ _ Hinv E) Hd1 Hi1 Htr2)
    as (pc2 & w2 & Hi2 & G1 & G2 & G3).
  exists pc2, w2. split; [done|]. cbn [tally]. lia.
Qed.

Lemma work_after_cancel_is_bounded_witness :
  (exec_trace (init_state Sample.one_lane "" Sample.bare) Scenario.late_prefix
   = Some Scenario.just_cancelled ∧
   ctx_done Scenario.just_cancelled = true ∧
   workers Scenario.just_cancelled !! 0%nat
   = Some (WClaim, Sample.plain ["/bin/false"]) ∧
   exec_trace Scenario.just_cancelled Scenario.late_rest
   = Some Scenario.wound_down) ∧
  tally (is_run 0) Scenario.late_rest = 1%nat ∧
  pc_of Scenario.wound_down 0 = Some WDone.
Proof.
  assert (exec_trace (init_state Sample.one_lane "" Sample.bare)
                     Scenario.late_prefix = Some Scenario.just_cancelled)
    as E1 by (vm_compute; reflexivity).
  assert (exec_trace Scenario.just_cancelled Scenario.late_rest
          = Some Scenario.wound_down) as E2 by (vm_compute; reflexivity).
  split; [by split_and!|].
  destruct (work_after_cancel_is_bounded Sample.one_lane "" Sample.bare
              Scenario.late_prefix Scenario.just_cancelled 0 WClaim
              (Sample.plain ["/bin/false"]) Scenario.late_rest Scenario.wound_down
              E1 eq_refl eq_refl E2) as (pc2 & Hpc & H1 & _ & H3 & _).
  assert (pc_of Scenario.wound_down 0 = Some WDone) as Hw
    by (vm_compute; reflexivity).
  rewrite Hw in Hpc. injection Hpc as <-.
  split; [|exact Hw]. cbn [runs_left] in H3. lia.
Defined.

Lemma step_check s k w :
  workers s !! k = Some (WTop, w) →
  exec s (LCheck k)
  = Some (set_worker s k (if ctx_done s then WDone else WClaim) w).
Proof. intros Hk. unfold exec. by rewrite Hk. Qed.

Lemma step_claim s k w :
  workers s !! k = Some (WClaim, w) →
  exec s (LClaim k)
  = Some (mkstate (ctx_done s) (AddInt64 (id s) 1)
                  (<[k := (WRun (AddInt64 (id s) 1), w)]> (workers s))
                  (n s) (err s) (coord s) (root s) (σ s)).
Proof. intros Hk. unfold exec. by rewrite Hk. Qed.

Lemma step_run s k a w o :
  workers s !! k = Some (WRun a, w) →
  exec s (LRun k o)
  = Some (mkstate (ctx_done s) (id s)
                  (<[k := (WSend (run w a o (σ s)).1.2, (run w a o (σ s)).1.1.2)]>
                     (workers s))
                  (n s) (err s) (coord s) (root s) (run w a o (σ s)).1.1.1).
Proof.
  intros Hk. unfold exec. rewrite Hk. simpl.
  by destruct (run w a o (σ s)) as [[[? ?] ?] ?].
Qed.

Lemma step_abandon s k e w :
  workers s !! k = Some (WSend e, w) → ctx_done s = true →
  exec s (LAbandon k) = Some (set_worker s k WDone w).
Proof. intros Hk Hd. unfold exec. rewrite Hk. simpl. by rewrite Hd. Qed.

(** Ending one worker after cancellation. *)
Lemma wind_down_one s k pc w o :
  ctx_done s = true → workers s !! k = Some (pc, w) →
  ∃ s1 w1,
    exec_trace s (wind_down k pc o) = Some s1 ∧
    workers s1 = <[k := (WDone, w1)]> (workers s) ∧
    ctx_done s1 = true ∧ coord s1 = coord s.
Proof.
  intros Hd Hk.
  assert (k < length (workers s))%nat as Hlt by (by eapply lookup_lt_Some).
  destruct pc as [| |a|e|]; cbn [wind_down exec_trace].
  - rewrite (step_check _ _ _ Hk), Hd. cbn [mbind option_bind]. do 2 eexists. split_and!; done.
  - rewrite (step_claim _ _ _ Hk). cbn [mbind option_bind].
    erewrite step_run
      by (cbn [workers]; by rewrite list_lookup_insert_eq by done).
    cbn [mbind option_bind].
    erewrite step_abandon;
      [|cbn [workers]; by rewrite list_lookup_insert_eq by (by rewrite length_insert)
       |done].
    cbn [mbind option_bind]. do 2 eexists. split_and!; [done| |done..].
    cbn [set_worker workers]. by rewrite !list_insert_insert_eq.
  - rewrite (step_run _ _ _ _ o Hk). cbn [mbind option_bind].
    erewrite step_abandon;
      [|cbn [workers]; by rewrite list_lookup_insert_eq by done|done].
    cbn [mbind option_bind]. do 2 eexists. split_and!; [done| |done..].
    cbn [set_worker workers]. by rewrite !list_insert_insert_eq.
  - rewrite (step_abandon _ _ _ _ Hk Hd). cbn [mbind option_bind].
    do 2 eexists. split_and!; done.
  - do 2 eexists. split_and!; [done| |done..].
    by rewrite list_insert_id.
Qed.

Lemma wind_down_from o rest : ∀ s k,
  ctx_done s = true → drop k (workers s) = rest →
  ∃ s',
    exec_trace s (wind_down_all k rest o) = Some s' ∧
    ctx_done s' = true ∧ coord s' = coord s ∧
    length (workers s') = length (workers s) ∧
    (∀ j, (j < k)%nat → pc_of s' j = pc_of s j) ∧
    (∀ j, (k ≤ j < length (workers s))%nat → pc_of s' j = Some WDone).
Proof.
  induction rest as [|[pc w] rest IH]; intros s k Hd Hdrop.
  - exists s. simpl. split_and!; try done.
    intros j [Hkj Hj]. apply drop_nil_inv in Hdrop. lia.
  - assert (workers s !! k = Some (pc, w)) as Hk.
    { rewrite <- (Nat.add_0_r k), <- lookup_drop, Hdrop. done. }
    destruct (wind_down_one s k pc w o Hd Hk) as (s1 & w1 & E1 & Hws1 & Hd1 & Hc1).
    assert (drop (S k) (workers s1) = rest) as Hdrop1.
    { rewrite Hws1, drop_insert_lt by lia.
      rewrite <- (Nat.add_1_r k), <- drop_drop. by rewrite Hdrop. }
    destruct (IH s1 (S k) Hd1 Hdrop1) as (s' & E2 & Hd' & Hc' & Hlen' & Hlow & Hhigh).
    exists s'. cbn [wind_down_all fst]. rewrite exec_trace_app, E1. simpl.
    assert (length (workers s1) = length (workers s)) as Hlen1
      by (by rewrite Hws1, length_insert).
    split_and!; [done|done|congruence|congruence| |].
    + intros j Hj. rewrite Hlow by lia. unfold pc_of. rewrite Hws1.
      by rewrite list_lookup_insert_ne by lia.
    + intros j [Hkj Hj]. destruct (decide (j = k)) as [->|Hne].
      * rewrite Hlow by lia. unfold pc_of. rewrite Hws1.
        by rewrite list_lookup_insert_eq by (by eapply lookup_lt_Some).
      * apply Hhigh. lia.
Qed.

Lemma exec_trace_cons_ex s l s1 rest (P : state → Prop) :
  exec s l = Some s1 →
  (∃ s', exec_trace s1 rest = Some s' ∧ P s') →
  ∃ s', exec_trace s (l :: rest) = Some s' ∧ P s'.
Proof. intros E (s' & H & HP). exists s'. cbn [exec_trace]. by rewrite E. Qed.

Lemma step_report s e :
  coord s = CReport →
  ∃ s', exec s (LReport e) = Some s' ∧ coord s' = CExit 0 ∧
        workers s' = workers s.
Proof.
  intros Hc. unfold exec. rewrite Hc. eexists. split; [done|].
  split; [by destruct (err s)|done].
Qed.

Lemma join_and_report s :
  coord s = CWait → joined s →
  ∃ s', exec_trace s [LJoin; LReport (mkfinish 0 None)] = Some s' ∧
        coord s' = CExit 0 ∧ joined s'.
Proof.
  intros Hc Hj.
  assert (exec s LJoin = Some (set_coord s CReport)) as E1.
  { unfold exec. by rewrite Hc, (proj2 (all_done_joined s) Hj). }
  destruct (step_report (set_coord s CReport) (mkfinish 0 None) eq_refl)
    as (s' & E2 & Hc' & Hw').
  eapply exec_trace_cons_ex; [exact E1|].
  eapply exec_trace_cons_ex; [exact E2|].
  exists s'. split; [done|]. split; [done|].
  intros i pc w Hi. rewrite Hw' in Hi. by eapply Hj.
Qed.

Lemma shut_down_from_wait s o :
  ctx_done s = true → coord s = CWait →
  ∃ s', exec_trace s (wind_down_all 0 (workers s) o
                      ++ [LJoin; LReport (mkfinish 0 None)]) = Some s'
        ∧ coord s' = CExit 0 ∧ joined s'.
Proof.
  intros Hd Hc.
  destruct (wind_down_from o (workers s) s 0 Hd eq_refl)
    as (s1 & E1 & _ & Hc1 & Hlen & _ & Hdone).
  assert (joined s1) as Hj.
  { intros j pc w Hj. assert (j < length (workers s1))%nat as Hlt
      by (by eapply lookup_lt_Some).
    specialize (Hdone j ltac:(lia)). unfold pc_of in Hdone. rewrite Hj in Hdone.
    by simplify_eq/=. }
  destruct (join_and_report s1) as (s' & E2 & Hc' & Hj'); [congruence|done|].
  exists s'. rewrite exec_trace_app, E1. done.
Qed.

(** X8. A run can always end: from every state a run can reach, the
    schedule "interrupt, cancel, let each worker finish, join, report" is
    possible and leads to the exit with every worker returned and status 0.
    There is no state from which main or a worker is stuck for good. *)
Theorem run_can_always_end (c : config) (dir : string) (σ0 : world)
    (tr : list label) (s : state) (o : oracle) :
  exec_trace (init_state c dir σ0) tr = Some s →
  ∃ s', exec_trace s (shut_down s o) = Some s' ∧ coord s' = CExit 0 ∧ joined s'.
Proof.
  intros Htr.
  pose proof (exec_trace_coord_inv _ _ _ (init_coord_inv c dir σ0) Htr) as [Hc _].
  unfold shut_down. destruct (coord s) as [| | | |k] eqn:Hcoord.
  - cbn [app].
    eapply exec_trace_cons_ex.
    { unfold exec. by rewrite Hcoord. }
    eapply exec_trace_cons_ex.
    { unfold exec. by cbn [set_coord coord]. }
    apply (shut_down_from_wait (mkstate true (id s) (workers s) (n s) (err s)
                                        CWait (root s) (σ s)) o); done.
  - cbn [app].
    eapply exec_trace_cons_ex.
    { unfold exec. by rewrite Hcoord. }
    apply (shut_down_from_wait (mkstate true (id s) (workers s) (n s) (err s)
                                        CWait (root s) (σ s)) o); done.
  - by apply shut_down_from_wait.
  - assert (joined s) as Hj.
    { eapply reach_after_join; [done|]. by left. }
    destruct (step_report s (mkfinish 0 None) Hcoord) as (s' & E & Hc' & Hw').
    eapply exec_trace_cons_ex; [exact E|].
    exists s'. split; [done|]. split; [done|].
    intros i pc w Hi. rewrite Hw' in Hi. by eapply Hj.
  - assert (joined s) as Hj.
    { eapply reach_after_join; [done|]. right. by exists k. }
    exists s. split; [done|]. split; [|done].
    by rewrite (init_exit _ _ _ _ _ _ Htr Hcoord) in Hcoord.
Qed.

Lemma run_can_always_end_witness :
  exec_trace (init_state Sample.two_lanes "" Sample.bare) Sample.both_claim
  = Some Sample.both_in_flight ∧
  ∃ s', exec_trace Sample.both_in_flight
                   (shut_down Sample.both_in_flight Sample.killed) = Some s' ∧
        coord s' = CExit 0 ∧ joined s'.
Proof.
  assert (exec_trace (init_state Sample.two_lanes "" Sample.bare)
                     Sample.both_claim = Some Sample.both_in_flight)
    as E by (vm_compute; reflexivity).
  split; [exact E|].
  exact (run_can_always_end Sample.two_lanes "" Sample.bare Sample.both_claim
           Sample.both_in_flight Sample.killed E).
Defined.

(* ------------------------------------------------------------------ *)
(** ** Claims, invocations and publications, counted *)
(* ------------------------------------------------------------------ *)

Lemma tally_other f tr l : f l = false → tally f (tr ++ [l]) = tally f tr.
Proof. intros H. rewrite tally_app. simpl. rewrite H. lia. Qed.

Lemma tally_one f tr l : f l = true → tally f (tr ++ [l]) = S (tally f tr).
Proof. intros H. rewrite tally_app. simpl. rewrite H. lia. Qed.

(** X9. Each worker uses what it claims exactly once: at any point of a
    run, the ids worker [i] has claimed are as many as the invocations it
    has finished, plus one if it is inside [run]; and the invocations it has
    finished are as many as the outcomes it has published or dropped, plus
    one if it holds an outcome. No id is claimed and left unused, no outcome
    is published twice. *)
Theorem worker_uses_each_claim_once (c : config) (dir : string) (σ0 : world)
    (tr : list label) (s : state) (i : nat) (pc : wpc) (w : worker) :
  exec_trace (init_state c dir σ0) tr = Some s →
  workers s !! i = Some (pc, w) →
  tally (is_claim i) tr = (tally (is_run i) tr + in_run pc)%nat ∧
  tally (is_run i) tr = (tally (is_publish i) tr + holding pc)%nat.
Proof.
  intros Htr. revert pc w. revert tr s Htr.
  apply (run_ind _ (λ tr s, ∀ pc w, workers s !! i = Some (pc, w) →
    tally (is_claim i) tr = (tally (is_run i) tr + in_run pc)%nat ∧
    tally (is_run i) tr = (tally (is_publish i) tr + holding pc)%nat)).
  - intros pc w H. apply lookup_replicate in H as [[= -> ->] _]. done.
  - intros tr s l s' Htr IH E pc' w' Hi'.
    destruct (decide (actor l = Some i)) as [Ha|Ha].
    + destruct (exec_worker_cases _ _ _ _ E Ha)
        as (pc & w & pc1 & w1 & Hi & Hws & Hc).
      rewrite Hws in Hi'.
      rewrite list_lookup_insert_eq in Hi' by (by eapply lookup_lt_Some).
      simplify_eq. destruct (IH _ _ Hi) as [IH1 IH2].
      destruct Hc as [(-> & -> & -> & _)|[(-> & -> & -> & _)|
                      [(a & o & -> & -> & _ & e & ->)|
                       [(e & -> & -> & _ & -> & _)|(e & -> & -> & _ & -> & _)]]]].
      * rewrite !tally_other by done. by destruct (ctx_done s).
      * rewrite (tally_one (is_claim i)) by (simpl; by rewrite bool_decide_true).
        rewrite !tally_other by done. simpl in *. lia.
      * rewrite (tally_one (is_run i)) by (simpl; by rewrite bool_decide_true).
        rewrite !tally_other by done. simpl in *. lia.
      * rewrite (tally_one (is_publish i)) by (simpl; by rewrite bool_decide_true).
        rewrite !tally_other by done. destruct e; simpl in *; lia.
      * rewrite (tally_one (is_publish i)) by (simpl; by rewrite bool_decide_true).
        rewrite !tally_other by done. simpl in *. lia.
    + assert (workers s' !! i = workers s !! i) as Hsame.
      { destruct (actor l) as [j|] eqn:Hact.
        - destruct (exec_worker_cases _ _ _ _ E Hact)
            as (pc & w & pc1 & w1 & _ & Hws & _).
          rewrite Hws. rewrite list_lookup_insert_ne; [done|]. congruence.
        - by destruct (exec_main_workers _ _ _ E Hact) as (-> & _ & _). }
      rewrite Hsame in Hi'.
      assert (is_claim i l = false ∧ is_run i l = false ∧ is_publish i l = false)
        as (H1 & H2 & H3).
      { destruct l; simpl in *; split_and!; try done;
          apply bool_decide_eq_false; congruence. }
      rewrite !tally_other by done. by eapply IH.
Qed.

Lemma worker_uses_each_claim_once_witness :
  (exec_trace (init_state Sample.two_lanes "" Sample.bare) Sample.racing_run
   = Some Sample.after_race ∧
   workers Sample.after_race !! 1%nat
   = Some (WSend None, Sample.plain ["./flaky.sh"])) ∧
  tally (is_run 1) Sample.racing_run
  = (tally (is_publish 1) Sample.racing_run + 1)%nat.
Proof.
  assert (exec_trace (init_state Sample.two_lanes "" Sample.bare)
                     Sample.racing_run = Some Sample.after_race)
    as E by (vm_compute; reflexivity).
  split; [by split|].
  exact (proj2 (worker_uses_each_claim_once Sample.two_lanes "" Sample.bare
                  Sample.racing_run Sample.after_race 1 (WSend None)
                  (Sample.plain ["./flaky.sh"]) E eq_refl)).
Defined.

Lemma count_holding_nonneg ws : 0 ≤ count_holding ws.
Proof. induction ws as [|[pc w] ws IH]; simpl; [done|]. destruct (holds_id pc); lia. Qed.

Lemma count_holding_insert ws : ∀ k pc w pc' w',
  ws !! k = Some (pc, w) →
  count_holding (<[k := (pc', w')]> ws)
  = count_holding ws - (if holds_id pc then 1 else 0)
    + (if holds_id pc' then 1 else 0).
Proof.
  induction ws as [|[pc0 w0] ws IH]; intros k pc w pc' w' Hk; [done|].
  destruct k as [|k]; simpl in *.
  - simplify_eq. lia.
  - rewrite (IH _ _ _ pc' w' Hk). lia.
Qed.

Lemma init_count_holding c dir σ0 :
  count_holding (workers (init_state c dir σ0)) = 0.
Proof.
  unfold init_state. cbn [workers].
  induction (Z.to_nat (parallelism c)) as [|k IH]; simpl; [done|]. by rewrite IH.
Qed.

(** X10. The success count stays below the ids: in a run that claims no
    more ids than int64 has positive values, [n] plus the number of workers
    that hold an id, plus one if main holds a failure, is at most the id
    counter. So a failure is reported with a count smaller than the number of
    invocations started. *)
Theorem success_count_below_ids (c : config) (dir : string) (σ0 : world)
    (tr : list label) (s : state) :
  exec_trace (init_state c dir σ0) tr = Some s →
  Z.of_nat (length (claimed (init_state c dir σ0) tr)) ≤ int64_max →
  0 ≤ n s ∧
  n s + count_holding (workers s) + match err s with Some _ => 1 | None => 0 end ≤ id s ∧
  (is_Some (err s) → n s < id s).
Proof.
  intros Htr Hb.
  cut (0 ≤ n s ∧ n s + count_holding (workers s) + match err s with Some _ => 1 | None => 0 end ≤ id s).
  { intros [H0 H1]. split_and!; [done..|]. intros [e He]. rewrite He in H1.
    pose proof (count_holding_nonneg (workers s)). lia. }
  revert tr s Htr Hb.
  apply (run_ind _ (λ tr s,
    Z.of_nat (length (claimed (init_state c dir σ0) tr)) ≤ int64_max →
    0 ≤ n s ∧ n s + count_holding (workers s) + match err s with Some _ => 1 | None => 0 end ≤ id s)).
  - intros _. rewrite init_count_holding. simpl. lia.
  - intros tr s l s' Htr IH E Hb.
    rewrite (claimed_app _ _ _ _ Htr), length_app in Hb.
    destruct IH as [Hn Hle]; [lia|].
    destruct (init_claimed _ _ _ _ _ Htr ltac:(lia)) as (_ & Hid & _).
    pose proof (exec_trace_coord_inv _ _ _ (init_coord_inv c dir σ0) Htr) as Hinv.
    pose proof (exec_main_vars _ _ _ E Hinv) as Hv.
    pose proof (exec_id _ _ _ E) as Hid'.
    pose proof (count_holding_nonneg (workers s')) as Hnn.
    destruct (actor l) as [i|] eqn:Hact.
    + destruct (exec_worker_cases _ _ _ _ E Hact)
        as (pc & w & pc1 & w1 & Hi & Hws & Hc).
      rewrite Hws in Hnn |- *.
      rewrite (count_holding_insert _ _ _ _ pc1 w1 Hi) in Hnn |- *.
      destruct Hc as [(-> & -> & -> & _)|[(-> & -> & -> & _)|
                      [(a & o & -> & -> & _ & e & ->)|
                       [(e & -> & -> & _ & -> & _)|(e & -> & -> & _ & -> & _)]]]].
      * destruct Hv as [-> ->]. rewrite Hid'.
        destruct (ctx_done s); simpl in *; lia.
      * destruct Hv as [-> ->].
        assert (id s' = id s + 1) as ->.
        { rewrite Hid'. unfold AddInt64. apply wrap64_small.
          rewrite (claimed_cons _ _ _ _ E) in Hb. simpl in Hb.
          unfold int64_min. lia. }
        simpl in *. lia.
      * destruct Hv as [-> ->]. rewrite Hid'. simpl in *. lia.
      * destruct Hv as (e0 & Hpc & Herr & Herr' & Hn').
        assert (e0 = e) as ->
          by (unfold pc_of in Hpc; rewrite Hi in Hpc; by simplify_eq/=).
        rewrite Hid'. rewrite Herr in Hle. rewrite Herr'.
        destruct e as [e|]; simpl in *.
        -- rewrite Hn'. lia.
        -- rewrite wrap64_small in Hn' by (unfold int64_min, int64_max in *; lia).
           rewrite Hn'. lia.
      * destruct Hv as [-> ->]. rewrite Hid'. simpl in *. lia.
    + destruct (exec_main_workers _ _ _ E Hact) as (-> & -> & _).
      destruct l; simpl in Hact; simplify_eq; destruct Hv as [-> ->]; done.
Qed.

Lemma success_count_below_ids_witness :
  (exec_trace (init_state Scenario.scratch_lanes "/tmp/flake-1" Scenario.with_tmp)
              Scenario.full_run
   = Some Scenario.full_run_end ∧
   Z.of_nat (length (claimed (init_state Scenario.scratch_lanes "/tmp/flake-1"
                                         Scenario.with_tmp)
                             Scenario.full_run)) ≤ int64_max) ∧
  n Scenario.full_run_end < id Scenario.full_run_end.
Proof.
  assert (exec_trace (init_state Scenario.scratch_lanes "/tmp/flake-1"
                                 Scenario.with_tmp) Scenario.full_run
          = Some Scenario.full_run_end) as E by (vm_compute; reflexivity).
  assert (Z.of_nat (length (claimed (init_state Scenario.scratch_lanes
                                       "/tmp/flake-1" Scenario.with_tmp)
                                    Scenario.full_run)) ≤ int64_max)
    as Hb by (by vm_compute).
  split; [by split|].
  apply (proj2 (proj2 (success_count_below_ids Scenario.scratch_lanes
                         "/tmp/flake-1" Scenario.with_tmp Scenario.full_run
                         Scenario.full_run_end E Hb))).
  by eexists.
Defined.

(* ------------------------------------------------------------------ *)
(** ** More about one invocation *)
(* ------------------------------------------------------------------ *)

(** X11. The description of a failure tells an exit from a signal, and for
    an exit it tells the code: two wait statuses with the same description
    are both exits or both signals, and two exits have the same code. *)
Theorem description_determines_exit_code (st1 st2 : WaitStatus) :
  Error st1 = Error st2 →
  Signaled st1 = Signaled st2 ∧
  (Signaled st1 = false → ExitStatus st1 = ExitStatus st2).
Proof.
  destruct st1 as [a|a], st2 as [b|b]; unfold Error; cbn [Signaled ExitStatus Signal].
  - intros H. split; [done|]. intros _.
    apply (inj (String.append "status ")) in H. by apply (inj pretty) in H.
  - intros H. exfalso. cbn in H. discriminate H.
  - intros H. exfalso. cbn in H. discriminate H.
  - by intros _.
Qed.

Lemma description_determines_exit_code_witness :
  Error (Exited 3) = Error (Exited 3) ∧
  ExitStatus (Exited 3) = ExitStatus (Exited 3).
Proof.
  split; [reflexivity|].
  exact (proj2 (description_determines_exit_code (Exited 3) (Exited 3) eq_refl)
               eq_refl).
Defined.

Lemma run_cmd_environ w c o σ0 :
  w_environ (run_cmd w c o σ0).1.1.1 = w_environ σ0.
Proof.
  unfold run_cmd, Cmd_Run. destruct (child o) as [cause|chunks files st]; [done|].
  destruct (Buffer_WriteAll _ _ _) as [h1 b1].
  case_decide; [done|]. by destruct (slices_Clone _ _).
Qed.

(** X12. Apart from what the child itself does, an invocation changes the
    file system at its scratch directory and below it only: a path that is
    not the scratch directory of this invocation or below it exists after
    [run] exactly if the child, had it been started in the world as it was,
    would have left it there (or, when the scratch directory could not be
    made and no child ran, exactly if it existed before). The environment of
    the process is left as it was. *)
Theorem run_touches_only_its_scratch_directory (w : worker) (i : Z) (o : oracle)
    (σ0 : world) (p : string) :
  tmpdir w = "" ∨ ¬ under (Clean (filepath_Join (tmpdir w) (FormatInt i))) p →
  (p ∈ w_fs (run w i o σ0).1.1.1 ↔
   p ∈ match mkdir_step w i o σ0 with
       | inl _ => child_fs (child o) (w_fs σ0)
       | inr _ => w_fs σ0
       end) ∧
  w_environ (run w i o σ0).1.1.1 = w_environ σ0.
Proof.
  intros Hout. unfold mkdir_step.
  destruct (decide (tmpdir w = "")) as [Ht|Ht].
  - rewrite decide_False by (by intros []).
    rewrite (run_plain _ _ _ _ Ht). split; [by rewrite run_cmd_fs|].
    apply run_cmd_environ.
  - destruct Hout as [?|Hout]; [done|]. rewrite decide_True by done.
    pose proof (run_scratch w i o σ0 Ht) as Hr. cbn zeta in Hr.
    unfold scratch_dir in *.
    destruct (os_Mkdir _ _ _) as [σ1|cause] eqn:Emk; rewrite Hr; [|done].
    cbn [fst snd]. rewrite os_RemoveAll_environ, run_cmd_environ.
    apply os_Mkdir_inl in Emk as [-> _]. split; [|done].
    rewrite os_RemoveAll_frame by done. rewrite run_cmd_fs.
    cbn [set_fs w_fs].
    assert (p ≠ Clean (filepath_Join (tmpdir w) (FormatInt i))) as Hne.
    { intros ->. apply Hout. by left. }
    unfold child_fs, apply_changes.
    destruct (child o) as [cause|chunks files st].
    + rewrite elem_of_union, elem_of_singleton. tauto.
    + rewrite !elem_of_difference, !elem_of_union, elem_of_singleton. tauto.
Qed.

Lemma run_touches_only_its_scratch_directory_witness :
  (tmpdir (Sample.scratchy ["/bin/false"]) = "" ∨
   ¬ under (Clean (filepath_Join (tmpdir (Sample.scratchy ["/bin/false"]))
                                 (FormatInt 4))) "/tmp/flake-1") ∧
  "/tmp/flake-1" ∈ w_fs (run (Sample.scratchy ["/bin/false"]) 4 (Sample.exits 1)
                             Sample.nested).1.1.1.
Proof.
  assert (tmpdir (Sample.scratchy ["/bin/false"]) = "" ∨
          ¬ under (Clean (filepath_Join (tmpdir (Sample.scratchy ["/bin/false"]))
                                        (FormatInt 4))) "/tmp/flake-1") as Hout.
  { right. intros [H|H]; vm_compute in H; discriminate H. }
  split; [exact Hout|].
  apply (proj1 (run_touches_only_its_scratch_directory
                  (Sample.scratchy ["/bin/false"]) 4 (Sample.exits 1)
                  Sample.nested "/tmp/flake-1" Hout)).
  assert (mkdir_step (Sample.scratchy ["/bin/false"]) 4 (Sample.exits 1)
                     Sample.nested
          = inl (set_fs Sample.nested
                        ({[ "/tmp/flake-1/4" ]} ∪ w_fs Sample.nested))) as E
    by (vm_compute; reflexivity).
  rewrite E. by vm_compute.
Defined.

(** X13. The buffer a worker keeps holds the output of its last invocation
    only: after [run], the worker has the same command and scratch root, its
    buffer is well formed, and it reads as exactly what the child of this
    invocation wrote (nothing, if the scratch directory could not be made),
    whatever it held before. *)
Theorem buffer_holds_last_output (w : worker) (i : Z) (o : oracle) (σ0 : world) :
  buf_ok (w_heap σ0) (outBuf w) →
  cmd (run w i o σ0).1.1.2 = cmd w ∧
  tmpdir (run w i o σ0).1.1.2 = tmpdir w ∧
  buf_ok (w_heap (run w i o σ0).1.1.1) (outBuf (run w i o σ0).1.1.2) ∧
  slice_read (w_heap (run w i o σ0).1.1.1) (buf (outBuf (run w i o σ0).1.1.2))
  = match mkdir_step w i o σ0 with
    | inl _ => written (child o)
    | inr _ => []
    end.
Proof.
  intros Hok.
  destruct (run_worker_cfg w i o σ0) as [Hc Ht].
  split_and!; [done|done| |].
  - destruct (run w i o σ0) as [[[σ' w'] e] evs] eqn:Er.
    by destruct (run_mem _ _ _ _ _ _ _ _ Hok Er) as (Hok' & _ & _ & _).
  - by apply run_buffer.
Qed.

Lemma buffer_holds_last_output_witness :
  buf_ok (w_heap Sample.bare) (outBuf (Sample.plain ["./flaky.sh"])) ∧
  slice_read (w_heap (run (Sample.plain ["./flaky.sh"]) 1 (Sample.says "hello" 0)
                          Sample.bare).1.1.1)
             (buf (outBuf (run (Sample.plain ["./flaky.sh"]) 1
                               (Sample.says "hello" 0) Sample.bare).1.1.2))
  = Sample.bytes "hello".
Proof.
  assert (buf_ok (w_heap Sample.bare) (outBuf (Sample.plain ["./flaky.sh"])))
    as Hok by (split; [done|by left]).
  split; [exact Hok|].
  rewrite (proj2 (proj2 (proj2 (buffer_holds_last_output
                                  (Sample.plain ["./flaky.sh"]) 1
                                  (Sample.says "hello" 0) Sample.bare Hok)))).
  by vm_compute.
Defined.

(* ------------------------------------------------------------------ *)
(** ** Cancelling the child *)
(* ------------------------------------------------------------------ *)

(** X14. What cancelling reaches. In the unix build the child leads a
    process group of its own and [Cancel] kills that group: afterwards no
    process of the group is left, neither the child nor a process the child
    forked, while flake, which is in another group, and every process of
    another group are still there. In the other build [Cancel] kills the
    child alone: a process the child forked is still there. *)
Theorem cancel_reaches_the_process_group (self : Unix.process) (p q : Z)
    (t : list Unix.process) :
  1 < p → Unix.pgid self ≠ p → q ≠ p →
  let child := Unix.mkprocess p p in
  let after :=
    Unix.Cancel Unix.commandContext_unix self p
      (Unix.fork child q (Unix.start Unix.commandContext_unix self p (self :: t))) in
  let child' := Unix.mkprocess p (Unix.pgid self) in
  let after' :=
    Unix.Cancel Unix.commandContext_other self p
      (Unix.fork child' q (Unix.start Unix.commandContext_other self p (self :: t))) in
  (∀ x, x ∈ after → Unix.pgid x ≠ p) ∧
  (child ∉ after) ∧ (Unix.mkprocess q p ∉ after) ∧ self ∈ after ∧
  (∀ x, x ∈ t → Unix.pgid x ≠ p → x ∈ after) ∧
  (child' ∉ after') ∧ Unix.mkprocess q (Unix.pgid self) ∈ after'.
Proof.
  intros Hp Hself Hq child after child' after'.
  assert (after = filter (λ x, Unix.pgid x ≠ p)
                    (Unix.mkprocess q p :: child :: self :: t)) as Hafter.
  { unfold after, Unix.commandContext_unix, Unix.Cancel, Unix.Kill.
    rewrite decide_False by lia. rewrite decide_False by lia.
    rewrite decide_False by lia. by rewrite Z.opp_involutive. }
  assert (after' = filter (λ x, Unix.pid x ≠ p)
                     (Unix.mkprocess q (Unix.pgid self) :: child' :: self :: t))
    as Hafter'.
  { unfold after', Unix.commandContext_other, Unix.CommandContext, Unix.Cancel,
      Unix.Kill. by rewrite decide_True by lia. }
  rewrite Hafter, Hafter'. clear Hafter Hafter' after after'.
  split_and!.
  - intros x Hx. by apply list_elem_of_filter in Hx as [Hx _].
  - intros Hx. by apply list_elem_of_filter in Hx as [Hx _].
  - intros Hx. by apply list_elem_of_filter in Hx as [Hx _].
  - apply list_elem_of_filter. split; [done|]. set_solver.
  - intros x Hx Hg. apply list_elem_of_filter. split; [done|]. set_solver.
  - intros Hx. by apply list_elem_of_filter in Hx as [Hx _].
  - apply list_elem_of_filter. split; [done|]. set_solver.
Qed.

Lemma cancel_reaches_the_process_group_witness :
  (1 < 4242 ∧ Unix.pgid (Unix.mkprocess 100 100) ≠ 4242 ∧ 4243 ≠ 4242) ∧
  Unix.mkprocess 4243 4242
  ∉ Unix.Cancel Unix.commandContext_unix (Unix.mkprocess 100 100) 4242
      (Unix.fork (Unix.mkprocess 4242 4242) 4243
         (Unix.start Unix.commandContext_unix (Unix.mkprocess 100 100) 4242
            [Unix.mkprocess 100 100])).
Proof.
  assert (1 < 4242) as H1 by done.
  assert (Unix.pgid (Unix.mkprocess 100 100) ≠ 4242) as H2 by done.
  assert (4243 ≠ 4242) as H3 by done.
  split; [by split_and!|].
  exact (proj1 (proj2 (proj2 (cancel_reaches_the_process_group
                                (Unix.mkprocess 100 100) 4242 4243 [] H1 H2 H3)))).
Defined.

Lemma reported_output_is_the_failing_output_witness :
  (exec_trace (init_state Scenario.scratch_lanes "/tmp/flake-1" Scenario.with_tmp)
              Scenario.crash_prefix = Some Scenario.before_crash ∧
   exec Scenario.before_crash (LRun 0 (Sample.says "crash" 3))
   = Some Scenario.after_crash ∧
   pc_of Scenario.after_crash 0
   = Some (WSend (Some (runError (Exited 3) (Slice 1 5 5)))) ∧
   exec_trace Scenario.after_crash Scenario.crash_rest
   = Some Scenario.full_run_end) ∧
  slice_read (w_heap (σ Scenario.full_run_end)) (Slice 1 5 5)
  = Sample.bytes "crash".
Proof.
  assert (exec_trace (init_state Scenario.scratch_lanes "/tmp/flake-1"
                                 Scenario.with_tmp) Scenario.crash_prefix
          = Some Scenario.before_crash) as E1 by (vm_compute; reflexivity).
  assert (exec Scenario.before_crash (LRun 0 (Sample.says "crash" 3))
          = Some Scenario.after_crash) as E2 by (vm_compute; reflexivity).
  assert (pc_of Scenario.after_crash 0
          = Some (WSend (Some (runError (Exited 3) (Slice 1 5 5))))) as E3
    by (vm_compute; reflexivity).
  assert (exec_trace Scenario.after_crash Scenario.crash_rest
          = Some Scenario.full_run_end) as E4 by (vm_compute; reflexivity).
  split; [by split_and!|].
  exact (proj1 (reported_output_is_the_failing_output FormatInt
                  Scenario.scratch_lanes "/tmp/flake-1" Scenario.with_tmp
                  Scenario.crash_prefix Scenario.before_crash 0
                  (Sample.says "crash" 3) Scenario.after_crash (Exited 3)
                  (Slice 1 5 5) Scenario.crash_rest Scenario.full_run_end 0
                  E1 E2 E3 E4)).
Defined.
